(** * Asteria smart bot: fuel-aware path planning, fuel policy and spawn choice

    A shallow embedding of the planning core of the smart bot
    (types.ts, pathfinding.ts, game-state.ts, fuel-manager.ts,
    spawn-optimizer.ts, and the navigation loop of
    pathfinding-simulator.ts and index.ts) and the properties stated
    about it.

    Conventions of the embedding:
    - a [bigint] is a [Z];
    - a [number] that only ever holds an integer (fuel, distances, the
      A* costs g, h, f, counters) is a [Z], read exactly; [Infinity] as
      a path cost is the constructor [Infinity] of [Cost];
    - a [number] that holds a fraction (the scores) is a [Q];
    - the conversion [Number(n)] of a [bigint] keeps [n] while its
      magnitude is at most 2^53 and rounds it beyond; it is written out
      as [Number] where a function is read with its rounding (the
      refuelling score, [canReachOrigin], [getPelletStats],
      [manhattanDistanceNumber]) and read as exact elsewhere;
    - a JS [Map<string, V>] is an association list in insertion order,
      a JS [Set<string>] a list of keys;
    - an [async] method is read as the sequential function it awaits;
    - [console.log] calls are dropped. *)

From Stdlib Require Import ZArith List String Ascii Bool Lia.
From Stdlib Require Import DecimalString DecimalZ DecimalPos DecimalN.
From Stdlib Require Import QArith Lqa Sorted Permutation.
Import ListNotations.

#[local] Open Scope Z_scope.

(* ================================================================== *)
(** ** types.ts: positions, keys, distance *)
(* ================================================================== *)

Record Position := mkPosition { pos_x : Z; pos_y : Z }.

Record Pellet := mkPellet {
  pellet_position : Position;
  pellet_fuel : Z
  (* utxo: opaque ledger reference, never inspected by the planner *)
}.

Record Ship := mkShip {
  ship_position : Position;
  ship_fuel : Z;
  ship_tokenName : string
}.

Record GameConfig := mkGameConfig {
  maxSpeed_distance : Z;
  maxSpeed_time : Z;
  maxShipFuel : Z;
  fuelPerStep : Z;
  initialFuel : Z;
  minAsteriaDistance : Z;
  shipMintLovelaceFee : Z;
  maxAsteriaMining : Z
}.

Definition GAME_CONFIG : GameConfig :=
  {| maxSpeed_distance := 1; maxSpeed_time := 12096000;
     maxShipFuel := 5; fuelPerStep := 1; initialFuel := 5;
     minAsteriaDistance := 50; shipMintLovelaceFee := 1000000;
     maxAsteriaMining := 50 |}.

Definition Position_eqb (a b : Position) : bool :=
  (pos_x a =? pos_x b) && (pos_y a =? pos_y b).

(** [`${n}`] for a bigint [n]: decimal digits, a leading minus sign for
    negatives, no leading zeros. *)
Definition BigInt_toString (n : Z) : string :=
  NilZero.string_of_int (Z.to_int n).

(** A non-empty run of decimal digits. *)
Definition parseDigits (s : string) : option Z :=
  match s with
  | EmptyString => None
  | _ => option_map Z.of_uint (NilEmpty.uint_of_string s)
  end.

(** [BigInt(s)] on a string: the empty string is [0n]; otherwise an
    optional sign and decimal digits.  [None] stands for the SyntaxError
    the call throws (surrounding blanks and the 0x/0o/0b literals, which
    [BigInt] also accepts, are outside this fragment and read as [None]). *)
Definition BigInt (s : string) : option Z :=
  match s with
  | EmptyString => Some 0
  | String c r =>
      if Ascii.eqb c "-" then option_map Z.opp (parseDigits r)
      else if Ascii.eqb c "+" then parseDigits r
      else parseDigits s
  end.

(** [s.split(',')]. *)
Fixpoint split_comma (s : string) : list string :=
  match s with
  | EmptyString => [EmptyString]
  | String c r =>
      if Ascii.eqb c ","
      then EmptyString :: split_comma r
      else match split_comma r with
           | [] => [String c EmptyString]
           | h :: t => String c h :: t
           end
  end.

Definition positionToKey (pos : Position) : string :=
  (BigInt_toString (pos_x pos) ++ "," ++ BigInt_toString (pos_y pos))%string.

(** [parts.map(n => BigInt(n))]: the first failing conversion throws. *)
Fixpoint mapBigInt (parts : list string) : option (list Z) :=
  match parts with
  | [] => Some []
  | s :: rest =>
      match BigInt s with
      | None => None
      | Some n =>
          match mapBigInt rest with
          | None => None
          | Some ns => Some (n :: ns)
          end
      end
  end.

(** [keyToPosition]: [None] when a conversion throws, or when fewer than
    two parts are present (the destructuring then leaves [y] undefined,
    which is not a [Position]). *)
Definition keyToPosition (key : string) : option Position :=
  match mapBigInt (split_comma key) with
  | Some (kx :: ky :: _) => Some (mkPosition kx ky)
  | _ => None
  end.

Definition abs (n : Z) : Z := if n <? 0 then - n else n.

(** The [bigint] sum that [manhattanDistance] converts to a number. *)
Definition manhattanDistance (a b : Position) : Z :=
  abs (pos_x a - pos_x b) + abs (pos_y a - pos_y b).

(** [Number(n)] for a [bigint] [n]: the nearest binary64 value, a tie
    going to the even significand.  An integer below 2^53 in magnitude
    is kept; beyond, [e] is the number of low bits that do not fit the
    53-bit significand, [q] the significand, [r] what is cut off.  The
    doubles met here hold integers and are read as [Z]; magnitudes from
    2^1024 on, which the source turns into [Infinity], are not told
    apart.  A binary64 sum or difference of two such numbers is the
    exact result rounded the same way, [Number (a + b)]. *)
Definition Number (n : Z) : Z :=
  let m := Z.abs n in
  let e := Z.log2 m - 52 in
  if e <=? 0 then n
  else
    let q := m / 2 ^ e in
    let r := m mod 2 ^ e in
    let half := 2 ^ (e - 1) in
    let q' := if (half <? r) || ((r =? half) && Z.odd q) then q + 1 else q in
    Z.sgn n * (q' * 2 ^ e).

(** [manhattanDistance] as the source returns it. *)
Definition manhattanDistanceNumber (a b : Position) : Z :=
  Number (manhattanDistance a b).

Definition origin : Position := mkPosition 0 0.

(* ================================================================== *)
(** ** JavaScript containers *)
(* ================================================================== *)

(** [Map<string, V>]: entries in insertion order, one entry per key. *)
Definition JsMap (V : Type) : Type := list (string * V).

Section JsMapOps.
Context {V : Type}.

Fixpoint map_get (k : string) (m : JsMap V) : option V :=
  match m with
  | [] => None
  | (k', v) :: rest => if String.eqb k k' then Some v else map_get k rest
  end.

(** [m.set(k, v)]: an existing key keeps its place in the order. *)
Fixpoint map_set (k : string) (v : V) (m : JsMap V) : JsMap V :=
  match m with
  | [] => [(k, v)]
  | (k', v') :: rest =>
      if String.eqb k k' then (k, v) :: rest
      else (k', v') :: map_set k v rest
  end.

Fixpoint map_delete (k : string) (m : JsMap V) : JsMap V :=
  match m with
  | [] => []
  | (k', v') :: rest =>
      if String.eqb k k' then rest else (k', v') :: map_delete k rest
  end.

Definition map_values (m : JsMap V) : list V := map snd m.
Definition map_keys (m : JsMap V) : list string := map fst m.
End JsMapOps.

(** [Set<string>]. *)
Definition JsSet : Type := list string.

Definition set_has (k : string) (s : JsSet) : bool :=
  existsb (String.eqb k) s.

Definition set_add (k : string) (s : JsSet) : JsSet :=
  if set_has k s then s else s ++ [k].

(** [Array.prototype.sort(cmp)], a stable sort.  [before a b] reads
    [cmp(a, b) < 0].  An element goes behind the later elements that
    the comparator puts strictly before it, and behind no other. *)
Section JsSort.
Context {A : Type} (before : A -> A -> bool).

Fixpoint sort_insert (a : A) (sorted : list A) : list A :=
  match sorted with
  | [] => [a]
  | b :: rest =>
      if before b a then b :: sort_insert a rest else a :: b :: rest
  end.

Definition js_sort (l : list A) : list A := fold_right sort_insert [] l.
End JsSort.

(* ================================================================== *)
(** ** game-state.ts: the snapshot and its queries *)
(* ================================================================== *)

Record GameState := mkGameState {
  pellets : JsMap Pellet;
  ships : JsMap Ship
}.

(** The loop of [updatePellets]: one [set] per pellet read from the
    ledger, under the key of its position. *)
Definition loadPellets (ps : list Pellet) : JsMap Pellet :=
  fold_left (fun m p => map_set (positionToKey (pellet_position p)) p m) ps [].

Definition loadShips (ss : list Ship) : JsMap Ship :=
  fold_left (fun m s => map_set (positionToKey (ship_position s)) s m) ss [].

Definition getPelletAt (gs : GameState) (position : Position) : option Pellet :=
  map_get (positionToKey position) (pellets gs).

Definition getAllPellets (gs : GameState) : list Pellet :=
  map_values (pellets gs).

Definition getAllShips (gs : GameState) : list Ship :=
  map_values (ships gs).

Definition getPelletsWithinDistance
    (gs : GameState) (position : Position) (maxDistance : Z) : list Pellet :=
  let within :=
    filter (fun pellet =>
              manhattanDistance position (pellet_position pellet)
              <=? maxDistance)
           (map_values (pellets gs)) in
  js_sort (fun a b =>
             manhattanDistance position (pellet_position a)
             - manhattanDistance position (pellet_position b) <? 0)
          within.

Definition removePellet (gs : GameState) (position : Position) : GameState :=
  {| pellets := map_delete (positionToKey position) (pellets gs);
     ships := ships gs |}.

(** What [updatePellets] guarantees of the pellet map: every pellet sits
    under the key of its own position, and keys are not repeated. *)
Definition PelletsKeyed (gs : GameState) : Prop :=
  Forall (fun e => fst e = positionToKey (pellet_position (snd e))) (pellets gs)
  /\ NoDup (map_keys (pellets gs)).

(* ================================================================== *)
(** ** pathfinding.ts *)
(* ================================================================== *)

Inductive Cost := Finite (n : Z) | Infinity.

Definition Cost_add (a b : Cost) : Cost :=
  match a, b with
  | Finite m, Finite n => Finite (m + n)
  | _, _ => Infinity
  end.

Definition Cost_ltb (a b : Cost) : bool :=
  match a, b with
  | Finite m, Finite n => m <? n
  | Finite _, Infinity => true
  | Infinity, _ => false
  end.

Inductive PathNode := mkPathNode {
  node_position : Position;
  node_g : Z;
  node_h : Z;
  node_f : Z;
  node_parent : option PathNode;
  node_fuel : Z
}.

Record Path := mkPath {
  path_nodes : list Position;
  path_totalCost : Cost;
  path_fuelStops : list Position;
  path_success : bool
}.

Definition failedPath : Path :=
  {| path_nodes := []; path_totalCost := Infinity;
     path_fuelStops := []; path_success := false |}.

(** The eight moves, in the order of the source table. *)
Definition moves : list (Z * Z) :=
  [ (1, 0); (-1, 0); (0, 1); (0, -1); (1, 1); (-1, 1); (1, -1); (-1, -1) ].

(** [position.c !== 0n ? -position.c / abs(position.c) : 0n], with the
    truncating division of bigints. *)
Definition towardOrigin (c : Z) : Z :=
  if negb (c =? 0) then Z.quot (- c) (abs c) else 0.

(** The [continue] test of [getNeighbors]. *)
Definition skipMove (position : Position) (move : Z * Z) : bool :=
  let '(dx, dy) := move in
  if negb (dx =? 0) && negb (dy =? 0) then
    negb (dx =? towardOrigin (pos_x position))
    || negb (dy =? towardOrigin (pos_y position))
  else false.

Definition generatedMoves (position : Position) : list (Z * Z) :=
  filter (fun move => negb (skipMove position move)) moves.

Definition applyMove (position : Position) (move : Z * Z) : Position :=
  {| pos_x := pos_x position + fst move; pos_y := pos_y position + snd move |}.

Definition getNeighbors (position : Position) : list Position :=
  map (applyMove position) (generatedMoves position).

(** The loop of [reconstructPath]: [unshift] is a cons, the walk goes up
    the parent links. *)
Fixpoint reconstructLoop (gs : GameState) (current : PathNode)
    (nodes fuelStops : list Position) (totalCost : Z) {struct current}
    : list Position * list Position * Z :=
  let nodes := node_position current :: nodes in
  match node_parent current with
  | Some parent =>
      let fuelStops :=
        match getPelletAt gs (node_position current) with
        | Some _ => node_position current :: fuelStops
        | None => fuelStops
        end in
      reconstructLoop gs parent nodes fuelStops (totalCost + 1)
  | None => (nodes, fuelStops, totalCost)
  end.

Definition reconstructPath (gs : GameState) (node : PathNode) : Path :=
  let '(nodes, fuelStops, totalCost) := reconstructLoop gs node [] [] 0 in
  {| path_nodes := nodes; path_totalCost := Finite totalCost;
     path_fuelStops := fuelStops; path_success := true |}.

(** One-hop lookahead: some pellet is within reach and, once taken,
    leaves enough fuel for the direct distance to the goal. *)
Definition hasPelletOnPath
    (gs : GameState) (from to : Position) (currentFuel : Z) : bool :=
  existsb
    (fun pellet =>
       let distToPellet := manhattanDistance from (pellet_position pellet) in
       let distFromPelletToGoal :=
         manhattanDistance (pellet_position pellet) to in
       if distToPellet <=? currentFuel then
         let fuelAfterMove := currentFuel - distToPellet in
         let maxRefuel := maxShipFuel GAME_CONFIG - fuelAfterMove in
         let actualRefuel := Z.min (pellet_fuel pellet) maxRefuel in
         let fuelAfterReachingPellet := fuelAfterMove + actualRefuel in
         fuelAfterReachingPellet >=? distFromPelletToGoal
       else false)
    (getAllPellets gs).

(** The fuel on arrival at a cell with [fuel] left after the move. *)
Definition refuelAt (gs : GameState) (position : Position) (fuel : Z) : Z :=
  match getPelletAt gs position with
  | Some pellet => Z.min (maxShipFuel GAME_CONFIG) (fuel + pellet_fuel pellet)
  | None => fuel
  end.

Record SearchState := mkSearchState {
  openSet : JsMap PathNode;
  closedSet : JsSet
}.

(** The linear scan for the lowest [f]; the first found wins a tie. *)
Definition lowestF (open : JsMap PathNode) : option (string * PathNode) :=
  fold_left
    (fun current entry =>
       match current with
       | None => Some entry
       | Some (_, c) =>
           if node_f (snd entry) <? node_f c then Some entry else current
       end)
    open None.

(** The body of the loop over the neighbours of [current]. *)
Definition visitNeighbor (gs : GameState) (goal : Position)
    (considerPellets : bool) (closed : JsSet) (current : PathNode)
    (open : JsMap PathNode) (neighborPos : Position) : JsMap PathNode :=
  let neighborKey := positionToKey neighborPos in
  if set_has neighborKey closed then open else
  let fuelAtNeighbor := node_fuel current - 1 in
  if fuelAtNeighbor <? 0 then open else
  let fuelAtNeighbor :=
    if considerPellets then refuelAt gs neighborPos fuelAtNeighbor
    else fuelAtNeighbor in
  let distanceToGoal := manhattanDistance neighborPos goal in
  let hasPathThroughPellets :=
    hasPelletOnPath gs neighborPos goal fuelAtNeighbor in
  if (fuelAtNeighbor <? distanceToGoal) && negb hasPathThroughPellets
  then open else
  let tentativeG := node_g current + 1 in
  let neighborNode :=
    {| node_position := neighborPos; node_g := tentativeG;
       node_h := distanceToGoal; node_f := tentativeG + distanceToGoal;
       node_parent := Some current; node_fuel := fuelAtNeighbor |} in
  match map_get neighborKey open with
  | Some existingNode =>
      if tentativeG >=? node_g existingNode then open
      else map_set neighborKey neighborNode open
  | None => map_set neighborKey neighborNode open
  end.

Inductive Iteration :=
| GoalReached (current : PathNode)
| OpenSetEmpty
| Continue (next : SearchState).

(** One turn of the [while] loop of [findPath]. *)
Definition iteration (gs : GameState) (goal : Position)
    (considerPellets : bool) (st : SearchState) : Iteration :=
  match lowestF (openSet st) with
  | None => OpenSetEmpty
  | Some (currentKey, current) =>
      if Position_eqb (node_position current) goal then GoalReached current
      else
        let open := map_delete currentKey (openSet st) in
        let closed := set_add currentKey (closedSet st) in
        Continue
          {| openSet :=
               fold_left (visitNeighbor gs goal considerPellets closed current)
                         (getNeighbors (node_position current)) open;
             closedSet := closed |}
  end.

Definition maxIterations : nat := 1000.

(** The [while] loop: [remaining] counts [maxIterations - iterations]
    down; the second component is the value of [iterations] on exit. *)
Fixpoint searchLoop (gs : GameState) (goal : Position)
    (considerPellets : bool) (remaining : nat) (iterations : Z)
    (st : SearchState) : Path * Z :=
  match remaining with
  | O => (failedPath, iterations)
  | S remaining' =>
      match iteration gs goal considerPellets st with
      | OpenSetEmpty => (failedPath, iterations)
      | GoalReached current => (reconstructPath gs current, iterations + 1)
      | Continue next =>
          searchLoop gs goal considerPellets remaining' (iterations + 1) next
      end
  end.

Definition startNode (start goal : Position) (fuel : Z) : PathNode :=
  {| node_position := start; node_g := 0;
     node_h := manhattanDistance start goal;
     node_f := manhattanDistance start goal;
     node_parent := None; node_fuel := fuel |}.

Definition startState (start goal : Position) (fuel : Z) : SearchState :=
  {| openSet := map_set (positionToKey start) (startNode start goal fuel) [];
     closedSet := [] |}.

Definition findPathRun (gs : GameState) (start goal : Position)
    (fuel : Z) (considerPellets : bool) : Path * Z :=
  searchLoop gs goal considerPellets maxIterations 0
             (startState start goal fuel).

Definition findPath (gs : GameState) (start goal : Position)
    (fuel : Z) (considerPellets : bool) : Path :=
  fst (findPathRun gs start goal fuel considerPellets).

(** The body of the loop over the reachable pellets in
    [findPathWithRefueling]; the state is [(bestPath, bestCost)].  A
    successful first leg always carries a finite cost; were it infinite,
    the source would compute an infinite total, which is never below
    [bestCost], so that branch leaves the state alone as well. *)
Definition tryWaypoint (gs : GameState) (start goal : Position) (fuel : Z)
    (best : Path * Cost) (pellet : Pellet) : Path * Cost :=
  let pathToPellet := findPath gs start (pellet_position pellet) fuel false in
  if negb (path_success pathToPellet) then best else
  match path_totalCost pathToPellet with
  | Infinity => best
  | Finite costToPellet =>
      let fuelAtPellet :=
        Z.min (maxShipFuel GAME_CONFIG)
              (fuel - costToPellet + pellet_fuel pellet) in
      let pathFromPellet :=
        findPath gs (pellet_position pellet) goal fuelAtPellet true in
      if negb (path_success pathFromPellet) then best else
      let totalCost :=
        Cost_add (Finite costToPellet) (path_totalCost pathFromPellet) in
      if Cost_ltb totalCost (snd best) then
        ({| path_nodes :=
              removelast (path_nodes pathToPellet) ++ path_nodes pathFromPellet;
            path_totalCost := totalCost;
            path_fuelStops :=
              pellet_position pellet :: path_fuelStops pathFromPellet;
            path_success := true |},
         totalCost)
      else best
  end.

Definition findPathWithRefueling (gs : GameState) (start goal : Position)
    (fuel : Z) : Path :=
  let directPath := findPath gs start goal fuel true in
  if path_success directPath then directPath else
  let reachablePellets :=
    filter (fun p => manhattanDistance start (pellet_position p) <=? fuel)
           (getAllPellets gs) in
  match reachablePellets with
  | [] => directPath
  | _ =>
      fst (fold_left (tryWaypoint gs start goal fuel) reachablePellets
                     (directPath, Infinity))
  end.

(** The loop of [simulatePath], from index 1 on. *)
Fixpoint simulateLoop (gs : GameState) (rest : list Position) (fuel : Z)
    : bool :=
  match rest with
  | [] => true
  | position :: rest' =>
      let fuel := fuel - 1 in
      if fuel <? 0 then false
      else simulateLoop gs rest' (refuelAt gs position fuel)
  end.

Definition simulatePath (gs : GameState) (path : list Position) (fuel : Z)
    : bool :=
  simulateLoop gs (tl path) fuel.

(* ================================================================== *)
(** ** fuel-manager.ts *)
(* ================================================================== *)

(** The only state of a [FuelManager] is its mode flag. *)
Record FuelManager := mkFuelManager { conservativeMode : bool }.

Definition newFuelManager : FuelManager := {| conservativeMode := false |}.

Definition updateStrategy (pelletsCount : Z) : FuelManager :=
  {| conservativeMode := pelletsCount <? 10 |}.

Definition getReachablePellets
    (gs : GameState) (position : Position) (fuel : Z) : list Pellet :=
  getPelletsWithinDistance gs position fuel.

Definition needsRefueling (fm : FuelManager) (gs : GameState)
    (currentFuel : Z) (currentPosition : Position) : bool :=
  let distanceToOrigin := manhattanDistance currentPosition origin in
  if currentFuel =? 0 then true else
  if currentFuel >=? distanceToOrigin then false else
  let reachablePellets :=
    getReachablePellets gs currentPosition currentFuel in
  if Nat.eqb (List.length reachablePellets) 0 then false else
  if conservativeMode fm && (currentFuel <? 3) then true else
  currentFuel <? 2.

Definition Qltb (a b : Q) : bool := negb (Qle_bool b a).

(** The score given to a reachable pellet by [findBestRefuelTarget],
    in the binary64 arithmetic of the source.  Every term is a multiple
    of one half, so the sum is kept in halves: [progressScore * 2] is
    exact, [fuelGainScore * 1.5] and each addition round their exact
    result as [Number] does. *)
Definition refuelScore (gs : GameState) (currentPosition : Position)
    (currentFuel : Z) (pellet : Pellet) : Q :=
  let distanceToPellet :=
    manhattanDistanceNumber currentPosition (pellet_position pellet) in
  let distanceToOrigin :=
    manhattanDistanceNumber (pellet_position pellet) origin in
  let fuelAfterReaching := Number (currentFuel - distanceToPellet) in
  let fuelAfterRefuel :=
    Z.min (maxShipFuel GAME_CONFIG)
          (Number (fuelAfterReaching + Number (pellet_fuel pellet))) in
  let progressScore :=
    Number (manhattanDistanceNumber currentPosition origin
            - distanceToOrigin) in
  let fuelGainScore := Number (pellet_fuel pellet) in
  let proximityScore := - distanceToPellet in
  let canReachOriginAfter := fuelAfterRefuel >=? distanceToOrigin in
  let halves :=
    Number (Number (Number (2 * (progressScore * 2)
                            + Number (3 * fuelGainScore))
                    + 2 * proximityScore)
            + (if canReachOriginAfter then 200 else 0)) in
  (inject_Z halves / 2)%Q.

Definition findBestRefuelTarget (gs : GameState)
    (currentPosition : Position) (currentFuel : Z) : option Pellet :=
  let reachablePellets :=
    getReachablePellets gs currentPosition currentFuel in
  if Nat.eqb (List.length reachablePellets) 0 then None else
  let scoredPellets :=
    map (fun pellet =>
           (pellet, refuelScore gs currentPosition currentFuel pellet))
        reachablePellets in
  let sorted :=
    js_sort (fun a b => Qltb (snd b - snd a) 0) scoredPellets in
  match sorted with
  | best :: _ => Some (fst best)
  | [] => None
  end.

(* ================================================================== *)
(** ** spawn-optimizer.ts *)
(* ================================================================== *)

(** A score as a JS number: a fraction, [-Infinity] or [NaN]. *)
Inductive Score := ScoreQ (q : Q) | ScoreNegInf | ScoreNaN.

Record SpawnCandidate := mkSpawnCandidate {
  cand_position : Position;
  cand_score : Score;
  cand_guaranteedPath : bool;
  cand_pathToOrigin : option Path;
  cand_nearbyPellets : Z;
  cand_totalMoves : Cost
}.

(** [b.score - a.score < 0] for the comparator of the candidate sort. *)
Definition scoreBefore (a b : SpawnCandidate) : bool :=
  match cand_score a, cand_score b with
  | ScoreQ sa, ScoreQ sb => Qltb (sb - sa) 0
  | ScoreQ _, ScoreNegInf => true
  | _, _ => false
  end.

(** The values [lo, lo + step, ...] not above [hi], for the counting
    [for] loops. *)
Definition countUp (lo hi step : Z) : list Z :=
  if hi <? lo then []
  else map (fun i => lo + step * Z.of_nat i)
           (seq 0 (Z.to_nat ((hi - lo) / step) + 1)).

(** [calculateDistance]: the [bigint] sum; its conversion to a number
    is read as exact. *)
Definition calculateDistance (a b : Position) : Z :=
  abs (pos_x a - pos_x b) + abs (pos_y a - pos_y b).

Definition Pellet_eqb (a b : Pellet) : bool :=
  Position_eqb (pellet_position a) (pellet_position b)
  && (pellet_fuel a =? pellet_fuel b).

Definition Qmin (a b : Q) : Q := if Qle_bool a b then a else b.
Definition Qmax (a b : Q) : Q := if Qle_bool a b then b else a.

Section SpawnOptimizer.

(** [polar dist angle] stands for the position
    [{x: BigInt(Math.round(dist * Math.cos(rad))),
      y: BigInt(Math.round(dist * Math.sin(rad)))}]
    with [rad = angle * Math.PI / 180]: the floating-point
    trigonometry is left to the caller of the model. *)
Variable polar : Z -> Z -> Position.

Definition angles : list Z :=
  [0; 30; 60; 90; 120; 150; 180; 210; 240; 270; 300; 330].

(** Source and target are compared by identity in the source; the
    pellets of a map are told apart by their contents here. *)
Definition pelletPairs (allPellets : list Pellet) : list (Pellet * Pellet) :=
  let pelletsThatReachOrigin :=
    filter (fun pellet =>
              manhattanDistance (pellet_position pellet) origin
              <=? pellet_fuel pellet)
           allPellets in
  flat_map
    (fun targetPellet =>
       flat_map
         (fun sourcePellet =>
            if Pellet_eqb sourcePellet targetPellet then []
            else if manhattanDistance (pellet_position sourcePellet)
                                      (pellet_position targetPellet)
                    <=? pellet_fuel sourcePellet
            then [(sourcePellet, targetPellet)] else [])
         allPellets)
    (firstn 20 pelletsThatReachOrigin).

Definition generatePelletBasedCandidates
    (allPellets : list Pellet) (minDist : Z) : list Position :=
  flat_map
    (fun pair : Pellet * Pellet =>
       let firstPellet := fst pair in
       flat_map
         (fun angle =>
            flat_map
              (fun dist =>
                 let spawnPos := polar dist angle in
                 let distToOrigin := manhattanDistance spawnPos origin in
                 let distToFirstPellet :=
                   manhattanDistance spawnPos (pellet_position firstPellet) in
                 if (distToOrigin >=? minDist)
                    && (distToFirstPellet <=? initialFuel GAME_CONFIG)
                 then [spawnPos] else [])
              (countUp minDist (minDist + 20) 3))
         angles)
    (firstn 100 (pelletPairs allPellets)).

Definition generateSystematicGrid (minDist maxDist : Z) : list Position :=
  flat_map
    (fun gx =>
       flat_map
         (fun gy =>
            let pos := mkPosition gx gy in
            let dist := manhattanDistance pos origin in
            if (dist >=? minDist) && (dist <=? maxDist) then [pos] else [])
         (countUp (- maxDist) maxDist 5))
    (countUp (- maxDist) maxDist 5).

Definition generateRadialCandidates (minDist maxDist : Z) : list Position :=
  flat_map
    (fun dist =>
       let angleStep := if dist <=? minDist + 20 then 15 else 30 in
       map (fun angle => polar dist angle) (countUp 0 359 angleStep))
    (countUp minDist maxDist 10).

(** The loop of [deduplicatePositions]; [seen] holds the keys met. *)
Fixpoint deduplicateLoop (positions : list Position) (seen : JsSet)
    : list Position :=
  match positions with
  | [] => []
  | pos :: rest =>
      let key := positionToKey pos in
      if negb (set_has key seen)
      then pos :: deduplicateLoop rest (set_add key seen)
      else deduplicateLoop rest seen
  end.

Definition deduplicatePositions (positions : list Position) : list Position :=
  deduplicateLoop positions [].

Definition generateSpawnCandidates (gs : GameState) : list Position :=
  let minDist := minAsteriaDistance GAME_CONFIG in
  let maxDist := Z.min 200 (minDist * 3) in
  let allPellets := getAllPellets gs in
  deduplicatePositions
    (generatePelletBasedCandidates allPellets minDist
     ++ generateSystematicGrid minDist maxDist
     ++ generateRadialCandidates minDist maxDist).

Definition countNearbyShips (gs : GameState) (position : Position)
    (radius : Z) : Z :=
  Z.of_nat
    (List.length
       (filter (fun ship =>
                  calculateDistance position (ship_position ship) <=? radius)
               (getAllShips gs))).

Definition pelletCount (gs : GameState) (position : Position)
    (radius : Z) : Z :=
  Z.of_nat (List.length (getPelletsWithinDistance gs position radius)).

(** [Math.min(1.0, distanceToOrigin / path.totalCost)]; [None] is NaN
    (0 / 0); a division of a positive distance by 0 is [+Infinity],
    capped at 1; a division by [Infinity] is 0. *)
Definition pathEfficiencyOf (distanceToOrigin : Z) (totalCost : Cost)
    : option Q :=
  match totalCost with
  | Infinity => Some 0%Q
  | Finite c =>
      if c =? 0 then
        if distanceToOrigin =? 0 then None else Some 1%Q
      else Some (Qmin 1 (inject_Z distanceToOrigin / inject_Z c))
  end.

Definition calculateSpawnScore (gs : GameState) (position : Position)
    (path : Path) (nearbyPellets nearbyShips : Z) : Score :=
  if negb (path_success path) then ScoreNegInf else
  let distanceToOrigin := calculateDistance position origin in
  match pathEfficiencyOf distanceToOrigin (path_totalCost path) with
  | None => ScoreNaN
  | Some pathEfficiency =>
      let fuelStops := Z.of_nat (List.length (path_fuelStops path)) in
      let pathSafety := Qmin 1 (inject_Z fuelStops / 3) in
      let extendedNearbyPellets := pelletCount gs position 20 in
      let pelletScore := Qmin 1 (inject_Z extendedNearbyPellets / 10) in
      let competitionScore := Qmax 0 (1 - inject_Z nearbyShips / 3) in
      let distancePenalty := (inject_Z distanceToOrigin / 200)%Q in
      ScoreQ (1000 * 1 + 500 * pathEfficiency + 300 * pathSafety
              + 200 * pelletScore + (-50) * distancePenalty
              + (-100) * competitionScore)%Q
  end.

Definition evaluateSpawnPosition (gs : GameState) (position : Position)
    : SpawnCandidate :=
  let path :=
    findPathWithRefueling gs position origin (initialFuel GAME_CONFIG) in
  let nearbyPellets := pelletCount gs position 10 in
  let nearbyShips := countNearbyShips gs position 15 in
  let score := calculateSpawnScore gs position path nearbyPellets nearbyShips in
  {| cand_position := position; cand_score := score;
     cand_guaranteedPath := path_success path;
     cand_pathToOrigin := Some path;
     cand_nearbyPellets := nearbyPellets;
     cand_totalMoves := path_totalCost path |}.

(** The body of the loop of [findFallbackSpawnPosition]; the state is
    [(bestCandidate, maxPellets)]. *)
Definition fallbackStep (gs : GameState)
    (best : option SpawnCandidate * Z) (position : Position)
    : option SpawnCandidate * Z :=
  let nearbyPellets := pelletCount gs position 15 in
  if nearbyPellets >? snd best then
    (Some {| cand_position := position;
             cand_score := ScoreQ (inject_Z nearbyPellets);
             cand_guaranteedPath := false;
             cand_pathToOrigin := None;
             cand_nearbyPellets := nearbyPellets;
             cand_totalMoves := Finite (calculateDistance position origin) |},
     nearbyPellets)
  else best.

Definition findFallbackSpawnPosition (gs : GameState)
    : option SpawnCandidate :=
  fst (fold_left (fallbackStep gs) (generateSpawnCandidates gs) (None, 0)).

(** The evaluation loop of [findOptimalSpawnPosition], with its early
    exit; it returns [evaluatedCandidates]. *)
Fixpoint evaluateLoop (gs : GameState) (candidates : list Position)
    (evaluatedCandidates : list SpawnCandidate)
    (pathsFound totalEvaluated : Z) : list SpawnCandidate :=
  match candidates with
  | [] => evaluatedCandidates
  | position :: rest =>
      let totalEvaluated := totalEvaluated + 1 in
      let candidate := evaluateSpawnPosition gs position in
      let evaluatedCandidates :=
        if cand_guaranteedPath candidate
        then evaluatedCandidates ++ [candidate] else evaluatedCandidates in
      let pathsFound :=
        if cand_guaranteedPath candidate
        then pathsFound + 1 else pathsFound in
      if (pathsFound >=? 10) && (totalEvaluated >=? 100)
      then evaluatedCandidates
      else evaluateLoop gs rest evaluatedCandidates pathsFound totalEvaluated
  end.

Definition findOptimalSpawnPosition (gs : GameState)
    : option SpawnCandidate :=
  let candidates := generateSpawnCandidates gs in
  let evaluatedCandidates := evaluateLoop gs candidates [] 0 0 in
  if Nat.eqb (List.length evaluatedCandidates) 0
  then findFallbackSpawnPosition gs
  else
    match js_sort scoreBefore evaluatedCandidates with
    | best :: _ => Some best
    | [] => None
    end.

End SpawnOptimizer.

(** A decimal rendering of the trigonometry, for running the optimizer:
    cosines of the multiples of 15 degrees to nine places, and
    [Math.round] as the floor of the value plus one half.  None of the
    products met on the radial rings falls near a half, so the rounding
    agrees with the doubles of the source there; it need not where a
    product is a half in the reals (53 * cos 240 is -26.5 here and
    rounds to -26, the double product is just below and rounds to
    -27). *)
Definition cosE9 (angle : Z) : Z :=
  match (angle / 15) mod 24 with
  | 0 => 1000000000 | 1 => 965925826 | 2 => 866025404 | 3 => 707106781
  | 4 => 500000000 | 5 => 258819045 | 6 => 0
  | 7 => -258819045 | 8 => -500000000 | 9 => -707106781
  | 10 => -866025404 | 11 => -965925826 | 12 => -1000000000
  | 13 => -965925826 | 14 => -866025404 | 15 => -707106781
  | 16 => -500000000 | 17 => -258819045 | 18 => 0
  | 19 => 258819045 | 20 => 500000000 | 21 => 707106781
  | 22 => 866025404 | _ => 965925826
  end.

Definition sinE9 (angle : Z) : Z := cosE9 (angle + 270).

Definition roundE9 (v : Z) : Z := (v + 500000000) / 1000000000.

Definition polarDecimal (dist angle : Z) : Position :=
  {| pos_x := roundE9 (dist * cosE9 angle);
     pos_y := roundE9 (dist * sinE9 angle) |}.

Definition emptyWorld : GameState := {| pellets := []; ships := [] |}.

(* ================================================================== *)
(** ** Notions used to state the properties *)
(* ================================================================== *)

(** The state of the search after [n] full turns of the loop, when none
    of them left the loop. *)
Fixpoint afterIterations (gs : GameState) (goal : Position)
    (considerPellets : bool) (n : nat) (st : SearchState)
    : option SearchState :=
  match n with
  | O => Some st
  | S n' =>
      match iteration gs goal considerPellets st with
      | Continue next => afterIterations gs goal considerPellets n' next
      | _ => None
      end
  end.

(** A node whose parent links lead back to the start node of a search
    from [start] with [fuel0], each link paying one unit of fuel that
    the parent had, and refuelling on arrival when pellets are
    considered. *)
Inductive Chain (gs : GameState) (considerPellets : bool)
    (start : Position) (fuel0 : Z) : PathNode -> Prop :=
| Chain_root n :
    node_parent n = None ->
    node_position n = start ->
    node_fuel n = fuel0 ->
    Chain gs considerPellets start fuel0 n
| Chain_step n p :
    node_parent n = Some p ->
    Chain gs considerPellets start fuel0 p ->
    0 <= node_fuel p - 1 ->
    node_fuel n =
      (if considerPellets
       then refuelAt gs (node_position n) (node_fuel p - 1)
       else node_fuel p - 1) ->
    Chain gs considerPellets start fuel0 n.

(** Every node of an open set is such a chain. *)
Definition ChainedOpenSet (gs : GameState) (considerPellets : bool)
    (start : Position) (fuel0 : Z) (open : JsMap PathNode) : Prop :=
  Forall (fun e => Chain gs considerPellets start fuel0 (snd e)) open.

(** The positions from the start node down to [n]. *)
Fixpoint chainPositions (n : PathNode) : list Position :=
  match node_parent n with
  | Some p => chainPositions p ++ [node_position n]
  | None => [node_position n]
  end.


(** A successful path is not empty and costs its number of nodes minus
    one. *)
Definition CostCountsSteps (p : Path) : Prop :=
  path_success p = true ->
  path_nodes p <> [] /\
  path_totalCost p = Finite (Z.of_nat (List.length (path_nodes p)) - 1).

(** No pellet of the snapshot holds a negative amount of fuel. *)
Definition PelletsNonNegative (gs : GameState) : Prop :=
  Forall (fun p => 0 <= pellet_fuel p) (getAllPellets gs).



Definition pelletOnTheWay : GameState :=
  {| pellets := loadPellets [mkPellet (mkPosition 6 0) 1]; ships := [] |}.

Definition twoPellets : GameState :=
  {| pellets := loadPellets [mkPellet (mkPosition 7 0) 5;
                              mkPellet (mkPosition 3 0) 5];
     ships := [] |}.

(** The score of a pellet as the statement of C9 words it: twice the
    progress toward the goal, plus one and a half times the fuel of the
    pellet, minus the distance to the pellet, plus 100 when the fuel on
    leaving the pellet, capped at the capacity, covers the distance from
    the pellet to the goal. *)
Definition statedScore (position : Position) (fuel : Z) (pellet : Pellet) : Q :=
  (2 * inject_Z (manhattanDistance position origin
                 - manhattanDistance (pellet_position pellet) origin)
   + (3 # 2) * inject_Z (pellet_fuel pellet)
   + (-1) * inject_Z (manhattanDistance position (pellet_position pellet))
   + (if Z.min (maxShipFuel GAME_CONFIG)
               (fuel - manhattanDistance position (pellet_position pellet)
                + pellet_fuel pellet)
         >=? manhattanDistance (pellet_position pellet) origin
      then 100 else 0))%Q.

Definition onePelletFar : GameState :=
  {| pellets := loadPellets [mkPellet (mkPosition 50 1) 2]; ships := [] |}.

(** What the loop of the fallback has established after the positions
    [seen]. *)
Definition FallbackState (gs : GameState) (seen : list Position)
    (st : option SpawnCandidate * Z) : Prop :=
  0 <= snd st /\
  (forall p, In p seen -> pelletCount gs p 15 <= snd st) /\
  match fst st with
  | None => snd st = 0
  | Some c =>
      cand_guaranteedPath c = false /\
      In (cand_position c) seen /\
      cand_nearbyPellets c = pelletCount gs (cand_position c) 15 /\
      cand_nearbyPellets c = snd st /\
      0 < snd st
  end.

(** Both coordinates of [p] are at most [bound] in magnitude. *)
Definition PositionWithin (bound : Z) (p : Position) : Prop :=
  Z.abs (pos_x p) <= bound /\ Z.abs (pos_y p) <= bound.

(** The range in which the refuelling score is computed without
    rounding: the coordinates of the ship and of every pellet, the fuel
    and every pellet amount are at most 2^48 in magnitude. *)
Definition ScoresExact (gs : GameState) (position : Position) (fuel : Z)
    : Prop :=
  PositionWithin (2 ^ 48) position /\ Z.abs fuel <= 2 ^ 48 /\
  forall pellet,
    In pellet (getAllPellets gs) ->
    PositionWithin (2 ^ 48) (pellet_position pellet) /\
    Z.abs (pellet_fuel pellet) <= 2 ^ 48.

(** Two pellets next to the cell (10, 0), the first loaded holding
    2^53, the second one more. *)
Definition heavyPellets : GameState :=
  {| pellets := loadPellets [mkPellet (mkPosition 10 1) (2 ^ 53);
                              mkPellet (mkPosition 10 (-1)) (2 ^ 53 + 1)];
     ships := [] |}.

(* ================================================================== *)
(** ** pathfinding.ts, fuel-manager.ts: the remaining queries *)
(* ================================================================== *)

(** [calculateNextMove]: one greedy step, each axis on its own. *)
Definition calculateNextMove (from to : Position) : Z * Z :=
  let dx :=
    if negb (pos_x from =? pos_x to)
    then (if pos_x to >? pos_x from then 1 else -1) else 0 in
  let dy :=
    if negb (pos_y from =? pos_y to)
    then (if pos_y to >? pos_y from then 1 else -1) else 0 in
  (dx, dy).

Definition hasPelletAtPosition (gs : GameState) (position : Position) : bool :=
  match getPelletAt gs position with
  | Some _ => true
  | None => false
  end.

Definition calculateFuelNeeded (from to : Position) : Z :=
  manhattanDistance from to.

(** The loop of [planFuelStops], from index 1 on; [push] appends, the
    fuel shortage breaks out with the stops found so far. *)
Fixpoint planFuelStopsLoop (gs : GameState) (rest : list Position)
    (currentFuel : Z) (fuelStops : list Position) : list Position :=
  match rest with
  | [] => fuelStops
  | position :: rest' =>
      let currentFuel := currentFuel - 1 in
      if currentFuel <? 0 then fuelStops
      else
        match getPelletAt gs position with
        | Some pellet =>
            let fuelBefore := currentFuel in
            let currentFuel :=
              Z.min (maxShipFuel GAME_CONFIG)
                    (currentFuel + pellet_fuel pellet) in
            if fuelBefore <? maxShipFuel GAME_CONFIG
            then planFuelStopsLoop gs rest' currentFuel (fuelStops ++ [position])
            else planFuelStopsLoop gs rest' currentFuel fuelStops
        | None => planFuelStopsLoop gs rest' currentFuel fuelStops
        end
  end.

Definition planFuelStops (gs : GameState) (path : list Position)
    (fuel : Z) : list Position :=
  planFuelStopsLoop gs (tl path) fuel [].

(** [canReachOrigin], on the distances as numbers. *)
Definition canReachOrigin (gs : GameState) (position : Position)
    (currentFuel : Z) : bool :=
  let distanceToOrigin := manhattanDistanceNumber position origin in
  if currentFuel >=? distanceToOrigin then true else
  let pelletsOnPath :=
    filter (fun p =>
              let pelletDist :=
                manhattanDistanceNumber position (pellet_position p) in
              let pelletToOrigin :=
                manhattanDistanceNumber (pellet_position p) origin in
              (pelletDist <=? currentFuel)
              && (pelletToOrigin <? distanceToOrigin))
           (getAllPellets gs) in
  (0 <? List.length pelletsOnPath)%nat.

(* ================================================================== *)
(** ** pathfinding-simulator.ts *)
(* ================================================================== *)

(** [getPelletStats]; the average is left out (a floating division).
    [stats_totalFuel] is the [bigint] total while the loop runs and the
    number [Number(totalFuel)] in the result. *)
Record PelletStats := mkPelletStats {
  stats_totalPellets : Z;
  stats_totalFuel : Z;
  stats_q1 : Z;
  stats_q2 : Z;
  stats_q3 : Z;
  stats_q4 : Z;
  stats_closestToOrigin : Cost
}.

(** The body of the loop of [getPelletStats]; [totalPellets] is filled
    in after the loop. *)
Definition pelletStatsStep (st : PelletStats) (pellet : Pellet) : PelletStats :=
  let pos := pellet_position pellet in
  let q1 := (pos_x pos >=? 0) && (pos_y pos >=? 0) in
  let q2 := (pos_x pos <? 0) && (pos_y pos >=? 0) in
  let q3 := (pos_x pos <? 0) && (pos_y pos <? 0) in
  let q4 := (pos_x pos >=? 0) && (pos_y pos <? 0) in
  let distance := manhattanDistanceNumber pos origin in
  {| stats_totalPellets := stats_totalPellets st;
     stats_totalFuel := stats_totalFuel st + pellet_fuel pellet;
     stats_q1 := if q1 then stats_q1 st + 1 else stats_q1 st;
     stats_q2 := if q1 then stats_q2 st
                 else if q2 then stats_q2 st + 1 else stats_q2 st;
     stats_q3 := if q1 then stats_q3 st else if q2 then stats_q3 st
                 else if q3 then stats_q3 st + 1 else stats_q3 st;
     stats_q4 := if q1 then stats_q4 st else if q2 then stats_q4 st
                 else if q3 then stats_q4 st
                 else if q4 then stats_q4 st + 1 else stats_q4 st;
     stats_closestToOrigin :=
       if Cost_ltb (Finite distance) (stats_closestToOrigin st)
       then Finite distance else stats_closestToOrigin st |}.

Definition getPelletStats (gs : GameState) : PelletStats :=
  let st :=
    fold_left pelletStatsStep (getAllPellets gs)
      {| stats_totalPellets := 0; stats_totalFuel := 0;
         stats_q1 := 0; stats_q2 := 0; stats_q3 := 0; stats_q4 := 0;
         stats_closestToOrigin := Infinity |} in
  {| stats_totalPellets := Z.of_nat (List.length (pellets gs));
     stats_totalFuel := Number (stats_totalFuel st);
     stats_q1 := stats_q1 st; stats_q2 := stats_q2 st;
     stats_q3 := stats_q3 st; stats_q4 := stats_q4 st;
     stats_closestToOrigin := stats_closestToOrigin st |}.

Inductive Action :=
| ActionMove (dx dy : Z)
| ActionGather
| ActionStuck.

(** What [determineNextAction] does once the tank is known not to be
    empty, in the simulator and in the bot alike: head for the best
    pellet when refuelling is needed and one is in reach, else follow
    the planned path, else step straight toward the origin. *)
Definition chooseMove (fm : FuelManager) (gs : GameState)
    (currentPosition : Position) (currentFuel : Z) : Action :=
  let refuelTarget :=
    if needsRefueling fm gs currentFuel currentPosition
    then findBestRefuelTarget gs currentPosition currentFuel
    else None in
  match refuelTarget with
  | Some target =>
      let move := calculateNextMove currentPosition (pellet_position target) in
      ActionMove (fst move) (snd move)
  | None =>
      let path := findPath gs currentPosition origin currentFuel true in
      let fallback :=
        let move := calculateNextMove currentPosition origin in
        ActionMove (fst move) (snd move) in
      if path_success path then
        match path_nodes path with
        | _ :: nextPos :: _ =>
            ActionMove (pos_x nextPos - pos_x currentPosition)
                       (pos_y nextPos - pos_y currentPosition)
        | _ => fallback
        end
      else fallback
  end.

(** [PathfindingSimulator.determineNextAction]. *)
Definition determineNextAction (fm : FuelManager) (gs : GameState)
    (currentPosition : Position) (currentFuel : Z) : Action :=
  if currentFuel =? 0 then ActionStuck
  else chooseMove fm gs currentPosition currentFuel.

(** [SmartAsteriaBot.determineNextAction]: the same, but with an empty
    tank a pellet on the cell is gathered. *)
Definition botDetermineNextAction (fm : FuelManager) (gs : GameState)
    (shipPosition : Position) (shipFuel : Z) : Action :=
  if shipFuel =? 0 then
    if hasPelletAtPosition gs shipPosition then ActionGather else ActionStuck
  else chooseMove fm gs shipPosition shipFuel.

Inductive MoveLabel :=
| LabelStart
| LabelGather (gained : Z)
| LabelMove (dx dy : Z).

(** The state of [PathfindingSimulator] that [simulateNavigation]
    reads and writes. *)
Record Simulation := mkSimulation {
  sim_gameState : GameState;
  sim_currentPosition : Position;
  sim_currentFuel : Z;
  sim_totalMoves : Z;
  sim_fuelGathered : Z;
  sim_visitedPositions : JsSet;
  sim_moveHistory : list (Position * Z * MoveLabel)
}.

Definition recordMove (s : Simulation) (label : MoveLabel) : Simulation :=
  {| sim_gameState := sim_gameState s;
     sim_currentPosition := sim_currentPosition s;
     sim_currentFuel := sim_currentFuel s;
     sim_totalMoves := sim_totalMoves s;
     sim_fuelGathered := sim_fuelGathered s;
     sim_visitedPositions := sim_visitedPositions s;
     sim_moveHistory :=
       sim_moveHistory s
       ++ [(sim_currentPosition s, sim_currentFuel s, label)] |}.

Inductive Turn :=
| TurnBreak (final : Simulation)
| TurnNext (next : Simulation).

(** One turn of the [while] loop of [simulateNavigation]. *)
Definition simulationTurn (fm : FuelManager) (s : Simulation) : Turn :=
  if (pos_x (sim_currentPosition s) =? 0) && (pos_y (sim_currentPosition s) =? 0)
  then TurnBreak s
  else
    match getPelletAt (sim_gameState s) (sim_currentPosition s) with
    | Some pelletHere =>
        let fuelBefore := sim_currentFuel s in
        let fuel :=
          Z.min (maxShipFuel GAME_CONFIG)
                (sim_currentFuel s + pellet_fuel pelletHere) in
        TurnNext
          (recordMove
             {| sim_gameState :=
                  removePellet (sim_gameState s) (sim_currentPosition s);
                sim_currentPosition := sim_currentPosition s;
                sim_currentFuel := fuel;
                sim_totalMoves := sim_totalMoves s;
                sim_fuelGathered := sim_fuelGathered s + (fuel - fuelBefore);
                sim_visitedPositions := sim_visitedPositions s;
                sim_moveHistory := sim_moveHistory s |}
             (LabelGather (fuel - fuelBefore)))
    | None =>
        match determineNextAction fm (sim_gameState s)
                (sim_currentPosition s) (sim_currentFuel s) with
        | ActionMove dx dy =>
            let newPos :=
              {| pos_x := pos_x (sim_currentPosition s) + dx;
                 pos_y := pos_y (sim_currentPosition s) + dy |} in
            let s' :=
              recordMove
                {| sim_gameState := sim_gameState s;
                   sim_currentPosition := newPos;
                   sim_currentFuel := sim_currentFuel s - 1;
                   sim_totalMoves := sim_totalMoves s + 1;
                   sim_fuelGathered := sim_fuelGathered s;
                   sim_visitedPositions :=
                     set_add (positionToKey newPos) (sim_visitedPositions s);
                   sim_moveHistory := sim_moveHistory s |}
                (LabelMove dx dy) in
            if sim_currentFuel s' <? 0 then TurnBreak s' else TurnNext s'
        | ActionStuck => TurnBreak s
        | ActionGather =>
            if sim_currentFuel s <? 0 then TurnBreak s else TurnNext s
        end
    end.

(** The loop, [remaining] counting [maxSteps - stepCount] down. *)
Fixpoint simulationLoop (fm : FuelManager) (remaining : nat) (s : Simulation)
    : Simulation :=
  match remaining with
  | O => s
  | S remaining' =>
      match simulationTurn fm s with
      | TurnBreak final => final
      | TurnNext next => simulationLoop fm remaining' next
      end
  end.

Definition maxSteps : nat := 200.

(** [simulateNavigation], entered with the spawn position, the state as
    the fields are initialised, and the [START] record. *)
Definition simulateNavigation (fm : FuelManager) (gs : GameState)
    (spawn : Position) : Simulation :=
  simulationLoop fm maxSteps
    (recordMove
       {| sim_gameState := gs; sim_currentPosition := spawn;
          sim_currentFuel := initialFuel GAME_CONFIG;
          sim_totalMoves := 0; sim_fuelGathered := 0;
          sim_visitedPositions := []; sim_moveHistory := [] |}
       LabelStart).

(* ================================================================== *)
(** ** Further notions used to state properties *)
(* ================================================================== *)

(** Each cell of [nodes] is followed by one of its generated
    neighbours. *)
Fixpoint StepsAreMoves (nodes : list Position) : Prop :=
  match nodes with
  | a :: rest =>
      match rest with
      | b :: _ => In b (getNeighbors a) /\ StepsAreMoves rest
      | [] => True
      end
  | [] => True
  end.

(** A path from [start] to [goal] by generated moves. *)
Definition Walk (start goal : Position) (nodes : list Position) : Prop :=
  hd_error nodes = Some start /\ last nodes start = goal
  /\ StepsAreMoves nodes.

(** A node whose parent links lead back to the start node by generated
    moves, with [g] counting the links. *)
Inductive Routed (start : Position) : PathNode -> Prop :=
| Routed_root n :
    node_parent n = None ->
    node_position n = start ->
    node_g n = 0 ->
    Routed start n
| Routed_step n p :
    node_parent n = Some p ->
    Routed start p ->
    In (node_position n) (getNeighbors (node_position p)) ->
    node_g n = node_g p + 1 ->
    Routed start n.

(** [l1] is [l2] with some elements left out. *)
Inductive Subsequence {A : Type} : list A -> list A -> Prop :=
| Subsequence_nil : Subsequence [] []
| Subsequence_skip a l1 l2 : Subsequence l1 l2 -> Subsequence l1 (a :: l2)
| Subsequence_keep a l1 l2 :
    Subsequence l1 l2 -> Subsequence (a :: l1) (a :: l2).

(** The invariant of the simulated navigation: the tank is within its
    bounds, the snapshot is well keyed with non-negative pellets, and
    the fuel is what was there at first, plus what was gathered, minus
    one per move. *)
Definition SimulationOk (fuel0 : Z) (s : Simulation) : Prop :=
  0 <= sim_currentFuel s <= maxShipFuel GAME_CONFIG /\
  PelletsKeyed (sim_gameState s) /\
  PelletsNonNegative (sim_gameState s) /\
  sim_currentFuel s = fuel0 + sim_fuelGathered s - sim_totalMoves s /\
  0 <= sim_fuelGathered s /\ 0 <= sim_totalMoves s.

Definition Cost_le (a b : Cost) : Prop :=
  match a, b with
  | Finite m, Finite n => m <= n
  | _, Infinity => True
  | Infinity, Finite _ => False
  end.

(** The total cost [findPathWithRefueling] works out for the waypoint
    [pellet]: the cost of the two legs, [Infinity] when a leg fails. *)
Definition twoLegTotal (gs : GameState) (start goal : Position) (fuel : Z)
    (pellet : Pellet) : Cost :=
  let pathToPellet := findPath gs start (pellet_position pellet) fuel false in
  if negb (path_success pathToPellet) then Infinity else
  match path_totalCost pathToPellet with
  | Infinity => Infinity
  | Finite costToPellet =>
      let fuelAtPellet :=
        Z.min (maxShipFuel GAME_CONFIG)
              (fuel - costToPellet + pellet_fuel pellet) in
      let pathFromPellet :=
        findPath gs (pellet_position pellet) goal fuelAtPellet true in
      if negb (path_success pathFromPellet) then Infinity
      else Cost_add (Finite costToPellet) (path_totalCost pathFromPellet)
  end.

(** What one turn keeps: the invariant, at most one more move, and no
    new pellet. *)
Definition TurnKeeps (fuel0 : Z) (s s' : Simulation) : Prop :=
  SimulationOk fuel0 s' /\
  sim_totalMoves s' <= sim_totalMoves s + 1 /\
  (forall p, In p (getAllPellets (sim_gameState s')) ->
             In p (getAllPellets (sim_gameState s))).

(** The open and closed sets as a search keeps them: one entry per key
    in the open set, each under the key of its node's position, closed
    keys listed once, and no key both open and closed. *)
Definition SearchSetsOk (st : SearchState) : Prop :=
  NoDup (map_keys (openSet st))
  /\ Forall (fun e => fst e = positionToKey (node_position (snd e)))
            (openSet st)
  /\ NoDup (closedSet st)
  /\ (forall k, In k (closedSet st) -> ~ In k (map_keys (openSet st))).
(* ------------------------------------------------------------------ *)
(** *** Keys round-trip *)

Fixpoint has_comma (s : string) : bool :=
  match s with
  | EmptyString => false
  | String c r => Ascii.eqb c "," || has_comma r
  end.

Lemma split_comma_plain (s : string) :
  has_comma s = false -> split_comma s = [s].
Proof.
  induction s as [|c r IH]; simpl; [reflexivity|].
  intros H. apply orb_false_iff in H as [Hc Hr].
  rewrite Hc, (IH Hr). reflexivity.
Qed.

Lemma split_comma_app (s1 s2 : string) :
  has_comma s1 = false ->
  split_comma (s1 ++ String "," s2) = s1 :: split_comma s2.
Proof.
  induction s1 as [|c r IH]; simpl; [reflexivity|].
  intros H. apply orb_false_iff in H as [Hc Hr].
  rewrite Hc, (IH Hr). reflexivity.
Qed.

Lemma digits_no_comma (d : Decimal.uint) :
  has_comma (NilEmpty.string_of_uint d) = false.
Proof. induction d; simpl; auto. Qed.

Lemma BigInt_toString_no_comma (n : Z) :
  has_comma (BigInt_toString n) = false.
Proof.
  unfold BigInt_toString, NilZero.string_of_int, NilZero.string_of_uint.
  destruct (Z.to_int n) as [d|d]; destruct d; simpl;
    auto using digits_no_comma.
Qed.

Lemma parseDigits_to_uint (p : positive) :
  parseDigits (NilEmpty.string_of_uint (Pos.to_uint p)) = Some (Z.pos p).
Proof.
  unfold parseDigits.
  assert (Hn : Pos.to_uint p <> Decimal.Nil) by apply Unsigned.to_uint_nonnil.
  rewrite NilEmpty.usu. simpl.
  assert (E : Z.of_uint (Pos.to_uint p) = Z.pos p).
  { unfold Z.of_uint. rewrite DecimalPos.Unsigned.of_to. reflexivity. }
  rewrite E.
  destruct (Pos.to_uint p); simpl; congruence.
Qed.

Lemma BigInt_of_toString (n : Z) : BigInt (BigInt_toString n) = Some n.
Proof.
  destruct n as [|p|p]; [reflexivity| |].
  - unfold BigInt_toString. simpl Z.to_int. simpl NilZero.string_of_int.
    pose proof (parseDigits_to_uint p) as H.
    pose proof (Unsigned.to_uint_nonnil p) as Hn.
    unfold NilZero.string_of_uint.
    destruct (Pos.to_uint p) eqn:E; try congruence; simpl in *; exact H.
  - unfold BigInt_toString. simpl Z.to_int. simpl NilZero.string_of_int.
    pose proof (parseDigits_to_uint p) as H.
    pose proof (Unsigned.to_uint_nonnil p) as Hn.
    unfold NilZero.string_of_uint.
    unfold BigInt. simpl Ascii.eqb.
    destruct (Pos.to_uint p) eqn:E; try congruence; rewrite H; reflexivity.
Qed.

Lemma keyToPosition_positionToKey (p : Position) :
  keyToPosition (positionToKey p) = Some p.
Proof.
  unfold keyToPosition, positionToKey. simpl append.
  rewrite split_comma_app by apply BigInt_toString_no_comma.
  rewrite split_comma_plain by apply BigInt_toString_no_comma.
  simpl. rewrite !BigInt_of_toString. destruct p; reflexivity.
Qed.

Lemma positionToKey_inj (p q : Position) :
  positionToKey p = positionToKey q -> p = q.
Proof.
  intros H.
  pose proof (keyToPosition_positionToKey p) as Hp.
  rewrite H, keyToPosition_positionToKey in Hp. congruence.
Qed.

(** C10: decoding the key of a position gives the position back, hence
    [positionToKey] is injective: two different positions never share a
    map key. *)
Theorem C10_key_roundtrip :
  (forall p : Position, keyToPosition (positionToKey p) = Some p) /\
  (forall p q : Position, positionToKey p = positionToKey q -> p = q).
Proof.
  split; [apply keyToPosition_positionToKey | apply positionToKey_inj].
Qed.

Lemma C10_key_roundtrip_witness :
  keyToPosition (positionToKey (mkPosition 12 (-7))) = Some (mkPosition 12 (-7))
  /\ mkPosition 12 (-7) = mkPosition (5 + 7) (3 - 10).
Proof.
  split.
  - apply (proj1 C10_key_roundtrip).
  - apply (proj2 C10_key_roundtrip). reflexivity.
Defined.

(* ------------------------------------------------------------------ *)
(** *** Neighbour generation *)

Lemma abs_spec (n : Z) : abs n = Z.abs n.
Proof. unfold abs. destruct (Z.ltb_spec n 0); lia. Qed.

Lemma manhattanDistance_nonneg (a b : Position) : 0 <= manhattanDistance a b.
Proof. unfold manhattanDistance. rewrite !abs_spec. lia. Qed.

Lemma towardOrigin_sgn (c : Z) : towardOrigin c = - Z.sgn c.
Proof.
  unfold towardOrigin, abs. destruct c as [|p|p]; simpl; try reflexivity.
  - change (Z.quot (Z.neg p) (Z.pos p) = -1).
    replace (Z.neg p) with (- Z.pos p) by reflexivity.
    rewrite Z.quot_opp_l by discriminate.
    rewrite Z.quot_same by discriminate. reflexivity.
  - change (Z.quot (Z.pos p) (Z.pos p) = 1).
    apply Z.quot_same. discriminate.
Qed.

Lemma generatedMoves_explicit (p : Position) :
  generatedMoves p =
  [(1, 0); (-1, 0); (0, 1); (0, -1)]
  ++ (if (pos_x p =? 0) || (pos_y p =? 0) then []
      else [(- Z.sgn (pos_x p), - Z.sgn (pos_y p))]).
Proof.
  unfold generatedMoves, moves, skipMove. rewrite !towardOrigin_sgn.
  destruct (pos_x p), (pos_y p); reflexivity.
Qed.

(** C8: the four axis moves are always generated; a diagonal move is
    generated exactly when each of its components is the unit step from
    the coordinate toward 0, whatever the goal of the search (the
    function does not receive it); with a zero coordinate no diagonal
    is generated. *)
Theorem C8_neighbors (p : Position) :
  getNeighbors p =
    [ applyMove p (1, 0); applyMove p (-1, 0);
      applyMove p (0, 1); applyMove p (0, -1) ]
    ++ (if (pos_x p =? 0) || (pos_y p =? 0) then []
        else [applyMove p (- Z.sgn (pos_x p), - Z.sgn (pos_y p))])
  /\ (forall dx dy,
        In (dx, dy) (generatedMoves p) <->
        In (dx, dy) moves /\
        (dx = 0 \/ dy = 0 \/
         (dx = - Z.sgn (pos_x p) /\ dy = - Z.sgn (pos_y p))))
  /\ (forall dx dy,
        pos_x p = 0 \/ pos_y p = 0 ->
        In (dx, dy) (generatedMoves p) -> dx = 0 \/ dy = 0).
Proof.
  split; [|split].
  - unfold getNeighbors. rewrite generatedMoves_explicit.
    destruct ((pos_x p =? 0) || (pos_y p =? 0)); reflexivity.
  - intros dx dy. rewrite generatedMoves_explicit. unfold moves.
    destruct (pos_x p) as [|px|px], (pos_y p) as [|py|py]; simpl;
      (split;
       [ intros H; repeat (destruct H as [H|H]; [inversion H; subst; clear H|]);
         try contradiction; (split; [tauto | lia])
       | intros [H C];
         repeat (destruct H as [H|H]; [inversion H; subst; clear H|]);
         try contradiction; lia || tauto ]).
  - intros dx dy Hz. rewrite generatedMoves_explicit.
    assert (E : (pos_x p =? 0) || (pos_y p =? 0) = true).
    { apply orb_true_iff. destruct Hz as [H|H]; [left|right];
        now apply Z.eqb_eq. }
    rewrite E. simpl.
    intros H; repeat (destruct H as [H|H]; [inversion H; subst; clear H|]);
      try contradiction; lia.
Qed.

Lemma C8_neighbors_witness :
  getNeighbors (mkPosition 0 3) =
    [mkPosition 1 3; mkPosition (-1) 3; mkPosition 0 4; mkPosition 0 2]
  /\ (0 = 0 \/ -1 = 0).
Proof.
  split.
  - apply (proj1 (C8_neighbors (mkPosition 0 3))).
  - apply (proj2 (proj2 (C8_neighbors (mkPosition 0 3))) 0 (-1)).
    + left. reflexivity.
    + vm_compute. tauto.
Defined.

(* ------------------------------------------------------------------ *)
(** *** The conversion to a number *)

(** [Number] keeps every integer of magnitude at most 2^53. *)
Lemma Number_exact n : Z.abs n <= 2 ^ 53 -> Number n = n.
Proof.
  intros H. unfold Number.
  destruct (Z.leb_spec (Z.log2 (Z.abs n) - 52) 0) as [|He]; [reflexivity|].
  assert (Hm : Z.abs n = 2 ^ 53).
  { assert (0 < Z.abs n) by (destruct (Z.abs n) eqn:E; simpl in He; lia).
    assert (2 ^ 53 <= Z.abs n) by (apply Z.log2_le_pow2; lia).
    lia. }
  rewrite Hm. change (Z.log2 (2 ^ 53) - 52) with 1.
  change (2 ^ 53 mod 2 ^ 1) with 0. change (2 ^ (1 - 1)) with 1.
  change (2 ^ 53 / 2 ^ 1) with (2 ^ 52).
  cbn [Z.ltb Z.compare orb Z.eqb andb].
  change (2 ^ 52 * 2 ^ 1) with (2 ^ 53). rewrite <- Hm.
  rewrite Z.mul_comm. apply Z.abs_sgn.
Qed.

(** The shape of a converted integer: its sign, a significand and a
    power of two. *)
Lemma Number_kept n :
  exists q e,
    Number n = Z.sgn n * (q * 2 ^ e) /\ 0 <= e /\ (n <> 0 -> 0 < q).
Proof.
  unfold Number.
  destruct (Z.leb_spec (Z.log2 (Z.abs n) - 52) 0) as [|He].
  - exists (Z.abs n), 0. change (2 ^ 0) with 1. rewrite Z.mul_1_r.
    split; [rewrite Z.mul_comm; symmetry; apply Z.abs_sgn|].
    split; [reflexivity | intros Hn; now apply Z.abs_pos].
  - assert (0 < Z.abs n) by (destruct (Z.abs n) eqn:E; simpl in He; lia).
    set (e := Z.log2 (Z.abs n) - 52) in *.
    set (q := Z.abs n / 2 ^ e).
    assert (Hq : 0 < q).
    { unfold q. apply Z.div_str_pos.
      split; [apply Z.pow_pos_nonneg; lia|].
      apply Z.le_trans with (2 ^ Z.log2 (Z.abs n)).
      - apply Z.pow_le_mono_r; lia.
      - apply Z.log2_spec. assumption. }
    eexists _, e. split; [reflexivity|]. split; [lia|].
    intros _. destruct (_ || _); lia.
Qed.

Lemma Number_nonneg n : 0 <= n -> 0 <= Number n.
Proof.
  intros H. destruct (Number_kept n) as (q & e & -> & He & Hq).
  destruct (Z.eq_dec n 0) as [->|Hn]; [simpl; lia|].
  specialize (Hq Hn). assert (0 < 2 ^ e) by (apply Z.pow_pos_nonneg; lia).
  assert (Z.sgn n = 1) by (apply Z.sgn_pos; lia). nia.
Qed.

Lemma Number_zero n : Number n = 0 <-> n = 0.
Proof.
  split; [|intros ->; reflexivity].
  destruct (Number_kept n) as (q & e & -> & He & Hq). intros H.
  destruct (Z.eq_dec n 0) as [|Hn]; [assumption|].
  specialize (Hq Hn). assert (0 < 2 ^ e) by (apply Z.pow_pos_nonneg; lia).
  assert (Z.sgn n <> 0) by (rewrite Z.sgn_null_iff; exact Hn).
  nia.
Qed.

(** Beyond 2^53 the conversion rounds, a tie going to the even
    significand. *)
Lemma Number_rounds :
  Number (2 ^ 53 + 1) = 2 ^ 53 /\ Number (2 ^ 53 + 2) = 2 ^ 53 + 2
  /\ Number (2 ^ 53 + 3) = 2 ^ 53 + 4 /\ Number (- (2 ^ 53 + 1)) = - 2 ^ 53.
Proof. repeat split. Qed.

Lemma manhattanDistanceNumber_exact a b :
  manhattanDistance a b <= 2 ^ 53 ->
  manhattanDistanceNumber a b = manhattanDistance a b.
Proof.
  intros H. apply Number_exact.
  pose proof (manhattanDistance_nonneg a b). lia.
Qed.

Lemma manhattanDistance_within bound a b :
  PositionWithin bound a -> PositionWithin bound b ->
  0 <= manhattanDistance a b <= 4 * bound.
Proof.
  unfold PositionWithin, manhattanDistance. rewrite !abs_spec.
  intros [? ?] [? ?]. lia.
Qed.

Lemma origin_within bound : 0 <= bound -> PositionWithin bound origin.
Proof. intros H. split; simpl; lia. Qed.

(* ------------------------------------------------------------------ *)
(** *** The search loop: first turn, outcome *)

Lemma Position_eqb_eq (a b : Position) : Position_eqb a b = true <-> a = b.
Proof.
  unfold Position_eqb. rewrite andb_true_iff, !Z.eqb_eq.
  destruct a, b; simpl; split; [intros [-> ->]; reflexivity|].
  intros H; inversion H; auto.
Qed.

Lemma Position_eqb_refl (a : Position) : Position_eqb a a = true.
Proof. now apply Position_eqb_eq. Qed.

Lemma Position_eqb_neq (a b : Position) : a <> b -> Position_eqb a b = false.
Proof.
  intros H. destruct (Position_eqb a b) eqn:E; [|reflexivity].
  apply Position_eqb_eq in E. contradiction.
Qed.

(** Induction along the parent links. *)
Lemma PathNode_parent_ind (P : PathNode -> Prop) :
  (forall n, node_parent n = None -> P n) ->
  (forall n p, node_parent n = Some p -> P p -> P n) ->
  forall n, P n.
Proof.
  intros Hroot Hstep. fix IH 1.
  intros [pos g h f [p|] fuel].
  - apply Hstep with p; [reflexivity | apply IH].
  - apply Hroot. reflexivity.
Qed.

Lemma searchLoop_S gs goal cp remaining iterations st :
  searchLoop gs goal cp (S remaining) iterations st =
  match iteration gs goal cp st with
  | OpenSetEmpty => (failedPath, iterations)
  | GoalReached current => (reconstructPath gs current, iterations + 1)
  | Continue next => searchLoop gs goal cp remaining (iterations + 1) next
  end.
Proof. reflexivity. Qed.

Lemma iteration_start gs start goal fuel cp :
  iteration gs goal cp (startState start goal fuel) =
  if Position_eqb start goal then GoalReached (startNode start goal fuel)
  else Continue
         {| openSet :=
              fold_left
                (visitNeighbor gs goal cp [positionToKey start]
                               (startNode start goal fuel))
                (getNeighbors start) [];
            closedSet := [positionToKey start] |}.
Proof.
  unfold iteration, startState.
  cbn [openSet closedSet map_set lowestF fold_left snd node_position
       startNode map_delete set_add set_has existsb].
  rewrite String.eqb_refl. reflexivity.
Qed.

Lemma reconstructPath_root gs n :
  node_parent n = None ->
  reconstructPath gs n =
  {| path_nodes := [node_position n]; path_totalCost := Finite 0;
     path_fuelStops := []; path_success := true |}.
Proof.
  intros H. unfold reconstructPath. destruct n as [pos g h f parent fuel].
  simpl in H. subst parent. reflexivity.
Qed.

Lemma findPath_same gs start fuel cp :
  findPath gs start start fuel cp =
  {| path_nodes := [start]; path_totalCost := Finite 0;
     path_fuelStops := []; path_success := true |}.
Proof.
  unfold findPath, findPathRun, maxIterations.
  rewrite searchLoop_S, iteration_start, Position_eqb_refl.
  cbn [fst]. now rewrite reconstructPath_root.
Qed.

(** C4: a search from a position to itself succeeds with the one-node
    path and cost 0, for every fuel (the bound [0 <= fuel] of the
    statement is not needed by the code). *)
Theorem C4_same_start_goal (gs : GameState) (start : Position) (fuel : Z)
    (considerPellets : bool) :
  0 <= fuel ->
  path_success (findPath gs start start fuel considerPellets) = true /\
  path_nodes (findPath gs start start fuel considerPellets) = [start] /\
  path_totalCost (findPath gs start start fuel considerPellets) = Finite 0.
Proof. intros _. rewrite findPath_same. auto. Qed.

Lemma C4_same_start_goal_witness :
  path_success (findPath emptyWorld (mkPosition 7 (-3)) (mkPosition 7 (-3)) 0 true)
    = true /\
  path_nodes (findPath emptyWorld (mkPosition 7 (-3)) (mkPosition 7 (-3)) 0 true)
    = [mkPosition 7 (-3)] /\
  path_totalCost (findPath emptyWorld (mkPosition 7 (-3)) (mkPosition 7 (-3)) 0 true)
    = Finite 0.
Proof. apply C4_same_start_goal. lia. Defined.

Lemma visitNeighbor_no_fuel gs goal cp closed current open pos :
  node_fuel current - 1 < 0 ->
  visitNeighbor gs goal cp closed current open pos = open.
Proof.
  intros H. unfold visitNeighbor.
  destruct (set_has _ closed); [reflexivity|].
  apply Z.ltb_lt in H. now rewrite H.
Qed.

Lemma fold_visit_no_fuel gs goal cp closed current neighbors open :
  node_fuel current - 1 < 0 ->
  fold_left (visitNeighbor gs goal cp closed current) neighbors open = open.
Proof.
  intros H. revert open.
  induction neighbors as [|p ps IH]; intros open; simpl; [reflexivity|].
  now rewrite visitNeighbor_no_fuel, IH.
Qed.

Lemma findPathRun_no_fuel gs start goal cp :
  start <> goal ->
  findPathRun gs start goal 0 cp = (failedPath, 1).
Proof.
  intros Hne. unfold findPathRun, maxIterations.
  rewrite searchLoop_S, iteration_start, (Position_eqb_neq _ _ Hne).
  rewrite fold_visit_no_fuel by (simpl; lia).
  rewrite searchLoop_S. reflexivity.
Qed.

(** C5: with no fuel and a goal different from the start, the search
    fails: every neighbour is dropped on the fuel test, before any
    pellet is looked at. *)
Theorem C5_no_fuel_fails (gs : GameState) (start goal : Position)
    (considerPellets : bool) :
  start <> goal ->
  getPelletAt gs start = None ->
  path_success (findPath gs start goal 0 considerPellets) = false.
Proof.
  intros Hne _. unfold findPath.
  now rewrite findPathRun_no_fuel.
Qed.

Lemma C5_no_fuel_fails_witness :
  path_success
    (findPath (mkGameState (loadPellets [mkPellet (mkPosition 1 0) 4]) [])
              (mkPosition 2 0) origin 0 true) = false.
Proof.
  apply C5_no_fuel_fails; [discriminate | reflexivity].
Defined.

(* ------------------------------------------------------------------ *)
(** *** The search loop: selection, invariant, outcome *)

Lemma lowestF_fold (open : JsMap PathNode) :
  forall acc,
    match
      fold_left
        (fun current entry =>
           match current with
           | None => Some entry
           | Some (_, c) =>
               if node_f (snd entry) <? node_f c then Some entry else current
           end) open acc
    with
    | None => acc = None /\ open = []
    | Some best =>
        (acc = Some best \/ In best open) /\
        (forall e, In e open -> node_f (snd best) <= node_f (snd e)) /\
        (forall a, acc = Some a -> node_f (snd best) <= node_f (snd a))
    end.
Proof.
  induction open as [|e rest IH]; intros acc; simpl.
  - destruct acc as [best|]; [|auto].
    split; [auto|]. split; [intros ? []|].
    intros a [= ->]. lia.
  - match goal with |- context [fold_left ?f rest ?a] =>
      specialize (IH a); destruct (fold_left f rest a) as [best|] end.
    + destruct IH as (Hin & Hmin & Hacc).
      destruct acc as [[ka ca]|].
      * destruct (Z.ltb_spec (node_f (snd e)) (node_f ca)) as [Hlt|Hge].
        -- split; [|split].
           ++ destruct Hin as [[= <-]|Hin]; auto.
           ++ intros e' [<-|He']; [apply Hacc; reflexivity | auto].
           ++ intros a [= <-]. specialize (Hacc _ eq_refl). simpl. lia.
        -- split; [|split].
           ++ destruct Hin as [Hin|Hin]; auto.
           ++ intros e' [<-|He']; [|auto].
              specialize (Hacc _ eq_refl). simpl in Hacc. lia.
           ++ intros a [= <-]. apply (Hacc _ eq_refl).
      * split; [|split].
        -- destruct Hin as [[= <-]|Hin]; auto.
        -- intros e' [<-|He']; [apply Hacc; reflexivity | auto].
        -- intros a [=].
    + destruct IH as [Hacc _].
      destruct acc as [[ka ca]|]; [|discriminate].
      destruct (node_f (snd e) <? node_f ca); discriminate.
Qed.

Lemma lowestF_None open : lowestF open = None -> open = [].
Proof.
  unfold lowestF. intros H. pose proof (lowestF_fold open None) as L.
  rewrite H in L. tauto.
Qed.

Lemma lowestF_Some open k c :
  lowestF open = Some (k, c) ->
  In (k, c) open /\ (forall e, In e open -> node_f c <= node_f (snd e)).
Proof.
  unfold lowestF. intros H. pose proof (lowestF_fold open None) as L.
  rewrite H in L. destruct L as ([[=]|Hin] & Hmin & _). auto.
Qed.

Lemma iteration_GoalReached gs goal cp st c :
  iteration gs goal cp st = GoalReached c ->
  exists k, lowestF (openSet st) = Some (k, c) /\ node_position c = goal.
Proof.
  unfold iteration. destruct (lowestF (openSet st)) as [[k c']|]; [|discriminate].
  destruct (Position_eqb (node_position c') goal) eqn:E; [|discriminate].
  intros [= <-]. exists k. split; [reflexivity|]. now apply Position_eqb_eq.
Qed.

Lemma iteration_OpenSetEmpty gs goal cp st :
  iteration gs goal cp st = OpenSetEmpty -> openSet st = [].
Proof.
  unfold iteration. destruct (lowestF (openSet st)) as [[k c']|] eqn:E.
  - destruct (Position_eqb (node_position c') goal); discriminate.
  - intros _. now apply lowestF_None.
Qed.

Lemma searchLoop_outcome gs goal cp :
  forall remaining iterations st,
  exists (n : nat) (st' : SearchState),
    (n <= remaining)%nat /\
    afterIterations gs goal cp n st = Some st' /\
    ( (exists k c,
         (n < remaining)%nat /\
         lowestF (openSet st') = Some (k, c) /\
         node_position c = goal /\
         searchLoop gs goal cp remaining iterations st
         = (reconstructPath gs c, iterations + Z.of_nat n + 1))
      \/ (openSet st' = [] /\
          searchLoop gs goal cp remaining iterations st
          = (failedPath, iterations + Z.of_nat n))
      \/ (n = remaining /\
          searchLoop gs goal cp remaining iterations st
          = (failedPath, iterations + Z.of_nat n)) ).
Proof.
  induction remaining as [|r IH]; intros it st.
  - exists 0%nat, st. split; [lia|]. split; [reflexivity|].
    right; right. split; [reflexivity|]. simpl. f_equal. lia.
  - rewrite searchLoop_S.
    destruct (iteration gs goal cp st) as [c| |next] eqn:E.
    + exists 0%nat, st. split; [lia|]. split; [reflexivity|].
      left. apply iteration_GoalReached in E as (k & Hk & Hg).
      exists k, c. repeat split; auto; try lia. f_equal. simpl. lia.
    + exists 0%nat, st. split; [lia|]. split; [reflexivity|].
      right; left. split; [now apply iteration_OpenSetEmpty in E|].
      f_equal. simpl. lia.
    + destruct (IH (it + 1) next) as (n & st' & Hn & Ha & Hc).
      exists (S n), st'. split; [lia|]. split; [simpl; now rewrite E|].
      replace (it + Z.of_nat (S n)) with (it + 1 + Z.of_nat n) by lia.
      destruct Hc as [(k & c & Hlt & Hl & Hg & Hr)|[(Ho & Hr)|(Hm & Hr)]].
      * left. exists k, c. repeat split; auto. lia.
      * right; left. auto.
      * right; right. split; [lia | auto].
Qed.

Lemma reconstructPath_success gs c : path_success (reconstructPath gs c) = true.
Proof.
  unfold reconstructPath.
  destruct (reconstructLoop gs c [] [] 0) as [[? ?] ?]. reflexivity.
Qed.

Lemma searchLoop_after gs goal cp :
  forall (n remaining : nat) it st st',
    afterIterations gs goal cp n st = Some st' ->
    (n <= remaining)%nat ->
    searchLoop gs goal cp remaining it st
    = searchLoop gs goal cp (remaining - n) (it + Z.of_nat n) st'.
Proof.
  induction n as [|n IH]; intros remaining it st st' Ha Hle.
  - injection Ha as <-. rewrite Nat.sub_0_r, Z.add_0_r. reflexivity.
  - destruct remaining as [|remaining]; [lia|].
    cbn [afterIterations] in Ha. cbn [searchLoop].
    destruct (iteration gs goal cp st) as [| |next]; try discriminate.
    rewrite (IH remaining (it + 1) next st' Ha) by lia.
    cbn [Nat.sub]. f_equal. lia.
Qed.

Lemma iteration_at_goal gs goal cp st k current :
  lowestF (openSet st) = Some (k, current) ->
  node_position current = goal ->
  iteration gs goal cp st = GoalReached current.
Proof.
  intros Hl Hg. unfold iteration. rewrite Hl, Hg, Position_eqb_refl.
  reflexivity.
Qed.

Lemma iteration_empty gs goal cp st :
  openSet st = [] -> iteration gs goal cp st = OpenSetEmpty.
Proof. intros H. unfold iteration. rewrite H. reflexivity. Qed.

(** C7: [findPath] always returns, after at most 1000 turns of its
    loop.  Either some turn selects, as the entry of lowest [f] of the
    open set, a node at the goal, and the result is the successful path
    rebuilt from that node; or the open set is found empty; or 1000
    turns have been made; in the last two cases, and so on every
    failure, the result is the failed path: no nodes, infinite cost, no
    fuel stops, [success = false].  Each exit is also taken whenever
    its condition is met: if after [n < 1000] full turns the entry of
    lowest [f] sits at the goal, the search succeeds on turn [n + 1]
    with the path rebuilt from it; if after [n] full turns the open set
    is empty, the search fails with [n] turns counted; and if 1000 full
    turns are made, it fails. *)
Theorem C7_findPath_terminates (gs : GameState) (start goal : Position)
    (fuel : Z) (considerPellets : bool) :
  (exists (n : nat) (st : SearchState),
     (n <= 1000)%nat /\
     afterIterations gs goal considerPellets n (startState start goal fuel)
       = Some st /\
     ( (exists k current,
          (n < 1000)%nat /\
          lowestF (openSet st) = Some (k, current) /\
          (forall e, In e (openSet st) -> node_f current <= node_f (snd e)) /\
          node_position current = goal /\
          findPathRun gs start goal fuel considerPellets
          = (reconstructPath gs current, Z.of_nat n + 1) /\
          path_success (findPath gs start goal fuel considerPellets) = true)
       \/ (openSet st = [] /\
           findPathRun gs start goal fuel considerPellets
           = (failedPath, Z.of_nat n))
       \/ (n = 1000%nat /\
           findPathRun gs start goal fuel considerPellets
           = (failedPath, 1000)) ))
  /\ (path_success (findPath gs start goal fuel considerPellets) = false ->
      path_nodes (findPath gs start goal fuel considerPellets) = [] /\
      path_totalCost (findPath gs start goal fuel considerPellets) = Infinity /\
      path_fuelStops (findPath gs start goal fuel considerPellets) = [])
  /\ (forall (n : nat) (st : SearchState) k current,
        (n < 1000)%nat ->
        afterIterations gs goal considerPellets n (startState start goal fuel)
          = Some st ->
        lowestF (openSet st) = Some (k, current) ->
        node_position current = goal ->
        findPathRun gs start goal fuel considerPellets
        = (reconstructPath gs current, Z.of_nat n + 1) /\
        path_success (findPath gs start goal fuel considerPellets) = true)
  /\ (forall (n : nat) (st : SearchState),
        (n <= 1000)%nat ->
        afterIterations gs goal considerPellets n (startState start goal fuel)
          = Some st ->
        openSet st = [] ->
        findPathRun gs start goal fuel considerPellets
        = (failedPath, Z.of_nat n))
  /\ (forall st : SearchState,
        afterIterations gs goal considerPellets 1000
          (startState start goal fuel) = Some st ->
        findPathRun gs start goal fuel considerPellets = (failedPath, 1000)).
Proof.
  split; [|split; [|split; [|split]]].
  - unfold findPath, findPathRun.
    destruct (searchLoop_outcome gs goal considerPellets maxIterations 0
                (startState start goal fuel)) as (n & st & Hn & Ha & Hc).
    change maxIterations with 1000%nat in *.
    exists n, st. split; [exact Hn|]. split; [exact Ha|].
    destruct Hc as [(k & c & Hlt & Hl & Hg & Hr)|[(Ho & Hr)|(Hm & Hr)]].
    + left. exists k, c.
      split; [exact Hlt|]. split; [exact Hl|].
      split; [exact (proj2 (lowestF_Some _ _ _ Hl))|]. split; [exact Hg|].
      rewrite Hr. split; [reflexivity|]. apply reconstructPath_success.
    + right; left. auto.
    + right; right. split; [exact Hm|]. rewrite Hr, Hm. reflexivity.
  - unfold findPath, findPathRun.
    destruct (searchLoop_outcome gs goal considerPellets maxIterations 0
                (startState start goal fuel)) as (n & st & Hn & Ha & Hc).
    destruct Hc as [(k & c & Hlt & Hl & Hg & Hr)|[(Ho & Hr)|(Hm & Hr)]];
      rewrite Hr; cbn [fst].
    + rewrite reconstructPath_success. discriminate.
    + auto.
    + auto.
  - intros n st k current Hn Ha Hl Hg.
    assert (Hrun : findPathRun gs start goal fuel considerPellets
                   = (reconstructPath gs current, Z.of_nat n + 1)).
    { unfold findPathRun. change maxIterations with 1000%nat.
      rewrite (searchLoop_after _ _ _ n 1000 0 _ st Ha) by lia.
      destruct (1000 - n)%nat as [|r] eqn:E; [lia|].
      cbn [searchLoop].
      rewrite (iteration_at_goal _ _ _ _ _ _ Hl Hg). reflexivity. }
    split; [exact Hrun|].
    unfold findPath. rewrite Hrun. apply reconstructPath_success.
  - intros n st Hn Ha Ho.
    unfold findPathRun. change maxIterations with 1000%nat.
    rewrite (searchLoop_after _ _ _ n 1000 0 _ st Ha) by lia.
    destruct (1000 - n)%nat as [|r]; cbn [searchLoop]; [reflexivity|].
    rewrite (iteration_empty _ _ _ _ Ho). reflexivity.
  - intros st Ha.
    unfold findPathRun. change maxIterations with 1000%nat.
    rewrite (searchLoop_after _ _ _ 1000 1000 0 _ st Ha) by lia.
    rewrite Nat.sub_diag. reflexivity.
Qed.

Lemma C7_findPath_terminates_witness :
  (path_nodes (findPath emptyWorld (mkPosition 50 0) origin 5 true) = [] /\
   path_totalCost (findPath emptyWorld (mkPosition 50 0) origin 5 true)
     = Infinity /\
   path_fuelStops (findPath emptyWorld (mkPosition 50 0) origin 5 true) = [])
  /\ path_success (findPath emptyWorld (mkPosition 1 0) origin 5 true) = true.
Proof.
  split.
  - apply (proj1 (proj2 (C7_findPath_terminates emptyWorld (mkPosition 50 0)
                           origin 5 true))).
    vm_compute. reflexivity.
  - eapply (proj1 (proj2 (proj2 (C7_findPath_terminates emptyWorld
                                   (mkPosition 1 0) origin 5 true)))
              1%nat).
    + lia.
    + vm_compute. reflexivity.
    + vm_compute. reflexivity.
    + reflexivity.
Defined.

(* ------------------------------------------------------------------ *)
(** *** Every node of the open set is a chain from the start node *)

Lemma Forall_map_set {V} (P : string * V -> Prop) k v (m : JsMap V) :
  Forall P m -> P (k, v) -> Forall P (map_set k v m).
Proof.
  intros Hm Hv. induction Hm as [|[k' v'] rest Hh Ht IH]; simpl.
  - constructor; [exact Hv | constructor].
  - destruct (String.eqb k k'); constructor; auto.
Qed.

Lemma Forall_map_delete {V} (P : string * V -> Prop) k (m : JsMap V) :
  Forall P m -> Forall P (map_delete k m).
Proof.
  intros Hm. induction Hm as [|[k' v'] rest Hh Ht IH]; simpl.
  - constructor.
  - destruct (String.eqb k k'); [exact Ht | constructor; auto].
Qed.

Section ChainInvariant.
Variables (gs : GameState) (goal : Position) (cp : bool).
Variables (start : Position) (fuel0 : Z).

Lemma visitNeighbor_chained closed current open pos :
  Chain gs cp start fuel0 current ->
  ChainedOpenSet gs cp start fuel0 open ->
  ChainedOpenSet gs cp start fuel0
    (visitNeighbor gs goal cp closed current open pos).
Proof.
  intros Hc Ho. unfold visitNeighbor.
  destruct (set_has _ closed); [exact Ho|].
  destruct (Z.ltb_spec (node_fuel current - 1) 0) as [|Hfuel]; [exact Ho|].
  match goal with |- context [if ?b then open else _] => destruct b end;
    [exact Ho|].
  match goal with |- context [map_set _ ?n open] =>
    assert (Hn : Chain gs cp start fuel0 n)
      by (apply Chain_step with current; auto; reflexivity) end.
  destruct (map_get _ open) as [existing|].
  - destruct (_ >=? _); [exact Ho|]. now apply Forall_map_set.
  - now apply Forall_map_set.
Qed.

Lemma fold_visit_chained closed current neighbors :
  Chain gs cp start fuel0 current ->
  forall open, ChainedOpenSet gs cp start fuel0 open ->
  ChainedOpenSet gs cp start fuel0
    (fold_left (visitNeighbor gs goal cp closed current) neighbors open).
Proof.
  intros Hc. induction neighbors as [|p ps IH]; intros open Ho; simpl.
  - exact Ho.
  - apply IH. now apply visitNeighbor_chained.
Qed.

Lemma iteration_chained st next :
  ChainedOpenSet gs cp start fuel0 (openSet st) ->
  iteration gs goal cp st = Continue next ->
  ChainedOpenSet gs cp start fuel0 (openSet next).
Proof.
  intros Ho. unfold iteration.
  destruct (lowestF (openSet st)) as [[k c]|] eqn:E; [|discriminate].
  destruct (Position_eqb (node_position c) goal); [discriminate|].
  intros [= <-]. cbn [openSet].
  apply lowestF_Some in E as [Hin _].
  assert (Hc : Chain gs cp start fuel0 c).
  { unfold ChainedOpenSet in Ho. rewrite Forall_forall in Ho.
    apply (Ho _ Hin). }
  exact (fold_visit_chained _ c (getNeighbors (node_position c)) Hc _
           (Forall_map_delete _ k _ Ho)).
Qed.

Lemma afterIterations_chained n :
  forall st st',
  ChainedOpenSet gs cp start fuel0 (openSet st) ->
  afterIterations gs goal cp n st = Some st' ->
  ChainedOpenSet gs cp start fuel0 (openSet st').
Proof.
  induction n as [|n IH]; intros st st' Ho; simpl.
  - now intros [= <-].
  - destruct (iteration gs goal cp st) as [| |next] eqn:E; try discriminate.
    apply IH. now apply iteration_chained with st.
Qed.

Lemma startState_chained :
  ChainedOpenSet gs cp start fuel0 (openSet (startState start goal fuel0)).
Proof.
  unfold startState. cbn [openSet map_set].
  constructor; [|constructor]. now apply Chain_root.
Qed.

(** A successful search returns the path rebuilt from a chained node
    that sits at the goal. *)
Lemma findPath_success_chain :
  path_success (findPath gs start goal fuel0 cp) = true ->
  exists c,
    Chain gs cp start fuel0 c /\ node_position c = goal /\
    findPath gs start goal fuel0 cp = reconstructPath gs c.
Proof.
  unfold findPath, findPathRun.
  destruct (searchLoop_outcome gs goal cp maxIterations 0
              (startState start goal fuel0)) as (n & st & Hn & Ha & Hc).
  destruct Hc as [(k & c & Hlt & Hl & Hg & Hr)|[(Ho & Hr)|(Hm & Hr)]];
    rewrite Hr; cbn [fst]; try discriminate.
  intros _. exists c. split; [|auto].
  pose proof (afterIterations_chained _ _ _ startState_chained Ha) as Hall.
  apply lowestF_Some in Hl as [Hin _].
  unfold ChainedOpenSet in Hall. rewrite Forall_forall in Hall.
  apply (Hall _ Hin).
Qed.
End ChainInvariant.

(* ------------------------------------------------------------------ *)
(** *** The rebuilt path *)

Lemma chainPositions_parent n p :
  node_parent n = Some p ->
  chainPositions n = chainPositions p ++ [node_position n].
Proof. destruct n; simpl. now intros ->. Qed.

Lemma chainPositions_root n :
  node_parent n = None -> chainPositions n = [node_position n].
Proof. destruct n; simpl. now intros ->. Qed.

Lemma chainPositions_length n : (1 <= List.length (chainPositions n))%nat.
Proof.
  induction n as [n Hn|n p Hn IH] using PathNode_parent_ind.
  - rewrite chainPositions_root by assumption. simpl. lia.
  - rewrite (chainPositions_parent _ _ Hn), length_app. simpl. lia.
Qed.

Lemma reconstructLoop_spec gs n :
  forall nodes stops cost,
  exists stops',
    reconstructLoop gs n nodes stops cost =
    (chainPositions n ++ nodes, stops',
     cost + Z.of_nat (List.length (chainPositions n)) - 1).
Proof.
  induction n as [n Hn|n p Hn IH] using PathNode_parent_ind;
    intros nodes stops cost.
  - exists stops. rewrite chainPositions_root by assumption.
    destruct n; simpl in *; subst. simpl. repeat f_equal. lia.
  - rewrite (chainPositions_parent _ _ Hn), length_app.
    destruct n as [pos g h f parent fuel]; simpl in Hn; subst parent.
    cbn [reconstructLoop node_parent node_position].
    match goal with |- context [reconstructLoop gs p ?a ?b ?c] =>
      destruct (IH a b c) as [stops' ->] end.
    exists stops'. rewrite <- app_assoc. cbn [app].
    f_equal. rewrite Nat2Z.inj_add. simpl. lia.
Qed.

Lemma reconstructPath_nodes gs n :
  path_nodes (reconstructPath gs n) = chainPositions n /\
  path_totalCost (reconstructPath gs n)
  = Finite (Z.of_nat (List.length (chainPositions n)) - 1).
Proof.
  unfold reconstructPath.
  destruct (reconstructLoop_spec gs n [] [] 0) as [stops' ->].
  cbn [path_nodes path_totalCost]. rewrite app_nil_r. split; [reflexivity|].
  f_equal.
Qed.

Lemma findPath_CostCountsSteps gs start goal fuel cp :
  CostCountsSteps (findPath gs start goal fuel cp).
Proof.
  intros Hs. apply findPath_success_chain in Hs as (c & _ & _ & ->).
  destruct (reconstructPath_nodes gs c) as [-> ->]. split; [|reflexivity].
  pose proof (chainPositions_length c). destruct (chainPositions c);
    [simpl in *; lia | discriminate].
Qed.

Lemma removelast_length_Z {A} (l : list A) :
  l <> [] ->
  Z.of_nat (List.length (removelast l)) = Z.of_nat (List.length l) - 1.
Proof.
  intros H. destruct (exists_last H) as (l' & a & ->).
  rewrite removelast_last, length_app. simpl. lia.
Qed.

Lemma tryWaypoint_CostCountsSteps gs start goal fuel best pellet :
  CostCountsSteps (fst best) ->
  CostCountsSteps (fst (tryWaypoint gs start goal fuel best pellet)).
Proof.
  intros Hb. unfold tryWaypoint.
  destruct (path_success (findPath gs start (pellet_position pellet) fuel false))
    eqn:S1; cbn [negb]; [|exact Hb].
  destruct (findPath_CostCountsSteps _ _ _ _ _ S1) as [N1 C1].
  rewrite C1.
  match goal with |- context [findPath gs (pellet_position pellet) goal ?f true] =>
    set (leg2 := findPath gs (pellet_position pellet) goal f true) end.
  destruct (path_success leg2) eqn:S2; cbn [negb]; [|exact Hb].
  destruct (findPath_CostCountsSteps _ _ _ _ _ S2) as [N2 C2].
  fold leg2 in C2, N2. rewrite C2. cbn [Cost_add].
  destruct (Cost_ltb _ (snd best)); [|exact Hb].
  cbn [fst]. intros _. cbn [path_nodes path_totalCost]. split.
  - destruct (path_nodes leg2); [congruence|].
    intros E. apply app_eq_nil in E as [_ E]. discriminate.
  - f_equal. rewrite length_app, Nat2Z.inj_add, removelast_length_Z by exact N1.
    lia.
Qed.

Lemma findPathWithRefueling_CostCountsSteps gs start goal fuel :
  CostCountsSteps (findPathWithRefueling gs start goal fuel).
Proof.
  unfold findPathWithRefueling.
  destruct (path_success (findPath gs start goal fuel true)) eqn:S0.
  - apply findPath_CostCountsSteps.
  - match goal with |- context [filter ?f ?l] => generalize (filter f l) end.
    intros reachable.
    assert (H : forall l best, CostCountsSteps (fst best) ->
              CostCountsSteps
                (fst (fold_left (tryWaypoint gs start goal fuel) l best))).
    { induction l as [|p l IH]; intros best Hb; simpl; [exact Hb|].
      apply IH. now apply tryWaypoint_CostCountsSteps. }
    destruct reachable as [|p l].
    + apply findPath_CostCountsSteps.
    + apply H. cbn [fst]. apply findPath_CostCountsSteps.
Qed.

(** C6: the cost of a successful path, from [findPath] or from
    [findPathWithRefueling] (two legs glued at the pellet included), is
    its number of nodes minus one. *)
Theorem C6_cost_counts_steps (gs : GameState) (start goal : Position)
    (fuel : Z) (considerPellets : bool) :
  (path_success (findPath gs start goal fuel considerPellets) = true ->
   path_totalCost (findPath gs start goal fuel considerPellets)
   = Finite
       (Z.of_nat
          (List.length
             (path_nodes (findPath gs start goal fuel considerPellets))) - 1))
  /\
  (path_success (findPathWithRefueling gs start goal fuel) = true ->
   path_totalCost (findPathWithRefueling gs start goal fuel)
   = Finite
       (Z.of_nat
          (List.length
             (path_nodes (findPathWithRefueling gs start goal fuel))) - 1)).
Proof.
  split; intros H.
  - now apply findPath_CostCountsSteps.
  - now apply findPathWithRefueling_CostCountsSteps.
Qed.

Lemma C6_cost_counts_steps_witness :
  path_totalCost (findPath twoPellets (mkPosition 4 0) origin 5 true)
  = Finite
      (Z.of_nat
         (List.length
            (path_nodes (findPath twoPellets (mkPosition 4 0) origin 5 true)))
       - 1)
  /\
  path_totalCost (findPathWithRefueling twoPellets (mkPosition 10 0) origin 3)
  = Finite
      (Z.of_nat
         (List.length
            (path_nodes
               (findPathWithRefueling twoPellets (mkPosition 10 0) origin 3)))
       - 1).
Proof.
  split.
  - apply (proj1 (C6_cost_counts_steps twoPellets (mkPosition 4 0) origin 5 true)).
    vm_compute. reflexivity.
  - apply (proj2 (C6_cost_counts_steps twoPellets (mkPosition 10 0) origin 3 true)).
    vm_compute. reflexivity.
Defined.

(* ------------------------------------------------------------------ *)
(** *** The pellet map *)

Lemma map_get_In {V} k (m : JsMap V) v :
  map_get k m = Some v -> In (k, v) m.
Proof.
  induction m as [|[k' v'] rest IH]; simpl; [discriminate|].
  destruct (String.eqb_spec k k') as [->|_].
  - intros [= ->]. now left.
  - intros H. right. auto.
Qed.

Lemma map_get_NoDup {V} k (m : JsMap V) v :
  NoDup (map_keys m) -> In (k, v) m -> map_get k m = Some v.
Proof.
  induction m as [|[k' v'] rest IH]; simpl; [intros _ []|].
  intros Hnd [[= -> ->]|Hin].
  - now rewrite String.eqb_refl.
  - inversion Hnd as [|? ? Hnotin Hnd']; subst.
    destruct (String.eqb_spec k k') as [->|_].
    + exfalso. apply Hnotin. unfold map_keys.
      change k' with (fst (k', v)). now apply in_map.
    + auto.
Qed.

Lemma map_set_keys {V} k v (m : JsMap V) :
  map_keys (map_set k v m) =
  if existsb (String.eqb k) (map_keys m) then map_keys m else map_keys m ++ [k].
Proof.
  unfold map_keys.
  induction m as [|[k' v'] rest IH]; simpl; [reflexivity|].
  destruct (String.eqb_spec k k') as [->|Hne]; simpl; [reflexivity|].
  rewrite IH. destruct (existsb _ _); reflexivity.
Qed.

Lemma NoDup_map_set {V} k v (m : JsMap V) :
  NoDup (map_keys m) -> NoDup (map_keys (map_set k v m)).
Proof.
  intros H. rewrite map_set_keys.
  destruct (existsb (String.eqb k) (map_keys m)) eqn:E; [exact H|].
  apply NoDup_app; [exact H | repeat constructor; intros [] |].
  intros a Ha [->|[]].
  assert (X : existsb (String.eqb a) (map_keys m) = true).
  { apply existsb_exists. exists a. split; [exact Ha | apply String.eqb_refl]. }
  congruence.
Qed.

Lemma loadPellets_keyed (ps : list Pellet) ships0 :
  PelletsKeyed {| pellets := loadPellets ps; ships := ships0 |}.
Proof.
  unfold PelletsKeyed, loadPellets. cbn [pellets].
  assert (H : forall l (m : JsMap Pellet),
            Forall (fun e => fst e = positionToKey (pellet_position (snd e))) m
            /\ NoDup (map_keys m) ->
            let m' := fold_left
                        (fun m p => map_set (positionToKey (pellet_position p)) p m)
                        l m in
            Forall (fun e => fst e = positionToKey (pellet_position (snd e))) m'
            /\ NoDup (map_keys m')).
  { induction l as [|p l IH]; intros m [Hk Hn]; simpl; [auto|].
    apply IH. split; [now apply Forall_map_set | now apply NoDup_map_set]. }
  apply (H ps []). split; constructor.
Qed.

Lemma getPelletAt_stored gs pellet :
  PelletsKeyed gs ->
  In pellet (getAllPellets gs) ->
  getPelletAt gs (pellet_position pellet) = Some pellet.
Proof.
  intros [Hk Hn] Hin. unfold getAllPellets, map_values in Hin.
  apply in_map_iff in Hin as ([k p] & E & Hin). simpl in E. subst p.
  rewrite Forall_forall in Hk. specialize (Hk _ Hin). simpl in Hk. subst k.
  unfold getPelletAt. now apply map_get_NoDup.
Qed.

Lemma getPelletAt_listed gs pos pellet :
  getPelletAt gs pos = Some pellet -> In pellet (getAllPellets gs).
Proof.
  unfold getPelletAt, getAllPellets, map_values. intros H.
  apply map_get_In in H. change pellet with (snd (positionToKey pos, pellet)).
  now apply in_map.
Qed.

(* ------------------------------------------------------------------ *)
(** *** Replaying a chain *)



Lemma tl_app_nonempty {A} (l1 l2 : list A) :
  (1 <= List.length l1)%nat -> tl (l1 ++ l2) = tl l1 ++ l2.
Proof. destruct l1; simpl; [lia | reflexivity]. Qed.

Lemma tl_chainPositions_parent n p :
  node_parent n = Some p ->
  tl (chainPositions n) = tl (chainPositions p) ++ [node_position n].
Proof.
  intros H. rewrite (chainPositions_parent _ _ H).
  apply tl_app_nonempty, chainPositions_length.
Qed.

Lemma tl_chainPositions_root n :
  node_parent n = None -> tl (chainPositions n) = [].
Proof. intros H. now rewrite (chainPositions_root _ H). Qed.



Lemma refuelAt_capped gs pos a :
  a <= maxShipFuel GAME_CONFIG -> refuelAt gs pos a <= maxShipFuel GAME_CONFIG.
Proof. unfold refuelAt. destruct (getPelletAt gs pos); lia. Qed.

Lemma refuelAt_gains gs pos a :
  PelletsNonNegative gs ->
  a <= maxShipFuel GAME_CONFIG -> a <= refuelAt gs pos a.
Proof.
  intros Hnn Ha. unfold refuelAt.
  destruct (getPelletAt gs pos) as [pellet|] eqn:E; [|lia].
  apply getPelletAt_listed in E. unfold PelletsNonNegative in Hnn.
  rewrite Forall_forall in Hnn. specialize (Hnn _ E). simpl in Hnn. lia.
Qed.


Lemma Chain_fuel_no_pellets gs start fuel0 n :
  Chain gs false start fuel0 n ->
  node_fuel n = fuel0 - (Z.of_nat (List.length (chainPositions n)) - 1).
Proof.
  induction 1 as [n Hp Hs Hf|n p Hp Hc IH Hge Hf].
  - rewrite chainPositions_root by assumption. simpl. lia.
  - rewrite (chainPositions_parent _ _ Hp), length_app, Hf, IH. simpl. lia.
Qed.




(* ------------------------------------------------------------------ *)
(** *** Replaying the two-leg path *)




Lemma twoPellets_nonnegative : PelletsNonNegative twoPellets.
Proof.
  unfold PelletsNonNegative.
  repeat (apply Forall_cons; [cbn; lia|]). apply Forall_nil.
Defined.



(** A search without pellets from a tank filled above its capacity is
    rejected as well: the replay clamps the fuel at the pellet it
    passes. *)
Lemma overfull_tank_replay_fails :
  path_success (findPath pelletOnTheWay (mkPosition 7 0) origin 7 false) = true
  /\
  simulatePath pelletOnTheWay
    (path_nodes (findPath pelletOnTheWay (mkPosition 7 0) origin 7 false)) 7
  = false.
Proof. vm_compute. split; reflexivity. Qed.

(* ------------------------------------------------------------------ *)
(** *** Sorting *)

Section SortFacts.
Context {A : Type} (before : A -> A -> bool).

Lemma In_sort_insert a x (l : list A) :
  In x (sort_insert before a l) <-> x = a \/ In x l.
Proof.
  induction l as [|b rest IH]; simpl; [intuition|].
  destruct (before b a); simpl; [rewrite IH|]; intuition.
Qed.

Lemma In_js_sort x (l : list A) : In x (js_sort before l) <-> In x l.
Proof.
  induction l as [|a rest IH]; simpl; [reflexivity|].
  rewrite In_sort_insert, IH. intuition.
Qed.

Lemma js_sort_nil (l : list A) : js_sort before l = [] -> l = [].
Proof.
  destruct l as [|a rest]; [reflexivity|]. intros H. exfalso.
  assert (X : In a (js_sort before (a :: rest)))
    by (apply In_js_sort; now left).
  rewrite H in X. exact X.
Qed.
End SortFacts.

Lemma Qltb_lt (a b : Q) : Qltb a b = true <-> (a < b)%Q.
Proof.
  unfold Qltb. rewrite negb_true_iff. split.
  - intros H. apply Qnot_le_lt. intros L. apply Qle_bool_iff in L. congruence.
  - intros H. destruct (Qle_bool b a) eqn:E; [|reflexivity].
    apply Qle_bool_iff in E. exfalso. now apply (Qlt_not_le _ _ H).
Qed.

(** Sorting by decreasing score puts a highest score first. *)
Lemma js_sort_head_highest {A} (score : A -> Q) (l : list A) :
  forall h t,
  js_sort (fun a b => Qltb (score b - score a) 0) l = h :: t ->
  forall x, In x l -> (score x <= score h)%Q.
Proof.
  induction l as [|a rest IH]; intros h t Hs x Hx; [destruct Hx|].
  simpl in Hs.
  destruct (js_sort (fun a b => Qltb (score b - score a) 0) rest)
    as [|h' t'] eqn:E.
  - apply js_sort_nil in E. subst rest. simpl in Hs.
    injection Hs as <- _. destruct Hx as [->|[]]. apply Qle_refl.
  - simpl in Hs.
    destruct (Qltb (score a - score h') 0) eqn:B.
    + injection Hs as <- _. apply Qltb_lt in B.
      destruct Hx as [<-|Hx]; [|now apply (IH h' t')].
      apply Qlt_le_weak. apply Qlt_minus_iff in B.
      apply Qlt_minus_iff. setoid_replace (score h' + - score a)%Q
        with (0 + - (score a - score h'))%Q by ring. exact B.
    + injection Hs as <- _.
      assert (Hh : (score h' <= score a)%Q).
      { apply Qnot_lt_le. intros L. apply not_true_iff_false in B. apply B.
        apply Qltb_lt. apply Qlt_minus_iff in L. apply Qlt_minus_iff.
        setoid_replace (0 + - (score a - score h'))%Q
          with (score h' + - score a)%Q by ring. exact L. }
      destruct Hx as [<-|Hx]; [apply Qle_refl|].
      apply Qle_trans with (score h'); [now apply (IH h' t') | exact Hh].
Qed.

(* ------------------------------------------------------------------ *)
(** *** Reachable pellets *)

Lemma In_getPelletsWithinDistance gs position maxDistance pellet :
  In pellet (getPelletsWithinDistance gs position maxDistance) <->
  In pellet (getAllPellets gs) /\
  manhattanDistance position (pellet_position pellet) <= maxDistance.
Proof.
  unfold getPelletsWithinDistance, getAllPellets.
  rewrite In_js_sort, filter_In, Z.leb_le. reflexivity.
Qed.

Lemma getPelletsWithinDistance_nil gs position maxDistance :
  getPelletsWithinDistance gs position maxDistance = [] <->
  (forall pellet, In pellet (getAllPellets gs) ->
                  maxDistance < manhattanDistance position (pellet_position pellet)).
Proof.
  split.
  - intros H pellet Hin.
    destruct (Z.lt_ge_cases maxDistance
                (manhattanDistance position (pellet_position pellet)))
      as [|Hle]; [assumption|].
    assert (X : In pellet (getPelletsWithinDistance gs position maxDistance))
      by (apply In_getPelletsWithinDistance; auto).
    rewrite H in X. destruct X.
  - intros H.
    destruct (getPelletsWithinDistance gs position maxDistance) as [|p l] eqn:E;
      [reflexivity|].
    assert (X : In p (getPelletsWithinDistance gs position maxDistance))
      by (rewrite E; now left).
    apply In_getPelletsWithinDistance in X as [Hin Hle].
    specialize (H _ Hin). lia.
Qed.

Lemma length_zero_nil {A} (l : list A) :
  Nat.eqb (List.length l) 0 = true <-> l = [].
Proof. destruct l; simpl; split; congruence. Qed.

(* ------------------------------------------------------------------ *)
(** *** The refuelling policy *)

Lemma needsRefueling_empty_tank fm gs position :
  needsRefueling fm gs 0 position = true.
Proof. reflexivity. Qed.

Lemma needsRefueling_nothing_in_reach fm gs fuel position :
  fuel <> 0 ->
  getReachablePellets gs position fuel = [] ->
  needsRefueling fm gs fuel position = false.
Proof.
  intros Hne Hnil. unfold needsRefueling.
  destruct (Z.eqb_spec fuel 0); [contradiction|].
  destruct (fuel >=? manhattanDistance position origin); [reflexivity|].
  now rewrite Hnil.
Qed.

(** C1, as the code has it: with an empty tank [needsRefueling] is
    true, pellet or no pellet; that no pellet is within reach makes it
    false only when the fuel is not 0. *)
Theorem C1_needsRefueling (fm : FuelManager) (gs : GameState)
    (position : Position) :
  needsRefueling fm gs 0 position = true
  /\
  (forall fuel,
     fuel <> 0 ->
     (forall pellet, In pellet (getAllPellets gs) ->
                     fuel < manhattanDistance position (pellet_position pellet)) ->
     needsRefueling fm gs fuel position = false).
Proof.
  split; [reflexivity|].
  intros fuel Hne Hfar. apply needsRefueling_nothing_in_reach; [exact Hne|].
  now apply getPelletsWithinDistance_nil.
Qed.

Lemma C1_needsRefueling_witness :
  needsRefueling newFuelManager onePelletFar 0 (mkPosition 3 0) = true /\
  needsRefueling newFuelManager onePelletFar 2 (mkPosition 3 0) = false.
Proof.
  split.
  - apply (proj1 (C1_needsRefueling newFuelManager onePelletFar (mkPosition 3 0))).
  - apply (proj2 (C1_needsRefueling newFuelManager onePelletFar (mkPosition 3 0))).
    + discriminate.
    + intros pellet [<-|[]]. vm_compute. reflexivity.
Defined.

(** The statement of C1 fails as it stands: with an empty tank and no
    pellet anywhere, [needsRefueling] is true, not false. *)
Lemma C1_counterexample :
  getReachablePellets emptyWorld (mkPosition 5 0) 0 = [] /\
  getPelletAt emptyWorld (mkPosition 5 0) = None /\
  needsRefueling newFuelManager emptyWorld 0 (mkPosition 5 0) = true.
Proof. repeat split. Qed.

(* ------------------------------------------------------------------ *)
(** *** The refuelling target *)

Lemma statedScore_refuelScore gs position fuel pellet :
  PositionWithin (2 ^ 48) position -> Z.abs fuel <= 2 ^ 48 ->
  PositionWithin (2 ^ 48) (pellet_position pellet) ->
  Z.abs (pellet_fuel pellet) <= 2 ^ 48 ->
  (statedScore position fuel pellet == refuelScore gs position fuel pellet)%Q.
Proof.
  intros Hp Hf Hq Ha.
  assert (Ho : PositionWithin (2 ^ 48) origin)
    by (apply origin_within; discriminate).
  pose proof (manhattanDistance_within _ _ _ Hp Hq) as H1.
  pose proof (manhattanDistance_within _ _ _ Hq Ho) as H2.
  pose proof (manhattanDistance_within _ _ _ Hp Ho) as H0.
  unfold statedScore, refuelScore, manhattanDistanceNumber.
  set (d1 := manhattanDistance position (pellet_position pellet)) in *.
  set (d2 := manhattanDistance (pellet_position pellet) origin) in *.
  set (d0 := manhattanDistance position origin) in *.
  set (pf := pellet_fuel pellet) in *.
  change (2 ^ 48) with 281474976710656 in *.
  assert (E : forall n, Z.abs n <= 9007199254740992 -> Number n = n)
    by (intros n Hn; apply Number_exact; exact Hn).
  rewrite (E d1), (E d2), (E d0), (E pf) by lia.
  rewrite (E (fuel - d1)), (E (d0 - d2)) by lia.
  rewrite (E (fuel - d1 + pf)) by lia.
  rewrite (E (3 * pf)) by lia.
  rewrite (E (2 * ((d0 - d2) * 2) + 3 * pf)) by lia.
  rewrite (E (2 * ((d0 - d2) * 2) + 3 * pf + 2 * - d1)) by lia.
  change (maxShipFuel GAME_CONFIG) with 5.
  destruct (Z.min 5 (fuel - d1 + pf) >=? d2).
  - rewrite (E _) by lia.
    unfold Z.sub.
    repeat rewrite ?inject_Z_plus, ?inject_Z_mult, ?inject_Z_opp.
    field.
  - rewrite Z.add_0_r. rewrite (E _) by lia.
    unfold Z.sub.
    repeat rewrite ?inject_Z_plus, ?inject_Z_mult, ?inject_Z_opp.
    field.
Qed.

(** C9, as the code has it: while the coordinates, the fuel and the pellet
    amounts are at most 2^48 in magnitude, so that the score is computed
    without rounding, [findBestRefuelTarget] gives nothing exactly when
    no pellet is within distance [fuel]; otherwise it gives a pellet
    within that distance whose score, as stated, is the highest among
    the pellets within that distance. *)
Theorem C9_findBestRefuelTarget (gs : GameState) (position : Position)
    (fuel : Z) :
  ScoresExact gs position fuel ->
  (findBestRefuelTarget gs position fuel = None <->
   forall pellet, In pellet (getAllPellets gs) ->
                  fuel < manhattanDistance position (pellet_position pellet))
  /\
  (forall best,
     findBestRefuelTarget gs position fuel = Some best ->
     In best (getAllPellets gs) /\
     manhattanDistance position (pellet_position best) <= fuel /\
     forall other,
       In other (getAllPellets gs) ->
       manhattanDistance position (pellet_position other) <= fuel ->
       (statedScore position fuel other <= statedScore position fuel best)%Q).
Proof.
  intros (Hpos & Hfuel & Hpellets).
  unfold findBestRefuelTarget, getReachablePellets.
  set (reachable := getPelletsWithinDistance gs position fuel).
  set (scored := map (fun pellet => (pellet, refuelScore gs position fuel pellet))
                     reachable).
  destruct (Nat.eqb (List.length reachable) 0) eqn:E.
  - apply length_zero_nil in E. split; [|discriminate].
    split; [intros _|reflexivity].
    now apply getPelletsWithinDistance_nil.
  - assert (Hne : reachable <> []).
    { intros H. apply length_zero_nil in H. congruence. }
    destruct (js_sort (fun a b => Qltb (snd b - snd a) 0) scored)
      as [|h t] eqn:S.
    + apply js_sort_nil in S. unfold scored in S.
      apply map_eq_nil in S. contradiction.
    + split.
      * split; [discriminate|]. intros H.
        apply getPelletsWithinDistance_nil in H. contradiction.
      * intros best [= <-].
        assert (Hh : In h scored).
        { apply (In_js_sort (fun a b => Qltb (snd b - snd a) 0)).
          rewrite S. now left. }
        apply in_map_iff in Hh as (p & Ep & Hp). subst h. cbn [fst].
        apply In_getPelletsWithinDistance in Hp as [Hin Hle].
        split; [exact Hin|]. split; [exact Hle|].
        intros other Hoin Hole.
        destruct (Hpellets _ Hin) as [Hb1 Hb2].
        destruct (Hpellets _ Hoin) as [Ho1 Ho2].
        rewrite (statedScore_refuelScore gs _ _ other Hpos Hfuel Ho1 Ho2).
        rewrite (statedScore_refuelScore gs _ _ p Hpos Hfuel Hb1 Hb2).
        assert (Ho : In (other, refuelScore gs position fuel other) scored).
        { apply in_map_iff. exists other. split; [reflexivity|].
          apply In_getPelletsWithinDistance. auto. }
        apply (js_sort_head_highest snd scored _ _ S _ Ho).
Qed.

Lemma twoPellets_best_target :
  findBestRefuelTarget twoPellets (mkPosition 5 0) 3
  = Some (mkPellet (mkPosition 3 0) 5).
Proof. vm_compute. reflexivity. Qed.

Lemma twoPellets_scores_exact : ScoresExact twoPellets (mkPosition 5 0) 3.
Proof.
  split; [split; vm_compute; discriminate|].
  split; [vm_compute; discriminate|].
  intros pellet Hin. vm_compute in Hin.
  destruct Hin as [<-|[<-|[]]];
    (split; [split|]; vm_compute; discriminate).
Qed.

Lemma C9_findBestRefuelTarget_witness :
  In (mkPellet (mkPosition 3 0) 5) (getAllPellets twoPellets) /\
  (statedScore (mkPosition 5 0) 3 (mkPellet (mkPosition 7 0) 5)
   <= statedScore (mkPosition 5 0) 3 (mkPellet (mkPosition 3 0) 5))%Q.
Proof.
  destruct (proj2 (C9_findBestRefuelTarget twoPellets (mkPosition 5 0) 3
                     twoPellets_scores_exact)
              _ twoPellets_best_target) as (Hin & _ & Hmax).
  split; [exact Hin|]. apply Hmax.
  - vm_compute. tauto.
  - vm_compute. discriminate.
Defined.

(** The statement of C9 fails as it stands: the two pellets of
    [heavyPellets] are both one step from the ship; the amounts 2^53
    and 2^53 + 1 become the same number, the scores tie, the sort keeps
    the pellet loaded first, and the other one has the higher score as
    stated. *)
Lemma C9_counterexample :
  findBestRefuelTarget heavyPellets (mkPosition 10 0) 5
  = Some (mkPellet (mkPosition 10 1) (2 ^ 53))
  /\ In (mkPellet (mkPosition 10 (-1)) (2 ^ 53 + 1)) (getAllPellets heavyPellets)
  /\ manhattanDistance (mkPosition 10 0) (mkPosition 10 (-1)) <= 5
  /\ (statedScore (mkPosition 10 0) 5 (mkPellet (mkPosition 10 1) (2 ^ 53))
      < statedScore (mkPosition 10 0) 5
          (mkPellet (mkPosition 10 (-1)) (2 ^ 53 + 1)))%Q.
Proof.
  split; [vm_compute; reflexivity|].
  split; [vm_compute; tauto|].
  split; [vm_compute; discriminate|].
  vm_compute. reflexivity.
Qed.

(* ------------------------------------------------------------------ *)
(** *** The spawn optimizer without a feasible candidate *)

Lemma pelletCount_nonneg gs position radius :
  0 <= pelletCount gs position radius.
Proof. unfold pelletCount. lia. Qed.

Lemma pelletCount_no_pellets gs position radius :
  getAllPellets gs = [] -> pelletCount gs position radius = 0.
Proof.
  unfold pelletCount, getPelletsWithinDistance, getAllPellets.
  now intros ->.
Qed.

Lemma evaluateLoop_none_feasible gs candidates :
  (forall p, In p candidates ->
             cand_guaranteedPath (evaluateSpawnPosition gs p) = false) ->
  forall evaluated pathsFound totalEvaluated,
    pathsFound < 10 ->
    evaluateLoop gs candidates evaluated pathsFound totalEvaluated = evaluated.
Proof.
  induction candidates as [|p rest IH];
    intros Hall evaluated pathsFound totalEvaluated Hlt;
    cbn [evaluateLoop]; [reflexivity|].
  rewrite (Hall p) by now left.
  destruct (Z.geb_spec pathsFound 10); [lia|]. cbn [andb].
  apply IH; [|exact Hlt]. intros q Hq. apply Hall. now right.
Qed.

Lemma fallbackStep_state gs seen st p :
  FallbackState gs seen st ->
  FallbackState gs (seen ++ [p]) (fallbackStep gs st p).
Proof.
  intros (Hpos & Hmax & Hbest). unfold fallbackStep.
  destruct (Z.gtb_spec (pelletCount gs p 15) (snd st)) as [Hgt|Hle].
  - split; [cbn [snd]; lia|]. split.
    + cbn [snd]. intros q Hq. apply in_app_iff in Hq as [Hq|[<-|[]]]; [|lia].
      specialize (Hmax _ Hq). lia.
    + cbn [fst snd cand_guaranteedPath cand_position cand_nearbyPellets].
      repeat split; try lia. apply in_app_iff. right. now left.
  - split; [exact Hpos|]. split.
    + intros q Hq. apply in_app_iff in Hq as [Hq|[<-|[]]]; auto.
    + destruct (fst st) as [c|]; [|exact Hbest].
      destruct Hbest as (? & ? & ? & ? & ?).
      repeat split; auto. apply in_app_iff. now left.
Qed.

Lemma fallback_fold_state gs candidates :
  forall seen st,
  FallbackState gs seen st ->
  FallbackState gs (seen ++ candidates)
                (fold_left (fallbackStep gs) candidates st).
Proof.
  induction candidates as [|p rest IH]; intros seen st Hst; simpl.
  - now rewrite app_nil_r.
  - replace (seen ++ p :: rest) with ((seen ++ [p]) ++ rest)
      by (rewrite <- app_assoc; reflexivity).
    apply IH. now apply fallbackStep_state.
Qed.

Lemma findFallbackSpawnPosition_state polar gs :
  FallbackState gs (generateSpawnCandidates polar gs)
    (fold_left (fallbackStep gs) (generateSpawnCandidates polar gs) (None, 0)).
Proof.
  apply (fallback_fold_state gs (generateSpawnCandidates polar gs) [] (None, 0)).
  split; [simpl; lia|]. split; [intros p []|reflexivity].
Qed.

(** C2, as the code has it: when no generated candidate has a feasible
    path, [findOptimalSpawnPosition] returns what the fallback returns.
    That is nothing when no candidate has a pellet within distance 15
    (so in a world without pellets); otherwise it is a candidate flagged
    [guaranteedPath = false], with at least one pellet within distance
    15 and no candidate having more. *)
Theorem C2_fallback (polar : Z -> Z -> Position) (gs : GameState) :
  (forall p, In p (generateSpawnCandidates polar gs) ->
             cand_guaranteedPath (evaluateSpawnPosition gs p) = false) ->
  findOptimalSpawnPosition polar gs = findFallbackSpawnPosition polar gs
  /\
  (findOptimalSpawnPosition polar gs = None <->
   forall p, In p (generateSpawnCandidates polar gs) ->
             pelletCount gs p 15 = 0)
  /\
  (getAllPellets gs = [] -> findOptimalSpawnPosition polar gs = None)
  /\
  (forall c,
     findOptimalSpawnPosition polar gs = Some c ->
     cand_guaranteedPath c = false /\
     In (cand_position c) (generateSpawnCandidates polar gs) /\
     cand_nearbyPellets c = pelletCount gs (cand_position c) 15 /\
     0 < cand_nearbyPellets c /\
     forall p, In p (generateSpawnCandidates polar gs) ->
               pelletCount gs p 15 <= cand_nearbyPellets c).
Proof.
  intros Hnone.
  assert (E : findOptimalSpawnPosition polar gs
              = findFallbackSpawnPosition polar gs).
  { unfold findOptimalSpawnPosition.
    rewrite (evaluateLoop_none_feasible gs _ Hnone) by lia. reflexivity. }
  rewrite E. unfold findFallbackSpawnPosition.
  destruct (findFallbackSpawnPosition_state polar gs) as (Hpos & Hmax & Hbest).
  assert (Hiff :
    fst (fold_left (fallbackStep gs) (generateSpawnCandidates polar gs) (None, 0))
    = None <->
    (forall p, In p (generateSpawnCandidates polar gs) ->
               pelletCount gs p 15 = 0)).
  { split.
    - intros HN p Hp. rewrite HN in Hbest. specialize (Hmax _ Hp).
      pose proof (pelletCount_nonneg gs p 15). lia.
    - intros Hzero.
      destruct (fst (fold_left _ _ _)) as [c|]; [|reflexivity].
      destruct Hbest as (_ & Hin & Hc & Hm & Hgt).
      specialize (Hzero _ Hin). lia. }
  split; [reflexivity|]. split; [exact Hiff|]. split.
  - intros Hno. apply Hiff. intros p _. now apply pelletCount_no_pellets.
  - intros c Hc. rewrite Hc in Hbest.
    destruct Hbest as (Hg & Hin & Hn & Hm & Hgt).
    repeat split; auto; try lia.
    intros p Hp. specialize (Hmax _ Hp). lia.
Qed.

Lemma onePelletFar_none_feasible :
  forall p, In p (generateSpawnCandidates polarDecimal onePelletFar) ->
            cand_guaranteedPath (evaluateSpawnPosition onePelletFar p) = false.
Proof.
  assert (H : forallb
                (fun p => negb (cand_guaranteedPath
                                  (evaluateSpawnPosition onePelletFar p)))
                (generateSpawnCandidates polarDecimal onePelletFar) = true)
    by (vm_compute; reflexivity).
  intros p Hp. rewrite forallb_forall in H. specialize (H p Hp).
  now apply negb_true_iff in H.
Qed.

Lemma onePelletFar_spawn :
  findOptimalSpawnPosition polarDecimal onePelletFar =
  Some {| cand_position := mkPosition 45 (-5);
          cand_score := ScoreQ (inject_Z 1);
          cand_guaranteedPath := false;
          cand_pathToOrigin := None;
          cand_nearbyPellets := 1;
          cand_totalMoves := Finite 50 |}.
Proof. vm_compute. reflexivity. Qed.

Lemma C2_fallback_witness :
  findOptimalSpawnPosition polarDecimal onePelletFar
  = findFallbackSpawnPosition polarDecimal onePelletFar
  /\
  exists c,
    findOptimalSpawnPosition polarDecimal onePelletFar = Some c /\
    cand_guaranteedPath c = false /\
    In (cand_position c) (generateSpawnCandidates polarDecimal onePelletFar) /\
    0 < cand_nearbyPellets c.
Proof.
  destruct (C2_fallback polarDecimal onePelletFar onePelletFar_none_feasible)
    as (H1 & _ & _ & H4).
  split; [exact H1|].
  destruct (H4 _ onePelletFar_spawn) as (Hg & Hin & _ & Hpos & _).
  eexists. split; [exact onePelletFar_spawn|]. auto.
Defined.

(** The statement of C2 fails as it stands: in the world without
    pellets no candidate has a feasible path, and the optimizer returns
    nothing: the fallback only keeps a candidate that has strictly more
    than zero pellets nearby. *)
Lemma C2_counterexample :
  getAllPellets emptyWorld = [] /\
  forallb (fun p => negb (cand_guaranteedPath (evaluateSpawnPosition emptyWorld p)))
          (generateSpawnCandidates polarDecimal emptyWorld) = true /\
  findOptimalSpawnPosition polarDecimal emptyWorld = None.
Proof. vm_compute. repeat split. Qed.

(* ------------------------------------------------------------------ *)
(** *** Distance and the greedy step *)

Lemma Position_eq_iff (a b : Position) :
  a = b <-> pos_x a = pos_x b /\ pos_y a = pos_y b.
Proof.
  split; [intros ->; auto|]. destruct a, b; simpl. intros [-> ->]. reflexivity.
Qed.

Lemma manhattanDistance_facts (a b c : Position) :
  0 <= manhattanDistance a b
  /\ (manhattanDistance a b = 0 <-> a = b)
  /\ manhattanDistance a b = manhattanDistance b a
  /\ manhattanDistance a c <= manhattanDistance a b + manhattanDistance b c.
Proof.
  unfold manhattanDistance. rewrite !abs_spec.
  split; [lia|]. split; [|split; lia].
  rewrite Position_eq_iff. lia.
Qed.

(** X1: the distance as [manhattanDistance] returns it, the sum
    converted to a number, is never negative, is zero exactly on equal
    positions and is symmetric; while the exact distances from [a] to
    [b] and from [b] to [c] add up to at most 2^53 the conversion keeps
    them and the triangle inequality holds. *)
Theorem X1_manhattanDistance_metric (a b c : Position) :
  0 <= manhattanDistanceNumber a b
  /\ (manhattanDistanceNumber a b = 0 <-> a = b)
  /\ manhattanDistanceNumber a b = manhattanDistanceNumber b a
  /\ (manhattanDistance a b + manhattanDistance b c <= 2 ^ 53 ->
      manhattanDistanceNumber a b = manhattanDistance a b /\
      manhattanDistanceNumber b c = manhattanDistance b c /\
      manhattanDistanceNumber a c = manhattanDistance a c /\
      manhattanDistanceNumber a c
      <= manhattanDistanceNumber a b + manhattanDistanceNumber b c).
Proof.
  destruct (manhattanDistance_facts a b c) as (H0 & Hz & Hs & Ht).
  pose proof (manhattanDistance_nonneg b c) as Hbc.
  pose proof (manhattanDistance_nonneg a c) as Hac.
  unfold manhattanDistanceNumber.
  split; [now apply Number_nonneg|].
  split; [rewrite Number_zero; exact Hz|].
  split; [now rewrite Hs|].
  intros Hsum.
  rewrite !Number_exact by lia. repeat split; lia.
Qed.

Lemma X1_manhattanDistance_metric_witness :
  manhattanDistanceNumber (mkPosition 0 0) (mkPosition (2 ^ 51) (- 2 ^ 51))
  <= manhattanDistanceNumber (mkPosition 0 0) (mkPosition 3 4)
     + manhattanDistanceNumber (mkPosition 3 4)
                               (mkPosition (2 ^ 51) (- 2 ^ 51)).
Proof.
  apply (X1_manhattanDistance_metric (mkPosition 0 0) (mkPosition 3 4)
           (mkPosition (2 ^ 51) (- 2 ^ 51))).
  vm_compute. discriminate.
Defined.

(** Beyond 2^53 the rounding breaks the triangle inequality. *)
Lemma rounding_breaks_triangle :
  manhattanDistanceNumber (mkPosition 0 0) (mkPosition (2 ^ 53 + 1) 0)
  + manhattanDistanceNumber (mkPosition (2 ^ 53 + 1) 0)
                            (mkPosition (2 ^ 53 + 2) 0)
  < manhattanDistanceNumber (mkPosition 0 0) (mkPosition (2 ^ 53 + 2) 0).
Proof. vm_compute. reflexivity. Qed.

Lemma calculateNextMove_spec (from to : Position) :
  (-1 <= fst (calculateNextMove from to) <= 1)
  /\ (-1 <= snd (calculateNextMove from to) <= 1)
  /\ (calculateNextMove from to = (0, 0) <-> from = to)
  /\ manhattanDistance (applyMove from (calculateNextMove from to)) to
     = manhattanDistance from to
       - (Z.abs (fst (calculateNextMove from to))
          + Z.abs (snd (calculateNextMove from to))).
Proof.
  unfold calculateNextMove, manhattanDistance, applyMove. rewrite !abs_spec.
  rewrite Position_eq_iff. cbn [pos_x pos_y fst snd].
  destruct (Z.eqb_spec (pos_x from) (pos_x to)),
           (Z.eqb_spec (pos_y from) (pos_y to));
    cbn [negb];
    repeat match goal with
           | |- context [?a >? ?b] => destruct (Z.gtb_spec a b)
           end;
    cbn [fst snd];
    (split; [lia|]; split; [lia|]; split; [|lia]);
    (split; [intros [= ]; lia | intros [? ?]; try lia; reflexivity]).
Qed.

(** X12: [calculateNextMove] gives a step of -1, 0 or 1 on each axis,
    the null step exactly when the target is the current cell, and
    taking the step brings the ship closer to the target by one on each
    axis moved; while the exact distance to the target is at most 2^53,
    the distance as a number drops by the number of axes moved. *)
Theorem X12_calculateNextMove_approaches (from to : Position) :
  let move := calculateNextMove from to in
  (-1 <= fst move <= 1) /\ (-1 <= snd move <= 1)
  /\ (move = (0, 0) <-> from = to)
  /\ Z.abs (pos_x to - pos_x (applyMove from move))
     = Z.abs (pos_x to - pos_x from) - Z.abs (fst move)
  /\ Z.abs (pos_y to - pos_y (applyMove from move))
     = Z.abs (pos_y to - pos_y from) - Z.abs (snd move)
  /\ (manhattanDistance from to <= 2 ^ 53 ->
      manhattanDistanceNumber (applyMove from move) to
      = manhattanDistanceNumber from to
        - (Z.abs (fst move) + Z.abs (snd move))).
Proof.
  cbv zeta.
  destruct (calculateNextMove_spec from to) as (Hx & Hy & Hz & Hd).
  split; [exact Hx|]. split; [exact Hy|]. split; [exact Hz|].
  assert (Haxes :
    Z.abs (pos_x to - pos_x (applyMove from (calculateNextMove from to)))
    = Z.abs (pos_x to - pos_x from) - Z.abs (fst (calculateNextMove from to))
    /\ Z.abs (pos_y to - pos_y (applyMove from (calculateNextMove from to)))
       = Z.abs (pos_y to - pos_y from)
         - Z.abs (snd (calculateNextMove from to))).
  { unfold calculateNextMove, applyMove. cbn [pos_x pos_y fst snd].
    destruct (Z.eqb_spec (pos_x from) (pos_x to)),
             (Z.eqb_spec (pos_y from) (pos_y to));
      cbn [negb];
      repeat match goal with
             | |- context [?a >? ?b] => destruct (Z.gtb_spec a b)
             end;
      cbn [fst snd]; lia. }
  split; [exact (proj1 Haxes)|]. split; [exact (proj2 Haxes)|].
  intros Hle.
  pose proof (manhattanDistance_nonneg
                (applyMove from (calculateNextMove from to)) to) as Hn.
  rewrite !manhattanDistanceNumber_exact by lia. exact Hd.
Qed.

Lemma X12_calculateNextMove_approaches_witness :
  manhattanDistanceNumber
    (applyMove (mkPosition (2 ^ 52) 7)
               (calculateNextMove (mkPosition (2 ^ 52) 7) origin)) origin
  = manhattanDistanceNumber (mkPosition (2 ^ 52) 7) origin
    - (Z.abs (fst (calculateNextMove (mkPosition (2 ^ 52) 7) origin))
       + Z.abs (snd (calculateNextMove (mkPosition (2 ^ 52) 7) origin))).
Proof.
  apply (X12_calculateNextMove_approaches (mkPosition (2 ^ 52) 7) origin).
  vm_compute. discriminate.
Defined.

(* ------------------------------------------------------------------ *)
(** *** A general invariant of the open set *)

Section OpenSetInvariant.
Variables (gs : GameState) (goal : Position) (cp : bool).
Variable P : PathNode -> Prop.

(** [P] passes from a node to each node the loop builds from it. *)
Hypothesis P_child :
  forall current pos h f,
    P current ->
    0 <= node_fuel current - 1 ->
    In pos (getNeighbors (node_position current)) ->
    let fuelAtNeighbor :=
      if cp then refuelAt gs pos (node_fuel current - 1)
      else node_fuel current - 1 in
    (fuelAtNeighbor <? manhattanDistance pos goal)
    && negb (hasPelletOnPath gs pos goal fuelAtNeighbor) = false ->
    P {| node_position := pos; node_g := node_g current + 1;
         node_h := h; node_f := f; node_parent := Some current;
         node_fuel := fuelAtNeighbor |}.

Lemma visitNeighbor_keeps closed current open pos :
  P current ->
  In pos (getNeighbors (node_position current)) ->
  Forall (fun e => P (snd e)) open ->
  Forall (fun e => P (snd e))
         (visitNeighbor gs goal cp closed current open pos).
Proof.
  intros Hc Hin Ho. unfold visitNeighbor.
  destruct (set_has _ closed); [exact Ho|].
  destruct (Z.ltb_spec (node_fuel current - 1) 0) as [|Hfuel]; [exact Ho|].
  match goal with |- context [if ?b then open else _] =>
    destruct b eqn:Accepted end; [exact Ho|].
  match goal with |- context [map_set _ ?n open] =>
    assert (Hn : P n) by (apply P_child; assumption) end.
  destruct (map_get _ open) as [existing|].
  - destruct (_ >=? _); [exact Ho|]. now apply Forall_map_set.
  - now apply Forall_map_set.
Qed.

Lemma fold_visit_keeps closed current neighbors :
  P current ->
  (forall pos, In pos neighbors ->
               In pos (getNeighbors (node_position current))) ->
  forall open,
    Forall (fun e => P (snd e)) open ->
    Forall (fun e => P (snd e))
           (fold_left (visitNeighbor gs goal cp closed current) neighbors open).
Proof.
  intros Hc. induction neighbors as [|p ps IH]; intros Hsub open Ho; simpl.
  - exact Ho.
  - apply IH; [intros q Hq; apply Hsub; now right|].
    apply visitNeighbor_keeps; auto. apply Hsub. now left.
Qed.

Lemma iteration_keeps st next :
  Forall (fun e => P (snd e)) (openSet st) ->
  iteration gs goal cp st = Continue next ->
  Forall (fun e => P (snd e)) (openSet next).
Proof.
  intros Ho. unfold iteration.
  destruct (lowestF (openSet st)) as [[k c]|] eqn:E; [|discriminate].
  destruct (Position_eqb (node_position c) goal); [discriminate|].
  intros [= <-]. cbn [openSet].
  apply lowestF_Some in E as [Hin _].
  assert (Hc : P c).
  { rewrite Forall_forall in Ho. apply (Ho _ Hin). }
  exact (fold_visit_keeps _ c (getNeighbors (node_position c)) Hc
           (fun _ H => H) _ (Forall_map_delete _ k _ Ho)).
Qed.

Lemma afterIterations_keeps n :
  forall st st',
    Forall (fun e => P (snd e)) (openSet st) ->
    afterIterations gs goal cp n st = Some st' ->
    Forall (fun e => P (snd e)) (openSet st').
Proof.
  induction n as [|n IH]; intros st st' Ho; simpl.
  - now intros [= <-].
  - destruct (iteration gs goal cp st) as [| |next] eqn:E; try discriminate.
    apply IH. now apply iteration_keeps with st.
Qed.

Lemma findPath_success_keeps start fuel0 :
  P (startNode start goal fuel0) ->
  path_success (findPath gs start goal fuel0 cp) = true ->
  exists c,
    P c /\ node_position c = goal /\
    findPath gs start goal fuel0 cp = reconstructPath gs c.
Proof.
  intros Hstart. unfold findPath, findPathRun.
  destruct (searchLoop_outcome gs goal cp maxIterations 0
              (startState start goal fuel0)) as (n & st & Hn & Ha & Hc).
  destruct Hc as [(k & c & Hlt & Hl & Hg & Hr)|[(Ho & Hr)|(Hm & Hr)]];
    rewrite Hr; cbn [fst]; try discriminate.
  intros _. exists c. split; [|auto].
  assert (H0 : Forall (fun e => P (snd e))
                      (openSet (startState start goal fuel0))).
  { unfold startState. cbn [openSet map_set]. constructor; [exact Hstart|].
    constructor. }
  pose proof (afterIterations_keeps _ _ _ H0 Ha) as Hall.
  apply lowestF_Some in Hl as [Hin _].
  rewrite Forall_forall in Hall. apply (Hall _ Hin).
Qed.

Lemma findPath_failure start fuel0 :
  path_success (findPath gs start goal fuel0 cp) = false ->
  findPath gs start goal fuel0 cp = failedPath.
Proof.
  unfold findPath, findPathRun.
  destruct (searchLoop_outcome gs goal cp maxIterations 0
              (startState start goal fuel0)) as (n & st & Hn & Ha & Hc).
  destruct Hc as [(k & c & Hlt & Hl & Hg & Hr)|[(Ho & Hr)|(Hm & Hr)]];
    rewrite Hr; cbn [fst]; auto.
  rewrite reconstructPath_success. discriminate.
Qed.
End OpenSetInvariant.

(** The found node is both a fuel chain and a route. *)
Lemma findPath_success_node gs start goal fuel0 cp :
  path_success (findPath gs start goal fuel0 cp) = true ->
  exists c,
    Chain gs cp start fuel0 c /\ Routed start c /\ node_position c = goal /\
    findPath gs start goal fuel0 cp = reconstructPath gs c.
Proof.
  intros Hs.
  destruct (findPath_success_keeps gs goal cp
              (fun n => Chain gs cp start fuel0 n /\ Routed start n))
    with (start := start) (fuel0 := fuel0) as (c & [Hc Hr] & Hg & E).
  - intros current pos h f [Hc Hr] Hfuel Hin fuelAtNeighbor _. split.
    + apply Chain_step with current; auto.
    + apply Routed_step with current; auto.
  - split; [now apply Chain_root | now apply Routed_root].
  - exact Hs.
  - exists c. auto.
Qed.

(* ------------------------------------------------------------------ *)
(** *** Walks *)

Lemma neighbor_unit_step a b :
  In b (getNeighbors a) ->
  Z.abs (pos_x b - pos_x a) <= 1 /\ Z.abs (pos_y b - pos_y a) <= 1 /\ b <> a.
Proof.
  unfold getNeighbors. rewrite generatedMoves_explicit.
  intros H. apply in_map_iff in H as ([dx dy] & <- & Hm).
  unfold applyMove. cbn [pos_x pos_y fst snd].
  assert (Hd : (Z.abs dx <= 1 /\ Z.abs dy <= 1) /\ (dx <> 0 \/ dy <> 0)).
  { apply in_app_iff in Hm as [Hm|Hm].
    - simpl in Hm.
      repeat (destruct Hm as [Hm|Hm]; [inversion Hm; subst; lia|]).
      destruct Hm.
    - destruct ((pos_x a =? 0) || (pos_y a =? 0)) eqn:E; [destruct Hm|].
      apply orb_false_iff in E as [Ex Ey].
      apply Z.eqb_neq in Ex, Ey.
      destruct Hm as [Hm|[]]. inversion Hm; subst. lia. }
  split; [lia|]. split; [lia|].
  intros E. apply Position_eq_iff in E. cbn [pos_x pos_y] in E. lia.
Qed.

Lemma StepsAreMoves_snoc l a b :
  StepsAreMoves (l ++ [a]) ->
  In b (getNeighbors a) ->
  StepsAreMoves ((l ++ [a]) ++ [b]).
Proof.
  induction l as [|x l IH]; intros Hl Hb.
  - simpl. auto.
  - change ((x :: l) ++ [a]) with (x :: (l ++ [a])) in *.
    change ((x :: (l ++ [a])) ++ [b]) with (x :: ((l ++ [a]) ++ [b])).
    destruct (l ++ [a]) as [|y r] eqn:E.
    + destruct l; discriminate.
    + cbn [StepsAreMoves] in Hl. destruct Hl as [Hxy Hr].
      change ((y :: r) ++ [b]) with (y :: (r ++ [b])).
      cbn [StepsAreMoves]. split; [exact Hxy|].
      change (y :: (r ++ [b])) with ((y :: r) ++ [b]). now apply IH.
Qed.

Lemma StepsAreMoves_app l1 a l2 :
  StepsAreMoves (l1 ++ [a]) ->
  StepsAreMoves (a :: l2) ->
  StepsAreMoves (l1 ++ a :: l2).
Proof.
  induction l1 as [|x l1 IH]; intros H1 H2; [exact H2|].
  change ((x :: l1) ++ [a]) with (x :: (l1 ++ [a])) in H1.
  change ((x :: l1) ++ a :: l2) with (x :: (l1 ++ a :: l2)).
  destruct l1 as [|y r].
  - simpl in *. destruct H1 as [H1 _]. auto.
  - cbn [app StepsAreMoves] in *. destruct H1 as [Hxy Hr].
    split; [exact Hxy|]. apply IH; assumption.
Qed.

Lemma chainPositions_last n d :
  last (chainPositions n) d = node_position n.
Proof.
  destruct (node_parent n) as [p|] eqn:E.
  - rewrite (chainPositions_parent _ _ E). apply last_last.
  - now rewrite (chainPositions_root _ E).
Qed.

Lemma chainPositions_snoc n :
  exists l, chainPositions n = l ++ [node_position n].
Proof.
  destruct (node_parent n) as [p|] eqn:E.
  - exists (chainPositions p). apply (chainPositions_parent _ _ E).
  - exists []. now rewrite (chainPositions_root _ E).
Qed.

Lemma Routed_walk start n :
  Routed start n ->
  Walk start (node_position n) (chainPositions n)
  /\ node_g n = Z.of_nat (List.length (chainPositions n)) - 1.
Proof.
  induction 1 as [n Hp Hs Hg|n p Hp Hr IH Hin Hg].
  - rewrite chainPositions_root by assumption. unfold Walk. simpl.
    rewrite Hs. repeat split; auto.
  - destruct IH as [(Hhd & Hlast & Hsteps) Hgp].
    rewrite (chainPositions_parent _ _ Hp). split.
    + unfold Walk. split; [|split].
      * destruct (chainPositions p); [discriminate | exact Hhd].
      * apply last_last.
      * destruct (chainPositions_snoc p) as [l E]. rewrite E in *.
        now apply StepsAreMoves_snoc.
    + rewrite length_app, Hg, Hgp. simpl. lia.
Qed.

Lemma last_default {A} (b : A) (r : list A) d d' :
  last (b :: r) d = last (b :: r) d'.
Proof.
  revert b. induction r as [|c r IH]; intros b; [reflexivity|].
  change (last (c :: r) d = last (c :: r) d'). apply IH.
Qed.

Lemma StepsAreMoves_bounds nodes :
  forall a,
    StepsAreMoves (a :: nodes) ->
    Z.abs (pos_x (last (a :: nodes) a) - pos_x a)
      <= Z.of_nat (List.length nodes) /\
    Z.abs (pos_y (last (a :: nodes) a) - pos_y a)
      <= Z.of_nat (List.length nodes).
Proof.
  induction nodes as [|b rest IH]; intros a Hsteps.
  - simpl. lia.
  - cbn [StepsAreMoves] in Hsteps. destruct Hsteps as [Hab Hrest].
    apply neighbor_unit_step in Hab as (Hx & Hy & _).
    specialize (IH b Hrest).
    change (last (a :: b :: rest) a) with (last (b :: rest) a).
    rewrite (last_default b rest a b).
    cbn [List.length]. rewrite Nat2Z.inj_succ. lia.
Qed.

Lemma Walk_bounds start goal nodes :
  Walk start goal nodes ->
  Z.abs (pos_x goal - pos_x start) <= Z.of_nat (List.length nodes) - 1 /\
  Z.abs (pos_y goal - pos_y start) <= Z.of_nat (List.length nodes) - 1.
Proof.
  intros (Hhd & Hlast & Hsteps).
  destruct nodes as [|a rest]; [discriminate|].
  injection Hhd as ->. subst goal.
  pose proof (StepsAreMoves_bounds rest start Hsteps).
  cbn [List.length]. rewrite Nat2Z.inj_succ. lia.
Qed.

Lemma findPath_is_walk gs start goal fuel cp :
  path_success (findPath gs start goal fuel cp) = true ->
  Walk start goal (path_nodes (findPath gs start goal fuel cp)).
Proof.
  intros Hs. apply findPath_success_node in Hs as (c & _ & Hr & Hg & ->).
  destruct (reconstructPath_nodes gs c) as [-> _].
  apply Routed_walk in Hr as [Hw _]. now rewrite Hg in Hw.
Qed.

(** X2: a successful [findPath] returns a walk: its nodes begin at the
    start, end at the goal, and each node is a generated neighbour of
    the one before; so the cost is at least the distance to cover on
    either axis. *)
Theorem X2_findPath_walk (gs : GameState) (start goal : Position) (fuel : Z)
    (considerPellets : bool) :
  path_success (findPath gs start goal fuel considerPellets) = true ->
  Walk start goal (path_nodes (findPath gs start goal fuel considerPellets))
  /\ exists cost,
       path_totalCost (findPath gs start goal fuel considerPellets)
       = Finite cost /\
       Z.abs (pos_x goal - pos_x start) <= cost /\
       Z.abs (pos_y goal - pos_y start) <= cost.
Proof.
  intros Hs. pose proof (findPath_is_walk _ _ _ _ _ Hs) as Hw.
  split; [exact Hw|].
  destruct (findPath_CostCountsSteps _ _ _ _ _ Hs) as [_ ->].
  eexists. split; [reflexivity|]. now apply Walk_bounds.
Qed.

Lemma X2_findPath_walk_witness :
  Walk (mkPosition 10 0) (mkPosition 7 0)
       (path_nodes
          (findPath twoPellets (mkPosition 10 0) (mkPosition 7 0) 3 false)).
Proof.
  apply (X2_findPath_walk twoPellets (mkPosition 10 0) (mkPosition 7 0) 3 false).
  vm_compute. reflexivity.
Defined.

(* ------------------------------------------------------------------ *)
(** *** Fuel stops and cost of a found path *)

Lemma reconstructLoop_stops gs n :
  forall nodes stops cost,
    snd (fst (reconstructLoop gs n nodes stops cost)) =
    filter (hasPelletAtPosition gs) (tl (chainPositions n)) ++ stops.
Proof.
  induction n as [n Hn|n p Hn IH] using PathNode_parent_ind;
    intros nodes stops cost.
  - rewrite tl_chainPositions_root by assumption.
    destruct n; simpl in *; subst. reflexivity.
  - rewrite (tl_chainPositions_parent _ _ Hn), filter_app.
    destruct n as [pos g h f parent fuel]; simpl in Hn; subst parent.
    cbn [reconstructLoop node_parent node_position]. rewrite IH.
    rewrite <- app_assoc. f_equal. cbn [filter]. unfold hasPelletAtPosition.
    destruct (getPelletAt gs pos); reflexivity.
Qed.

(** X3: the fuel stops of a successful [findPath] are exactly the cells
    of the path after the first that hold a pellet, in path order (also
    when the search itself was told not to consider pellets). *)
Theorem X3_findPath_fuelStops (gs : GameState) (start goal : Position)
    (fuel : Z) (considerPellets : bool) :
  path_success (findPath gs start goal fuel considerPellets) = true ->
  path_fuelStops (findPath gs start goal fuel considerPellets)
  = filter (hasPelletAtPosition gs)
           (tl (path_nodes (findPath gs start goal fuel considerPellets))).
Proof.
  intros Hs. apply findPath_success_node in Hs as (c & _ & _ & _ & ->).
  destruct (reconstructPath_nodes gs c) as [-> _].
  unfold reconstructPath.
  pose proof (reconstructLoop_stops gs c [] [] 0) as H.
  destruct (reconstructLoop gs c [] [] 0) as [[nodes stops] cost].
  cbn [fst snd path_fuelStops] in *. now rewrite app_nil_r in H.
Qed.

Lemma X3_findPath_fuelStops_witness :
  path_fuelStops (findPath twoPellets (mkPosition 8 0) origin 5 true)
  = filter (hasPelletAtPosition twoPellets)
           (tl (path_nodes (findPath twoPellets (mkPosition 8 0) origin 5 true))).
Proof.
  apply X3_findPath_fuelStops. vm_compute. reflexivity.
Defined.

Lemma Chain_no_pellets_fuel_nonneg gs start fuel0 n :
  0 <= fuel0 -> Chain gs false start fuel0 n -> 0 <= node_fuel n.
Proof.
  intros H0 Hc. destruct Hc as [n Hp Hs Hf|n p Hp Hc Hge Hf]; lia.
Qed.

(** X4: a path found without considering pellets never costs more than
    the fuel it was planned with. *)
Theorem X4_findPath_without_pellets_cost (gs : GameState)
    (start goal : Position) (fuel : Z) :
  0 <= fuel ->
  path_success (findPath gs start goal fuel false) = true ->
  exists cost,
    path_totalCost (findPath gs start goal fuel false) = Finite cost /\
    0 <= cost <= fuel.
Proof.
  intros H0 Hs. apply findPath_success_node in Hs as (c & Hc & _ & _ & ->).
  destruct (reconstructPath_nodes gs c) as [_ ->].
  eexists. split; [reflexivity|].
  pose proof (Chain_fuel_no_pellets _ _ _ _ Hc).
  pose proof (Chain_no_pellets_fuel_nonneg _ _ _ _ H0 Hc).
  pose proof (chainPositions_length c). lia.
Qed.

Lemma X4_findPath_without_pellets_cost_witness :
  exists cost,
    path_totalCost (findPath twoPellets (mkPosition 10 0) (mkPosition 7 0) 3 false)
    = Finite cost /\ 0 <= cost <= 3.
Proof.
  apply X4_findPath_without_pellets_cost; [lia | vm_compute; reflexivity].
Defined.

(* ------------------------------------------------------------------ *)
(** *** The two-leg search *)

Lemma last_app_cons {A} (l1 : list A) b r d :
  last (l1 ++ b :: r) d = last (b :: r) d.
Proof.
  induction l1 as [|x l1 IH]; [reflexivity|].
  change ((x :: l1) ++ b :: r) with (x :: (l1 ++ b :: r)).
  destruct (l1 ++ b :: r) eqn:E; [destruct l1; discriminate|].
  exact IH.
Qed.

Lemma Walk_join start w goal l1 l2 :
  Walk start w l1 -> Walk w goal l2 -> Walk start goal (removelast l1 ++ l2).
Proof.
  intros (Hh1 & Hl1 & Hs1) (Hh2 & Hl2 & Hs2).
  destruct l2 as [|b r2]; [discriminate|]. injection Hh2 as ->.
  assert (N1 : l1 <> []) by (intros ->; discriminate).
  destruct (exists_last N1) as (l1' & a & ->).
  rewrite last_last in Hl1. subst a. rewrite removelast_last.
  unfold Walk. split; [|split].
  - destruct l1' as [|x l1'']; [|exact Hh1].
    simpl in Hh1. exact Hh1.
  - rewrite last_app_cons.
    rewrite (last_default w r2 start w). exact Hl2.
  - now apply StepsAreMoves_app.
Qed.

Lemma tryWaypoint_twoLegTotal gs start goal fuel best pellet :
  let total := twoLegTotal gs start goal fuel pellet in
  if Cost_ltb total (snd best)
  then snd (tryWaypoint gs start goal fuel best pellet) = total /\
       path_totalCost (fst (tryWaypoint gs start goal fuel best pellet)) = total /\
       path_success (fst (tryWaypoint gs start goal fuel best pellet)) = true /\
       path_nodes (fst (tryWaypoint gs start goal fuel best pellet))
       = removelast
           (path_nodes (findPath gs start (pellet_position pellet) fuel false))
         ++ path_nodes
              (findPath gs (pellet_position pellet) goal
                 (Z.min (maxShipFuel GAME_CONFIG)
                    (fuel
                     - (Z.of_nat
                          (List.length
                             (path_nodes
                                (findPath gs start (pellet_position pellet)
                                   fuel false))) - 1)
                     + pellet_fuel pellet)) true) /\
       path_success (findPath gs start (pellet_position pellet) fuel false)
       = true /\
       path_success
         (findPath gs (pellet_position pellet) goal
            (Z.min (maxShipFuel GAME_CONFIG)
               (fuel
                - (Z.of_nat
                     (List.length
                        (path_nodes
                           (findPath gs start (pellet_position pellet)
                              fuel false))) - 1)
                + pellet_fuel pellet)) true) = true
  else tryWaypoint gs start goal fuel best pellet = best.
Proof.
  unfold twoLegTotal, tryWaypoint.
  destruct (path_success (findPath gs start (pellet_position pellet) fuel false))
    eqn:S1; cbn [negb]; [|reflexivity].
  destruct (findPath_CostCountsSteps _ _ _ _ _ S1) as [_ ->].
  match goal with |- context [findPath gs (pellet_position pellet) goal ?f true] =>
    set (leg2 := findPath gs (pellet_position pellet) goal f true) end.
  destruct (path_success leg2) eqn:S2; cbn [negb]; [|reflexivity].
  destruct (Cost_ltb _ (snd best)); [|reflexivity].
  cbn [fst snd path_totalCost path_success path_nodes]. auto 10.
Qed.

Lemma Cost_le_refl a : Cost_le a a.
Proof. destruct a; simpl; [lia | exact I]. Qed.

Lemma Cost_le_trans a b c : Cost_le a b -> Cost_le b c -> Cost_le a c.
Proof. destruct a, b, c; simpl; try tauto; lia. Qed.

Lemma Cost_ltb_le a b : Cost_ltb a b = true -> Cost_le a b.
Proof.
  destruct a, b; simpl; try discriminate; auto.
  intros H. apply Z.ltb_lt in H. lia.
Qed.

Lemma Cost_ltb_ge a b : Cost_ltb a b = false -> Cost_le b a.
Proof.
  destruct a, b; simpl; try discriminate; auto.
  intros H. apply Z.ltb_ge in H. lia.
Qed.

Lemma findPathWithRefueling_unfold gs start goal fuel :
  findPathWithRefueling gs start goal fuel =
  if path_success (findPath gs start goal fuel true)
  then findPath gs start goal fuel true
  else fst (fold_left (tryWaypoint gs start goal fuel)
              (filter (fun p => manhattanDistance start (pellet_position p)
                                <=? fuel)
                      (getAllPellets gs))
              (findPath gs start goal fuel true, Infinity)).
Proof.
  unfold findPathWithRefueling.
  destruct (path_success (findPath gs start goal fuel true)); [reflexivity|].
  destruct (filter _ (getAllPellets gs)); reflexivity.
Qed.

(** What the loop over the waypoints has established after the pellets
    [seen], starting from the failed direct path. *)
Lemma waypoint_fold gs start goal fuel direct pellets0 :
  forall seen best,
    (forall p, In p seen -> Cost_le (snd best) (twoLegTotal gs start goal fuel p)) ->
    ((fst best = direct /\ snd best = Infinity) \/
     (path_success (fst best) = true /\
      path_totalCost (fst best) = snd best /\
      Walk start goal (path_nodes (fst best)) /\
      exists p, In p seen /\ snd best = twoLegTotal gs start goal fuel p)) ->
    let final := fold_left (tryWaypoint gs start goal fuel) pellets0 best in
    (forall p, In p (seen ++ pellets0) ->
               Cost_le (snd final) (twoLegTotal gs start goal fuel p)) /\
    ((fst final = direct /\ snd final = Infinity) \/
     (path_success (fst final) = true /\
      path_totalCost (fst final) = snd final /\
      Walk start goal (path_nodes (fst final)) /\
      exists p, In p (seen ++ pellets0) /\
                snd final = twoLegTotal gs start goal fuel p)).
Proof.
  induction pellets0 as [|q rest IH]; intros seen best Hle Hbest.
  - cbn [fold_left]. rewrite app_nil_r. auto.
  - cbn [fold_left].
    replace (seen ++ q :: rest) with ((seen ++ [q]) ++ rest)
      by (rewrite <- app_assoc; reflexivity).
    apply IH.
    + pose proof (tryWaypoint_twoLegTotal gs start goal fuel best q) as T.
      cbv zeta in T.
      destruct (Cost_ltb (twoLegTotal gs start goal fuel q) (snd best)) eqn:L.
      * destruct T as (-> & _). intros p Hp.
        apply in_app_iff in Hp as [Hp|[<-|[]]]; [|apply Cost_le_refl].
        apply Cost_le_trans with (snd best); [now apply Cost_ltb_le | auto].
      * rewrite T. intros p Hp.
        apply in_app_iff in Hp as [Hp|[<-|[]]]; [auto | now apply Cost_ltb_ge].
    + pose proof (tryWaypoint_twoLegTotal gs start goal fuel best q) as T.
      cbv zeta in T.
      destruct (Cost_ltb (twoLegTotal gs start goal fuel q) (snd best)) eqn:L.
      * destruct T as (E1 & E2 & E3 & E4 & S1 & S2). right.
        split; [exact E3|]. split; [congruence|]. split.
        -- rewrite E4. apply Walk_join with (pellet_position q).
           ++ apply (findPath_is_walk _ _ _ _ _ S1).
           ++ apply (findPath_is_walk _ _ _ _ _ S2).
        -- exists q. split; [apply in_app_iff; right; now left | exact E1].
      * rewrite T. destruct Hbest as [Hd|(Hs & Hc & Hw & p & Hp & Ep)];
          [left; exact Hd|].
        right. split; [exact Hs|]. split; [exact Hc|]. split; [exact Hw|].
        exists p. split; [apply in_app_iff; now left | exact Ep].
Qed.

Lemma findPathWithRefueling_cases gs start goal fuel :
  (path_success (findPath gs start goal fuel true) = true ->
   findPathWithRefueling gs start goal fuel = findPath gs start goal fuel true)
  /\
  (path_success (findPathWithRefueling gs start goal fuel) = false ->
   findPathWithRefueling gs start goal fuel = failedPath)
  /\
  (path_success (findPathWithRefueling gs start goal fuel) = true ->
   Walk start goal (path_nodes (findPathWithRefueling gs start goal fuel))).
Proof.
  rewrite findPathWithRefueling_unfold.
  destruct (path_success (findPath gs start goal fuel true)) eqn:S0.
  - split; [reflexivity|]. split; [congruence|].
    intros _. apply (findPath_is_walk _ _ _ _ _ S0).
  - split; [discriminate|].
    match goal with |- context [fold_left _ ?l ?b] =>
      destruct (waypoint_fold gs start goal fuel
                  (findPath gs start goal fuel true) l [] b)
        as [_ H]; [intros p [] | left; split; reflexivity |] end.
    cbv zeta in H.
    destruct H as [[-> _]|(Hs & _ & Hw & _)].
    + split; [|congruence]. intros _. now apply findPath_failure.
    + split; [congruence | auto].
Qed.

(** X5: [findPathWithRefueling] returns the direct path when that
    succeeds; a failure is always the failed path; a success is always a
    walk from the start to the goal by generated moves. *)
Theorem X5_findPathWithRefueling_shape (gs : GameState) (start goal : Position)
    (fuel : Z) :
  (path_success (findPath gs start goal fuel true) = true ->
   findPathWithRefueling gs start goal fuel = findPath gs start goal fuel true)
  /\
  (path_success (findPathWithRefueling gs start goal fuel) = false ->
   findPathWithRefueling gs start goal fuel = failedPath)
  /\
  (path_success (findPathWithRefueling gs start goal fuel) = true ->
   Walk start goal (path_nodes (findPathWithRefueling gs start goal fuel))).
Proof. apply findPathWithRefueling_cases. Qed.

Lemma X5_findPathWithRefueling_shape_witness :
  Walk (mkPosition 10 0) origin
       (path_nodes (findPathWithRefueling twoPellets (mkPosition 10 0) origin 3))
  /\ findPathWithRefueling emptyWorld (mkPosition 50 0) origin 5 = failedPath.
Proof.
  split.
  - apply (proj2 (proj2 (X5_findPathWithRefueling_shape twoPellets
                           (mkPosition 10 0) origin 3))).
    vm_compute. reflexivity.
  - apply (proj1 (proj2 (X5_findPathWithRefueling_shape emptyWorld
                           (mkPosition 50 0) origin 5))).
    vm_compute. reflexivity.
Defined.

(** X6: when the direct search fails, the cost of the result of
    [findPathWithRefueling] is the least two-leg total over the pellets
    within reach of the start: no such pellet gives a cheaper total, and
    a successful result has the total of one of them. *)
Theorem X6_findPathWithRefueling_cheapest (gs : GameState)
    (start goal : Position) (fuel : Z) :
  path_success (findPath gs start goal fuel true) = false ->
  (forall pellet,
     In pellet (getAllPellets gs) ->
     manhattanDistance start (pellet_position pellet) <= fuel ->
     Cost_le (path_totalCost (findPathWithRefueling gs start goal fuel))
             (twoLegTotal gs start goal fuel pellet))
  /\
  (path_success (findPathWithRefueling gs start goal fuel) = true ->
   exists pellet,
     In pellet (getAllPellets gs) /\
     manhattanDistance start (pellet_position pellet) <= fuel /\
     path_totalCost (findPathWithRefueling gs start goal fuel)
     = twoLegTotal gs start goal fuel pellet).
Proof.
  intros S0. rewrite findPathWithRefueling_unfold, S0.
  match goal with |- context [fold_left _ ?l ?b] =>
    destruct (waypoint_fold gs start goal fuel
                (findPath gs start goal fuel true) l [] b)
      as [Hle H]; [intros p [] | left; split; reflexivity |] end.
  cbv zeta in Hle, H. cbn [app] in Hle, H.
  assert (Hcost :
    Cost_le
      (path_totalCost
         (fst (fold_left (tryWaypoint gs start goal fuel)
                 (filter (fun p => manhattanDistance start (pellet_position p)
                                   <=? fuel) (getAllPellets gs))
                 (findPath gs start goal fuel true, Infinity))))
      (snd (fold_left (tryWaypoint gs start goal fuel)
              (filter (fun p => manhattanDistance start (pellet_position p)
                                <=? fuel) (getAllPellets gs))
              (findPath gs start goal fuel true, Infinity)))).
  { destruct H as [[-> ->]|(_ & -> & _)]; [|apply Cost_le_refl].
    rewrite (findPath_failure _ _ _ _ _ S0). exact I. }
  split.
  - intros pellet Hin Hd.
    eapply Cost_le_trans; [exact Hcost|]. apply Hle.
    apply filter_In. split; [exact Hin | now apply Z.leb_le].
  - intros Hs. destruct H as [[E _]|(_ & Ec & _ & p & Hp & Ep)];
      [rewrite E in Hs; congruence|].
    apply filter_In in Hp as [Hin Hd]. apply Z.leb_le in Hd.
    exists p. repeat split; auto. congruence.
Qed.

Lemma X6_findPathWithRefueling_cheapest_witness :
  Cost_le
    (path_totalCost (findPathWithRefueling twoPellets (mkPosition 10 0) origin 3))
    (twoLegTotal twoPellets (mkPosition 10 0) origin 3
                 (mkPellet (mkPosition 7 0) 5)).
Proof.
  apply (proj1 (X6_findPathWithRefueling_cheapest twoPellets (mkPosition 10 0)
                  origin 3 ltac:(vm_compute; reflexivity))).
  - vm_compute. tauto.
  - vm_compute. discriminate.
Defined.

(* ------------------------------------------------------------------ *)
(** *** Replaying a path *)

Lemma simulateLoop_prefix gs r1 r2 :
  forall fuel,
    simulateLoop gs (r1 ++ r2) fuel = true -> simulateLoop gs r1 fuel = true.
Proof.
  induction r1 as [|p r1 IH]; intros fuel; simpl; [reflexivity|].
  destruct (fuel - 1 <? 0); [discriminate | apply IH].
Qed.

Lemma refuelAt_no_pellet gs p fuel :
  getPelletAt gs p = None -> refuelAt gs p fuel = fuel.
Proof. unfold refuelAt. now intros ->. Qed.

Lemma simulateLoop_no_pellets gs rest :
  (forall p, In p rest -> getPelletAt gs p = None) ->
  forall fuel,
    0 <= fuel ->
    (simulateLoop gs rest fuel = true <-> Z.of_nat (List.length rest) <= fuel).
Proof.
  induction rest as [|p rest IH]; intros Hnone fuel H0.
  - simpl. split; [intros _; exact H0 | reflexivity].
  - cbn [simulateLoop List.length]. rewrite Nat2Z.inj_succ.
    destruct (Z.ltb_spec (fuel - 1) 0) as [Hlt|Hge].
    + split; [discriminate | lia].
    + rewrite refuelAt_no_pellet by (apply Hnone; now left).
      rewrite IH; [lia | intros q Hq; apply Hnone; now right | lia].
Qed.

Lemma simulateLoop_enough_fuel gs rest :
  PelletsNonNegative gs ->
  forall fuel,
    fuel <= maxShipFuel GAME_CONFIG ->
    Z.of_nat (List.length rest) <= fuel ->
    simulateLoop gs rest fuel = true.
Proof.
  intros Hnn. induction rest as [|p rest IH]; intros fuel Hcap Hlen;
    [reflexivity|].
  cbn [simulateLoop List.length] in *. rewrite Nat2Z.inj_succ in Hlen.
  destruct (Z.ltb_spec (fuel - 1) 0) as [Hlt|Hge]; [lia|].
  apply IH.
  - apply refuelAt_capped. lia.
  - pose proof (refuelAt_gains gs p (fuel - 1) Hnn). lia.
Qed.

(** X7: [simulatePath]: a path that replays has every prefix replay;
    where no cell after the first holds a pellet, a path replays exactly
    when it has no more steps than fuel; and with a tank within capacity
    and no negative pellet, any path of no more steps than fuel replays. *)
Theorem X7_simulatePath_steps (gs : GameState) (path : list Position)
    (fuel : Z) :
  (forall prefix rest,
     path = prefix ++ rest ->
     simulatePath gs path fuel = true -> simulatePath gs prefix fuel = true)
  /\
  (0 <= fuel ->
   (forall p, In p (tl path) -> getPelletAt gs p = None) ->
   (simulatePath gs path fuel = true
    <-> Z.of_nat (List.length (tl path)) <= fuel))
  /\
  (PelletsNonNegative gs -> fuel <= maxShipFuel GAME_CONFIG ->
   Z.of_nat (List.length (tl path)) <= fuel ->
   simulatePath gs path fuel = true).
Proof.
  unfold simulatePath. split; [|split].
  - intros prefix rest -> H. destruct prefix as [|a prefix]; [reflexivity|].
    now apply simulateLoop_prefix with rest.
  - intros H0 Hnone. now apply simulateLoop_no_pellets.
  - intros Hnn Hcap Hlen. now apply simulateLoop_enough_fuel.
Qed.

Lemma X7_simulatePath_steps_witness :
  simulatePath twoPellets [mkPosition 9 0; mkPosition 8 0] 3 = true
  /\ (simulatePath emptyWorld [mkPosition 2 0; mkPosition 1 0; origin] 1 = true
      <-> 2 <= 1)
  /\ simulatePath twoPellets [mkPosition 9 0; mkPosition 8 0; mkPosition 7 0] 2
     = true.
Proof.
  split; [|split].
  - apply (proj1 (X7_simulatePath_steps twoPellets
                    [mkPosition 9 0; mkPosition 8 0; mkPosition 7 0] 3)
             [mkPosition 9 0; mkPosition 8 0] [mkPosition 7 0] eq_refl).
    vm_compute. reflexivity.
  - apply (proj1 (proj2 (X7_simulatePath_steps emptyWorld
                           [mkPosition 2 0; mkPosition 1 0; origin] 1))).
    + lia.
    + intros p _. reflexivity.
  - apply (proj2 (proj2 (X7_simulatePath_steps twoPellets
                           [mkPosition 9 0; mkPosition 8 0; mkPosition 7 0] 2))).
    + exact twoPellets_nonnegative.
    + vm_compute. discriminate.
    + vm_compute. discriminate.
Defined.

(* ------------------------------------------------------------------ *)
(** *** Planned fuel stops *)

Lemma planFuelStopsLoop_acc gs rest :
  forall fuel acc,
    planFuelStopsLoop gs rest fuel acc
    = acc ++ planFuelStopsLoop gs rest fuel [].
Proof.
  induction rest as [|p rest IH]; intros fuel acc; cbn [planFuelStopsLoop].
  - now rewrite app_nil_r.
  - destruct (fuel - 1 <? 0); [now rewrite app_nil_r|].
    destruct (getPelletAt gs p) as [pellet|]; [|apply IH].
    destruct (fuel - 1 <? maxShipFuel GAME_CONFIG); [|apply IH].
    rewrite (IH _ (acc ++ [p])), (IH _ ([] ++ [p])), <- app_assoc.
    reflexivity.
Qed.

Lemma Subsequence_nil_l {A} (l : list A) : Subsequence [] l.
Proof. induction l; constructor; assumption. Qed.

Lemma planFuelStopsLoop_subsequence gs rest :
  forall fuel,
    Subsequence (planFuelStopsLoop gs rest fuel [])
                (filter (hasPelletAtPosition gs) rest).
Proof.
  induction rest as [|p rest IH]; intros fuel;
    cbn [planFuelStopsLoop filter]; [constructor|].
  unfold hasPelletAtPosition at 1.
  destruct (fuel - 1 <? 0).
  - apply Subsequence_nil_l.
  - destruct (getPelletAt gs p) as [pellet|]; [|apply IH].
    destruct (fuel - 1 <? maxShipFuel GAME_CONFIG).
    + rewrite planFuelStopsLoop_acc. cbn [app].
      apply Subsequence_keep, IH.
    + apply Subsequence_skip, IH.
Qed.

Lemma Subsequence_In {A} (l1 l2 : list A) x :
  Subsequence l1 l2 -> In x l1 -> In x l2.
Proof.
  induction 1 as [|a l1 l2 H IH|a l1 l2 H IH]; simpl; intuition.
Qed.

(** X8: [planFuelStops] reports, in path order, only cells after the
    first that hold a pellet; run on a path found by [findPath], its
    stops are among the fuel stops of that path. *)
Theorem X8_planFuelStops_cells (gs : GameState) (path : list Position)
    (fuel : Z) :
  Subsequence (planFuelStops gs path fuel)
              (filter (hasPelletAtPosition gs) (tl path))
  /\
  (forall stop, In stop (planFuelStops gs path fuel) ->
                In stop (tl path) /\ getPelletAt gs stop <> None)
  /\
  (forall start goal cp,
     path = path_nodes (findPath gs start goal fuel cp) ->
     path_success (findPath gs start goal fuel cp) = true ->
     Subsequence (planFuelStops gs path fuel)
                 (path_fuelStops (findPath gs start goal fuel cp))).
Proof.
  pose proof (planFuelStopsLoop_subsequence gs (tl path) fuel) as Hsub.
  split; [exact Hsub|]. split.
  - intros stop Hin. apply (Subsequence_In _ _ _ Hsub) in Hin.
    apply filter_In in Hin as [Hin Hp]. split; [exact Hin|].
    unfold hasPelletAtPosition in Hp.
    destruct (getPelletAt gs stop); [discriminate | discriminate].
  - intros start goal cp -> Hs.
    apply findPath_success_node in Hs as (c & _ & _ & _ & E).
    rewrite E in *. destruct (reconstructPath_nodes gs c) as [En _].
    unfold reconstructPath in *.
    pose proof (reconstructLoop_stops gs c [] [] 0) as H.
    destruct (reconstructLoop gs c [] [] 0) as [[nodes stops] cost].
    cbn [fst snd path_fuelStops path_nodes] in *.
    rewrite app_nil_r in H. subst. exact Hsub.
Qed.

Lemma X8_planFuelStops_cells_witness :
  Subsequence
    (planFuelStops twoPellets
       (path_nodes (findPath twoPellets (mkPosition 8 0) origin 5 true)) 5)
    (path_fuelStops (findPath twoPellets (mkPosition 8 0) origin 5 true)).
Proof.
  apply (proj2 (proj2 (X8_planFuelStops_cells twoPellets
                         (path_nodes
                            (findPath twoPellets (mkPosition 8 0) origin 5 true))
                         5))
           (mkPosition 8 0) origin true eq_refl).
  vm_compute. reflexivity.
Defined.

(* ------------------------------------------------------------------ *)
(** *** The refuelling policy, continued *)

Lemma reachable_nonempty gs position fuel :
  getReachablePellets gs position fuel <> [] <->
  exists pellet,
    In pellet (getAllPellets gs) /\
    manhattanDistance position (pellet_position pellet) <= fuel.
Proof.
  unfold getReachablePellets. split.
  - destruct (getPelletsWithinDistance gs position fuel) as [|p l] eqn:E;
      [congruence|]. intros _. exists p.
    apply In_getPelletsWithinDistance. rewrite E. now left.
  - intros (p & Hin & Hd) E.
    assert (X : In p (getPelletsWithinDistance gs position fuel))
      by (apply In_getPelletsWithinDistance; auto).
    rewrite E in X. exact X.
Qed.

(** X9: the decision of [needsRefueling] after [updateStrategy]: true
    with an empty tank; otherwise true exactly when the fuel does not
    cover the distance to the origin, some pellet is within reach, and
    the fuel is below 3 when fewer than 10 pellets were counted, below 2
    when 10 or more were. *)
Theorem X9_needsRefueling_decision (pelletsCount : Z) (gs : GameState)
    (fuel : Z) (position : Position) :
  needsRefueling (updateStrategy pelletsCount) gs fuel position = true <->
  fuel = 0 \/
  (fuel < manhattanDistance position origin /\
   (exists pellet,
      In pellet (getAllPellets gs) /\
      manhattanDistance position (pellet_position pellet) <= fuel) /\
   fuel < (if pelletsCount <? 10 then 3 else 2)).
Proof.
  unfold needsRefueling, updateStrategy. cbn [conservativeMode].
  destruct (Z.eqb_spec fuel 0) as [->|Hne]; [tauto|].
  destruct (Z.geb_spec fuel (manhattanDistance position origin)) as [Hge|Hlt].
  - split; [discriminate | lia].
  - destruct (Nat.eqb (List.length (getReachablePellets gs position fuel)) 0)
      eqn:E.
    + apply length_zero_nil in E. split; [discriminate|].
      intros [?|(_ & Hex & _)]; [contradiction|].
      apply reachable_nonempty in Hex. contradiction.
    + assert (Hex : getReachablePellets gs position fuel <> []).
      { intros H. apply length_zero_nil in H. congruence. }
      apply reachable_nonempty in Hex.
      destruct (pelletsCount <? 10); cbn [andb].
      * destruct (Z.ltb_spec fuel 3).
        -- split; [intros _; right; auto | reflexivity].
        -- rewrite Z.ltb_lt. split; [lia | intros [?|(_ & _ & ?)]; lia].
      * rewrite Z.ltb_lt. split; [intros; right; auto|].
        intros [?|(_ & _ & ?)]; lia.
Qed.

Lemma findBestRefuelTarget_found gs position fuel :
  getReachablePellets gs position fuel <> [] ->
  exists target,
    findBestRefuelTarget gs position fuel = Some target /\
    In target (getReachablePellets gs position fuel).
Proof.
  intros Hne. unfold findBestRefuelTarget.
  destruct (Nat.eqb (List.length (getReachablePellets gs position fuel)) 0)
    eqn:E; [apply length_zero_nil in E; contradiction|].
  match goal with |- context [js_sort ?f ?l] =>
    destruct (js_sort f l) as [|h t] eqn:S end.
  - apply js_sort_nil, map_eq_nil in S. contradiction.
  - exists (fst h). split; [reflexivity|].
    match type of S with js_sort ?f ?l = _ =>
      assert (Hh : In h l)
        by (apply (In_js_sort f); rewrite S; now left) end.
    apply in_map_iff in Hh as (p & <- & Hp). exact Hp.
Qed.

(** X10: when [needsRefueling] asks for fuel with a tank that is not
    empty, [findBestRefuelTarget] always has a target, which lies within
    the fuel at hand. *)
Theorem X10_refuel_target_exists (fm : FuelManager) (gs : GameState)
    (fuel : Z) (position : Position) :
  fuel <> 0 ->
  needsRefueling fm gs fuel position = true ->
  exists target,
    findBestRefuelTarget gs position fuel = Some target /\
    In target (getAllPellets gs) /\
    manhattanDistance position (pellet_position target) <= fuel.
Proof.
  intros Hne Hneed.
  assert (Hr : getReachablePellets gs position fuel <> []).
  { intros E. rewrite needsRefueling_nothing_in_reach in Hneed by assumption.
    discriminate. }
  destruct (findBestRefuelTarget_found _ _ _ Hr) as (t & Et & Hin).
  exists t. split; [exact Et|].
  now apply In_getPelletsWithinDistance in Hin.
Qed.

Lemma X10_refuel_target_exists_witness :
  exists target,
    findBestRefuelTarget twoPellets (mkPosition 8 0) 1 = Some target /\
    In target (getAllPellets twoPellets) /\
    manhattanDistance (mkPosition 8 0) (pellet_position target) <= 1.
Proof.
  apply (X10_refuel_target_exists newFuelManager);
    [discriminate | vm_compute; reflexivity].
Defined.

Lemma canReachOrigin_numbers gs position fuel :
  canReachOrigin gs position fuel = true <->
  manhattanDistanceNumber position origin <= fuel \/
  exists pellet,
    In pellet (getAllPellets gs) /\
    manhattanDistanceNumber position (pellet_position pellet) <= fuel /\
    manhattanDistanceNumber (pellet_position pellet) origin
    < manhattanDistanceNumber position origin.
Proof.
  unfold canReachOrigin.
  destruct (Z.geb_spec fuel (manhattanDistanceNumber position origin))
    as [Hge|Hlt].
  - split; [left; lia | reflexivity].
  - match goal with |- context [filter ?f ?l] =>
      destruct (filter f l) as [|p rest] eqn:E end.
    + split; [discriminate|]. intros [?|(p & Hin & Hd & Hc)]; [lia|].
      match type of E with filter ?f ?l = [] =>
        assert (X : In p (filter f l)) end.
      { apply filter_In. split; [exact Hin|].
        apply andb_true_iff. split; [now apply Z.leb_le | now apply Z.ltb_lt]. }
      rewrite E in X. destruct X.
    + split; [intros _|reflexivity]. right. exists p.
      match type of E with filter ?f ?l = _ =>
        assert (X : In p (filter f l)) by (rewrite E; now left) end.
      apply filter_In in X as [Hin Hb]. apply andb_true_iff in Hb as [H1 H2].
      apply Z.leb_le in H1. apply Z.ltb_lt in H2. auto.
Qed.

(** X11: while the coordinates of the ship and of every pellet are at
    most 2^51 in magnitude, so that every distance is converted
    exactly, [canReachOrigin] is true exactly when the fuel covers the
    distance to the origin or some pellet within the fuel lies strictly
    closer to the origin than the ship; and, whatever the coordinates,
    adding fuel never turns it false. *)
Theorem X11_canReachOrigin (gs : GameState) (position : Position)
    (fuel : Z) :
  (PositionWithin (2 ^ 51) position ->
   (forall pellet, In pellet (getAllPellets gs) ->
                   PositionWithin (2 ^ 51) (pellet_position pellet)) ->
   (canReachOrigin gs position fuel = true <->
    manhattanDistance position origin <= fuel \/
    exists pellet,
      In pellet (getAllPellets gs) /\
      manhattanDistance position (pellet_position pellet) <= fuel /\
      manhattanDistance (pellet_position pellet) origin
      < manhattanDistance position origin))
  /\
  (forall more,
     fuel <= more ->
     canReachOrigin gs position fuel = true ->
     canReachOrigin gs position more = true).
Proof.
  split.
  - intros Hpos Hpellets.
    assert (Ho : PositionWithin (2 ^ 51) origin)
      by (apply origin_within; discriminate).
    assert (Hex : forall a b,
              PositionWithin (2 ^ 51) a -> PositionWithin (2 ^ 51) b ->
              manhattanDistanceNumber a b = manhattanDistance a b).
    { intros a b Ha Hb. apply manhattanDistanceNumber_exact.
      pose proof (manhattanDistance_within _ _ _ Ha Hb) as [_ H].
      change (4 * 2 ^ 51) with (2 ^ 53) in H. exact H. }
    rewrite canReachOrigin_numbers. rewrite (Hex _ _ Hpos Ho).
    split; (intros [H|(p & Hin & Hd & Hc)]; [now left|]; right; exists p;
            specialize (Hpellets _ Hin)).
    + rewrite (Hex _ _ Hpos Hpellets) in Hd.
      rewrite (Hex _ _ Hpellets Ho) in Hc. auto.
    + rewrite (Hex _ _ Hpos Hpellets), (Hex _ _ Hpellets Ho). auto.
  - intros more Hle H. apply canReachOrigin_numbers in H.
    apply canReachOrigin_numbers.
    destruct H as [H|(p & Hin & Hd & Hc)]; [left; lia|].
    right. exists p. repeat split; auto. lia.
Qed.

Lemma twoPellets_within : forall pellet,
  In pellet (getAllPellets twoPellets) ->
  PositionWithin (2 ^ 51) (pellet_position pellet).
Proof.
  intros pellet Hin. vm_compute in Hin.
  destruct Hin as [<-|[<-|[]]]; split; vm_compute; discriminate.
Qed.

Lemma X11_canReachOrigin_witness :
  (manhattanDistance (mkPosition 9 0) origin <= 2 \/
   exists pellet,
     In pellet (getAllPellets twoPellets) /\
     manhattanDistance (mkPosition 9 0) (pellet_position pellet) <= 2 /\
     manhattanDistance (pellet_position pellet) origin
     < manhattanDistance (mkPosition 9 0) origin)
  /\ canReachOrigin twoPellets (mkPosition 9 0) 4 = true.
Proof.
  split.
  - apply (proj1 (X11_canReachOrigin twoPellets (mkPosition 9 0) 2)).
    + split; vm_compute; discriminate.
    + exact twoPellets_within.
    + vm_compute. reflexivity.
  - apply (proj2 (X11_canReachOrigin twoPellets (mkPosition 9 0) 2) 4);
      [lia | vm_compute; reflexivity].
Defined.

Lemma hasPelletOnPath_iff gs from to fuel :
  hasPelletOnPath gs from to fuel = true <->
  exists pellet,
    In pellet (getAllPellets gs) /\
    manhattanDistance from (pellet_position pellet) <= fuel /\
    manhattanDistance (pellet_position pellet) to
    <= Z.min (maxShipFuel GAME_CONFIG)
             (fuel - manhattanDistance from (pellet_position pellet)
              + pellet_fuel pellet).
Proof.
  unfold hasPelletOnPath. rewrite existsb_exists.
  split; intros (p & Hin & H); exists p; (split; [exact Hin|]).
  - destruct (Z.leb_spec (manhattanDistance from (pellet_position p)) fuel);
      [|discriminate].
    split; [assumption|]. apply Z.geb_le in H. lia.
  - destruct H as [Hd Hc].
    destruct (Z.leb_spec (manhattanDistance from (pellet_position p)) fuel);
      [|lia].
    apply Z.geb_le. lia.
Qed.

(** X13: the one-hop lookahead [hasPelletOnPath] is true exactly when
    some pellet is within the fuel at hand and the fuel after going
    there and refuelling, capped at the capacity, covers the distance
    from the pellet to the goal: its refuel arithmetic agrees with the
    cap used by the search and the replay. *)
Theorem X13_hasPelletOnPath (gs : GameState) (from to : Position)
    (fuel : Z) :
  hasPelletOnPath gs from to fuel = true <->
  exists pellet,
    In pellet (getAllPellets gs) /\
    manhattanDistance from (pellet_position pellet) <= fuel /\
    manhattanDistance (pellet_position pellet) to
    <= Z.min (maxShipFuel GAME_CONFIG)
             (fuel - manhattanDistance from (pellet_position pellet)
              + pellet_fuel pellet).
Proof. apply hasPelletOnPath_iff. Qed.

(* ------------------------------------------------------------------ *)
(** *** Queries on the snapshot *)

Section SortedInsert.
Context {A : Type} (key : A -> Z).

Lemma sort_insert_HdRel a x l :
  HdRel (fun u v => key u <= key v) x l ->
  key x <= key a ->
  HdRel (fun u v => key u <= key v) x
        (sort_insert (fun u v => key u - key v <? 0) a l).
Proof.
  intros H Hxa. destruct l as [|b l]; simpl; [now constructor|].
  destruct (key b - key a <? 0); constructor; auto.
  now inversion H.
Qed.

Lemma sort_insert_Sorted a l :
  Sorted (fun u v => key u <= key v) l ->
  Sorted (fun u v => key u <= key v)
         (sort_insert (fun u v => key u - key v <? 0) a l).
Proof.
  induction 1 as [|b l Hs IH Hd]; simpl; [repeat constructor|].
  destruct (Z.ltb_spec (key b - key a) 0) as [Hlt|Hge].
  - constructor; [exact IH|]. apply sort_insert_HdRel; [exact Hd | lia].
  - constructor; [now constructor|]. constructor. lia.
Qed.

Lemma js_sort_Sorted l :
  Sorted (fun u v => key u <= key v)
         (js_sort (fun u v => key u - key v <? 0) l).
Proof.
  induction l as [|a l IH]; simpl; [constructor|].
  now apply sort_insert_Sorted.
Qed.
End SortedInsert.

Lemma sort_insert_Permutation {A} (before : A -> A -> bool) a l :
  Permutation (sort_insert before a l) (a :: l).
Proof.
  induction l as [|b l IH]; simpl; [reflexivity|].
  destruct (before b a); [|reflexivity].
  rewrite IH. apply perm_swap.
Qed.

Lemma js_sort_Permutation {A} (before : A -> A -> bool) l :
  Permutation (js_sort before l) l.
Proof.
  induction l as [|a l IH]; simpl; [reflexivity|].
  rewrite sort_insert_Permutation. now constructor.
Qed.

(** X14: [getPelletsWithinDistance] returns the pellets of the snapshot
    at distance at most [maxDistance], each as often as the snapshot
    holds it, in order of increasing distance. *)
Theorem X14_getPelletsWithinDistance (gs : GameState) (position : Position)
    (maxDistance : Z) :
  Permutation
    (getPelletsWithinDistance gs position maxDistance)
    (filter (fun pellet =>
               manhattanDistance position (pellet_position pellet)
               <=? maxDistance)
            (getAllPellets gs))
  /\
  Sorted (fun a b =>
            manhattanDistance position (pellet_position a)
            <= manhattanDistance position (pellet_position b))
         (getPelletsWithinDistance gs position maxDistance)
  /\
  (forall pellet,
     In pellet (getPelletsWithinDistance gs position maxDistance) <->
     In pellet (getAllPellets gs) /\
     manhattanDistance position (pellet_position pellet) <= maxDistance).
Proof.
  split; [|split].
  - apply js_sort_Permutation.
  - apply (js_sort_Sorted
             (fun p => manhattanDistance position (pellet_position p))).
  - intros pellet. apply In_getPelletsWithinDistance.
Qed.

Lemma map_get_delete_same {V} k (m : JsMap V) :
  NoDup (map_keys m) -> map_get k (map_delete k m) = None.
Proof.
  unfold map_keys. induction m as [|[k' v] m IH]; simpl; [reflexivity|].
  intros Hnd. inversion Hnd as [|? ? Hnotin Hnd']; subst.
  destruct (String.eqb_spec k k') as [->|Hne].
  - destruct (map_get k' m) as [v'|] eqn:E; [|reflexivity].
    exfalso. apply Hnotin. apply map_get_In in E.
    change k' with (fst (k', v')). now apply in_map.
  - simpl. destruct (String.eqb_spec k k'); [contradiction | auto].
Qed.

Lemma map_get_delete_other {V} k k' (m : JsMap V) :
  k' <> k -> map_get k' (map_delete k m) = map_get k' m.
Proof.
  intros Hne. induction m as [|[k0 v] m IH]; simpl; [reflexivity|].
  destruct (String.eqb_spec k k0) as [->|Hk].
  - destruct (String.eqb_spec k' k0); [contradiction | reflexivity].
  - simpl. destruct (String.eqb k' k0); [reflexivity | exact IH].
Qed.

Lemma In_map_delete {V} k (m : JsMap V) e :
  In e (map_delete k m) -> In e m.
Proof.
  induction m as [|[k0 v] m IH]; simpl; [auto|].
  destruct (String.eqb k k0); [auto|]. intros [<-|H]; auto.
Qed.

Lemma NoDup_map_delete {V} k (m : JsMap V) :
  NoDup (map_keys m) -> NoDup (map_keys (map_delete k m)).
Proof.
  unfold map_keys. induction m as [|[k0 v] m IH]; simpl; [auto|].
  intros Hnd. inversion Hnd as [|? ? Hnotin Hnd']; subst.
  destruct (String.eqb k k0); [exact Hnd'|]. simpl. constructor; [|auto].
  intros Hin. apply Hnotin. apply in_map_iff in Hin as (e & <- & He).
  apply in_map. now apply In_map_delete in He.
Qed.

Lemma In_map_delete_other {V} k (m : JsMap V) e :
  In e m -> fst e <> k -> In e (map_delete k m).
Proof.
  induction m as [|[k0 v] m IH]; simpl; [auto|].
  intros [<-|H] Hne.
  - cbn [fst] in Hne. destruct (String.eqb_spec k k0); [congruence | now left].
  - destruct (String.eqb k k0); [exact H | right; auto].
Qed.

Lemma removePellet_keyed gs position :
  PelletsKeyed gs -> PelletsKeyed (removePellet gs position).
Proof.
  intros [Hk Hn]. split; cbn [removePellet pellets].
  - now apply Forall_map_delete.
  - now apply NoDup_map_delete.
Qed.

Lemma removePellet_gone gs position :
  PelletsKeyed gs -> getPelletAt (removePellet gs position) position = None.
Proof.
  intros [_ Hn]. unfold getPelletAt. cbn [removePellet pellets].
  now apply map_get_delete_same.
Qed.

Lemma removePellet_other gs position other :
  other <> position ->
  getPelletAt (removePellet gs position) other = getPelletAt gs other.
Proof.
  intros Hne. unfold getPelletAt. cbn [removePellet pellets].
  apply map_get_delete_other. intros E. apply positionToKey_inj in E.
  contradiction.
Qed.

Lemma removePellet_listed gs position pellet :
  In pellet (getAllPellets (removePellet gs position)) ->
  In pellet (getAllPellets gs).
Proof.
  unfold getAllPellets, map_values. cbn [removePellet pellets].
  intros H. apply in_map_iff in H as (e & <- & He).
  apply in_map. now apply In_map_delete in He.
Qed.

(** X15: [removePellet] on a well-keyed snapshot: the cell no longer
    holds a pellet, every other cell answers as before, the remaining
    pellets are those of the snapshot that sit elsewhere, and the
    snapshot stays well keyed. *)
Theorem X15_removePellet (gs : GameState) (position : Position) :
  PelletsKeyed gs ->
  getPelletAt (removePellet gs position) position = None
  /\ (forall other, other <> position ->
        getPelletAt (removePellet gs position) other = getPelletAt gs other)
  /\ (forall pellet,
        In pellet (getAllPellets (removePellet gs position)) <->
        In pellet (getAllPellets gs) /\ pellet_position pellet <> position)
  /\ PelletsKeyed (removePellet gs position).
Proof.
  intros Hk. split; [now apply removePellet_gone|].
  split; [intros other; apply removePellet_other|].
  split; [|now apply removePellet_keyed].
  intros pellet. split.
  - intros Hin. split; [now apply removePellet_listed in Hin|].
    intros E. pose proof (removePellet_keyed gs position Hk) as Hk'.
    apply (getPelletAt_stored _ _ Hk') in Hin. rewrite E in Hin.
    rewrite removePellet_gone in Hin by assumption. discriminate.
  - intros [Hin Hne]. destruct Hk as [Hkey Hn].
    unfold getAllPellets, map_values in *. cbn [removePellet pellets].
    apply in_map_iff in Hin as ([k p] & E & He). simpl in E. subst p.
    change pellet with (snd (k, pellet)). apply in_map.
    apply In_map_delete_other; [exact He|]. cbn [fst].
    rewrite Forall_forall in Hkey. specialize (Hkey _ He). simpl in Hkey.
    subst k. intros E. apply positionToKey_inj in E. contradiction.
Qed.

Lemma X15_removePellet_witness :
  getPelletAt (removePellet twoPellets (mkPosition 7 0)) (mkPosition 7 0) = None.
Proof.
  apply (X15_removePellet twoPellets (mkPosition 7 0)).
  apply loadPellets_keyed.
Defined.

Lemma map_get_set {V} k k' v (m : JsMap V) :
  map_get k' (map_set k v m) = if String.eqb k' k then Some v else map_get k' m.
Proof.
  induction m as [|[k0 v0] m IH]; simpl; [reflexivity|].
  destruct (String.eqb_spec k k0) as [->|Hk]; simpl.
  - destruct (String.eqb k' k0); reflexivity.
  - destruct (String.eqb_spec k' k0) as [->|Hk'].
    + destruct (String.eqb_spec k0 k); [congruence | reflexivity].
    + exact IH.
Qed.

Lemma positionToKey_eqb a b :
  String.eqb (positionToKey a) (positionToKey b) = Position_eqb b a.
Proof.
  destruct (String.eqb_spec (positionToKey a) (positionToKey b)) as [E|Hne].
  - apply positionToKey_inj in E. subst. symmetry. apply Position_eqb_refl.
  - symmetry. apply Position_eqb_neq. congruence.
Qed.

Lemma find_app_first {A} (f : A -> bool) l1 l2 :
  find f (l1 ++ l2) = match find f l1 with
                      | Some a => Some a
                      | None => find f l2
                      end.
Proof.
  induction l1 as [|a l1 IH]; simpl; [reflexivity|].
  destruct (f a); [reflexivity | exact IH].
Qed.

Lemma loadPellets_lookup ps position :
  forall m,
    map_get (positionToKey position)
            (fold_left
               (fun m p => map_set (positionToKey (pellet_position p)) p m) ps m)
    = match find (fun p => Position_eqb (pellet_position p) position) (rev ps) with
      | Some p => Some p
      | None => map_get (positionToKey position) m
      end.
Proof.
  induction ps as [|p ps IH]; intros m; [reflexivity|].
  cbn [fold_left rev]. rewrite IH, find_app_first.
  destruct (find _ (rev ps)); [reflexivity|].
  cbn [find]. rewrite map_get_set, positionToKey_eqb.
  destruct (Position_eqb (pellet_position p) position); reflexivity.
Qed.

(** X16: loading pellets the way [updatePellets] and [loadRealPellets]
    do: the snapshot is well keyed, each cell answers with the last
    pellet loaded for it, and with nothing when none was. *)
Theorem X16_loadPellets (ps : list Pellet) (ships0 : JsMap Ship)
    (position : Position) :
  PelletsKeyed {| pellets := loadPellets ps; ships := ships0 |}
  /\ getPelletAt {| pellets := loadPellets ps; ships := ships0 |} position
     = find (fun p => Position_eqb (pellet_position p) position) (rev ps)
  /\ (forall pellet,
        In pellet (getAllPellets {| pellets := loadPellets ps; ships := ships0 |})
        -> In pellet ps).
Proof.
  split; [apply loadPellets_keyed|]. split.
  - unfold getPelletAt, loadPellets. cbn [pellets].
    rewrite loadPellets_lookup. destruct (find _ (rev ps)); reflexivity.
  - intros pellet Hin.
    pose proof (loadPellets_keyed ps ships0) as Hk.
    apply (getPelletAt_stored _ _ Hk) in Hin.
    unfold getPelletAt, loadPellets in Hin. cbn [pellets] in Hin.
    rewrite loadPellets_lookup in Hin.
    destruct (find _ (rev ps)) as [p|] eqn:E; [|discriminate].
    injection Hin as ->. apply find_some in E as [E _].
    now apply in_rev in E.
Qed.

(* ------------------------------------------------------------------ *)
(** *** Pellet statistics *)

Lemma pelletStats_fold l :
  forall st,
    let final := fold_left pelletStatsStep l st in
    stats_q1 final + stats_q2 final + stats_q3 final + stats_q4 final
    = stats_q1 st + stats_q2 st + stats_q3 st + stats_q4 st
      + Z.of_nat (List.length l)
    /\ stats_totalFuel final
       = stats_totalFuel st + fold_right Z.add 0 (map pellet_fuel l)
    /\ Cost_le (stats_closestToOrigin final) (stats_closestToOrigin st)
    /\ (forall p, In p l ->
          Cost_le (stats_closestToOrigin final)
                  (Finite (manhattanDistanceNumber (pellet_position p) origin)))
    /\ (stats_closestToOrigin final = stats_closestToOrigin st \/
        exists p, In p l /\
          stats_closestToOrigin final
          = Finite (manhattanDistanceNumber (pellet_position p) origin)).
Proof.
  induction l as [|p l IH]; intros st.
  - cbv zeta. cbn [fold_left List.length map fold_right].
    split; [lia|]. split; [lia|]. split; [apply Cost_le_refl|].
    split; [intros ? [] | now left].
  - cbn [fold_left]. specialize (IH (pelletStatsStep st p)). cbv zeta in *.
    destruct IH as (Hq & Hf & Hc & Hall & Hex).
    set (final := fold_left pelletStatsStep l (pelletStatsStep st p)) in *.
    assert (Hstep :
      Cost_le (stats_closestToOrigin (pelletStatsStep st p))
              (stats_closestToOrigin st) /\
      Cost_le (stats_closestToOrigin (pelletStatsStep st p))
              (Finite (manhattanDistanceNumber (pellet_position p) origin)) /\
      (stats_closestToOrigin (pelletStatsStep st p) = stats_closestToOrigin st
       \/ stats_closestToOrigin (pelletStatsStep st p)
          = Finite (manhattanDistanceNumber (pellet_position p) origin))).
    { unfold pelletStatsStep. cbn [stats_closestToOrigin].
      destruct (Cost_ltb _ (stats_closestToOrigin st)) eqn:L.
      - split; [now apply Cost_ltb_le|]. split; [apply Cost_le_refl | now right].
      - split; [apply Cost_le_refl|]. split; [now apply Cost_ltb_ge | now left]. }
    destruct Hstep as (S1 & S2 & S3).
    split; [|split; [|split; [|split]]].
    + rewrite Hq. cbn [List.length]. rewrite Nat2Z.inj_succ.
      unfold pelletStatsStep. cbn [stats_q1 stats_q2 stats_q3 stats_q4].
      destruct (Z.geb_spec (pos_x (pellet_position p)) 0),
               (Z.geb_spec (pos_y (pellet_position p)) 0),
               (Z.ltb_spec (pos_x (pellet_position p)) 0),
               (Z.ltb_spec (pos_y (pellet_position p)) 0);
        cbn [andb]; lia.
    + rewrite Hf. unfold pelletStatsStep at 1. cbn [stats_totalFuel map fold_right].
      lia.
    + eapply Cost_le_trans; eassumption.
    + intros q [<-|Hq']; [eapply Cost_le_trans; eassumption | auto].
    + destruct Hex as [E|(q & Hq' & E)].
      * destruct S3 as [S3|S3]; [left; congruence|].
        right. exists p. split; [now left | congruence].
      * right. exists q. split; [now right | exact E].
Qed.

(** X17: [getPelletStats]: every pellet falls in exactly one
    quadrant, so the four counts add up to the number of pellets; while
    the sum of the pellet amounts is at most 2^53 in magnitude, the
    total fuel is that sum; and while every pellet is at most 2^53 from
    the origin, the closest distance is [Infinity] exactly when there
    is no pellet, and otherwise the least distance from a pellet to the
    origin. *)
Theorem X17_getPelletStats (gs : GameState) :
  let st := getPelletStats gs in
  stats_q1 st + stats_q2 st + stats_q3 st + stats_q4 st = stats_totalPellets st
  /\ (Z.abs (fold_right Z.add 0 (map pellet_fuel (getAllPellets gs)))
      <= 2 ^ 53 ->
      stats_totalFuel st
      = fold_right Z.add 0 (map pellet_fuel (getAllPellets gs)))
  /\ ((forall p, In p (getAllPellets gs) ->
                 manhattanDistance (pellet_position p) origin <= 2 ^ 53) ->
      (stats_closestToOrigin st = Infinity <-> getAllPellets gs = [])
      /\ (forall d,
            stats_closestToOrigin st = Finite d ->
            (exists p, In p (getAllPellets gs) /\
                       manhattanDistance (pellet_position p) origin = d) /\
            (forall p, In p (getAllPellets gs) ->
                       d <= manhattanDistance (pellet_position p) origin))).
Proof.
  cbv zeta. unfold getPelletStats.
  cbn [stats_q1 stats_q2 stats_q3 stats_q4 stats_totalPellets stats_totalFuel
       stats_closestToOrigin].
  match goal with |- context [fold_left pelletStatsStep ?l ?s] =>
    pose proof (pelletStats_fold l s) as H; cbv zeta in H;
    set (final := fold_left pelletStatsStep l s) in * end.
  cbn [stats_q1 stats_q2 stats_q3 stats_q4 stats_totalFuel
       stats_closestToOrigin] in H.
  destruct H as (Hq & Hf & _ & Hall & Hex).
  split; [|split].
  - rewrite Hq. unfold getAllPellets, map_values. rewrite length_map. lia.
  - intros Hsum. rewrite Hf, Z.add_0_l. now apply Number_exact.
  - intros Hnear.
    assert (Hexact : forall p, In p (getAllPellets gs) ->
              manhattanDistanceNumber (pellet_position p) origin
              = manhattanDistance (pellet_position p) origin).
    { intros p Hp. apply manhattanDistanceNumber_exact. now apply Hnear. }
    split.
    + split.
      * intros E. destruct (getAllPellets gs) as [|p l]; [reflexivity|].
        specialize (Hall p (or_introl eq_refl)). rewrite E in Hall.
        destruct Hall.
      * intros E. destruct Hex as [Hex|(p & Hp & _)]; [exact Hex|].
        rewrite E in Hp. destruct Hp.
    + intros d E. split.
      * destruct Hex as [Hex|(p & Hp & Ep)]; [congruence|].
        exists p. split; [exact Hp|]. rewrite <- (Hexact p Hp). congruence.
      * intros p Hp. specialize (Hall p Hp). rewrite E in Hall.
        rewrite <- (Hexact p Hp). exact Hall.
Qed.

Lemma X17_getPelletStats_witness :
  stats_totalFuel (getPelletStats twoPellets) = 10
  /\ (stats_closestToOrigin (getPelletStats twoPellets) = Infinity
      <-> getAllPellets twoPellets = []).
Proof.
  split.
  - apply (proj1 (proj2 (X17_getPelletStats twoPellets))).
    vm_compute. discriminate.
  - apply (proj2 (proj2 (X17_getPelletStats twoPellets))).
    intros p Hp. vm_compute in Hp.
    destruct Hp as [<-|[<-|[]]]; vm_compute; discriminate.
Defined.

(* ------------------------------------------------------------------ *)
(** *** The next action *)

Lemma findBestRefuelTarget_listed gs position fuel target :
  findBestRefuelTarget gs position fuel = Some target ->
  In target (getAllPellets gs).
Proof.
  intros E.
  destruct (getReachablePellets gs position fuel) as [|p l] eqn:R.
  - unfold findBestRefuelTarget in E. rewrite R in E. discriminate.
  - assert (Hne : getReachablePellets gs position fuel <> [])
      by (rewrite R; discriminate).
    destruct (findBestRefuelTarget_found _ _ _ Hne) as (t & Et & Hin).
    rewrite E in Et. injection Et as <-.
    now apply In_getPelletsWithinDistance in Hin.
Qed.

Lemma chooseMove_is_move fm gs position fuel :
  exists dx dy,
    chooseMove fm gs position fuel = ActionMove dx dy /\
    -1 <= dx <= 1 /\ -1 <= dy <= 1 /\
    (PelletsKeyed gs -> getPelletAt gs position = None ->
     position <> origin -> (dx, dy) <> (0, 0)).
Proof.
  unfold chooseMove.
  assert (Hfallback :
    exists dx dy,
      ActionMove (fst (calculateNextMove position origin))
                 (snd (calculateNextMove position origin)) = ActionMove dx dy /\
      -1 <= dx <= 1 /\ -1 <= dy <= 1 /\
      (PelletsKeyed gs -> getPelletAt gs position = None ->
       position <> origin -> (dx, dy) <> (0, 0))).
  { destruct (calculateNextMove_spec position origin) as (Hx & Hy & Hz & _).
    eexists. eexists. split; [reflexivity|]. split; [exact Hx|].
    split; [exact Hy|]. intros _ _ Hne E. apply Hne, Hz.
    destruct (calculateNextMove position origin). exact E. }
  match goal with |- context [match ?t with Some _ => _ | None => _ end] =>
    destruct t as [target|] eqn:T end.
  - destruct (calculateNextMove_spec position (pellet_position target))
      as (Hx & Hy & Hz & _).
    eexists. eexists. split; [reflexivity|]. split; [exact Hx|].
    split; [exact Hy|]. intros Hk Hnone _ E.
    assert (Hin : In target (getAllPellets gs)).
    { destruct (needsRefueling fm gs fuel position); [|discriminate].
      now apply findBestRefuelTarget_listed in T. }
    apply (getPelletAt_stored _ _ Hk) in Hin.
    assert (Epos : position = pellet_position target).
    { apply Hz. destruct (calculateNextMove position (pellet_position target)).
      exact E. }
    rewrite <- Epos in Hin. congruence.
  - destruct (path_success (findPath gs position origin fuel true)) eqn:S;
      [|exact Hfallback].
    pose proof (findPath_is_walk _ _ _ _ _ S) as (Hhd & _ & Hsteps).
    destruct (path_nodes (findPath gs position origin fuel true))
      as [|a [|b rest]]; [exact Hfallback | exact Hfallback |].
    injection Hhd as ->. cbn [StepsAreMoves] in Hsteps.
    destruct Hsteps as [Hab _].
    apply neighbor_unit_step in Hab as (Hx & Hy & Hne).
    eexists. eexists. split; [reflexivity|].
    split; [lia|]. split; [lia|]. intros _ _ _ [= Ex Ey].
    apply Hne, Position_eq_iff. lia.
Qed.

(** X18: the next action, in the simulator and in the bot: with an empty
    tank the ship never moves (the simulator reports it stuck, the bot
    gathers when a pellet is on the cell and is stuck otherwise); with
    fuel the action is always a move of at most one cell on each axis,
    and not the null move when the snapshot is well keyed, the ship is
    away from the origin and no pellet is on its cell. *)
Theorem X18_next_action (fm : FuelManager) (gs : GameState)
    (position : Position) (fuel : Z) :
  (fuel = 0 ->
   determineNextAction fm gs position fuel = ActionStuck /\
   botDetermineNextAction fm gs position fuel
   = (if hasPelletAtPosition gs position then ActionGather else ActionStuck))
  /\
  (fuel <> 0 ->
   exists dx dy,
     determineNextAction fm gs position fuel = ActionMove dx dy /\
     botDetermineNextAction fm gs position fuel = ActionMove dx dy /\
     -1 <= dx <= 1 /\ -1 <= dy <= 1 /\
     (PelletsKeyed gs -> getPelletAt gs position = None ->
      position <> origin -> (dx, dy) <> (0, 0))).
Proof.
  unfold determineNextAction, botDetermineNextAction. split.
  - intros ->. split; reflexivity.
  - intros Hne. destruct (Z.eqb_spec fuel 0); [contradiction|].
    destruct (chooseMove_is_move fm gs position fuel)
      as (dx & dy & E & Hx & Hy & Hz).
    exists dx, dy. auto.
Qed.

Lemma X18_next_action_witness :
  exists dx dy,
    determineNextAction newFuelManager twoPellets (mkPosition 10 0) 3
    = ActionMove dx dy /\
    botDetermineNextAction newFuelManager twoPellets (mkPosition 10 0) 3
    = ActionMove dx dy /\
    -1 <= dx <= 1 /\ -1 <= dy <= 1 /\ (dx, dy) <> (0, 0).
Proof.
  destruct (proj2 (X18_next_action newFuelManager twoPellets (mkPosition 10 0) 3)
              ltac:(discriminate)) as (dx & dy & E1 & E2 & Hx & Hy & Hz).
  exists dx, dy. repeat split; try assumption; try apply Hx; try apply Hy.
  apply Hz; [apply loadPellets_keyed | reflexivity | discriminate].
Defined.

(* ------------------------------------------------------------------ *)
(** *** The simulated navigation *)

Lemma removePellet_nonnegative gs position :
  PelletsNonNegative gs -> PelletsNonNegative (removePellet gs position).
Proof.
  unfold PelletsNonNegative. rewrite !Forall_forall.
  intros H p Hp. apply H. now apply removePellet_listed in Hp.
Qed.

Lemma simulationTurn_keeps fuel0 fm s :
  SimulationOk fuel0 s ->
  match simulationTurn fm s with
  | TurnBreak s' => TurnKeeps fuel0 s s'
  | TurnNext s' => TurnKeeps fuel0 s s'
  end.
Proof.
  intros Hok.
  assert (Hsame : TurnKeeps fuel0 s s).
  { split; [exact Hok|]. split; [lia | auto]. }
  destruct Hok as (Hfuel & Hkey & Hnn & Hcons & Hg & Hm).
  unfold simulationTurn.
  destruct ((pos_x (sim_currentPosition s) =? 0)
            && (pos_y (sim_currentPosition s) =? 0)); [exact Hsame|].
  destruct (getPelletAt (sim_gameState s) (sim_currentPosition s))
    as [pelletHere|] eqn:Here.
  - assert (Hpf : 0 <= pellet_fuel pelletHere).
    { apply getPelletAt_listed in Here. unfold PelletsNonNegative in Hnn.
      rewrite Forall_forall in Hnn. apply (Hnn _ Here). }
    unfold TurnKeeps, SimulationOk, recordMove.
    cbn [sim_gameState sim_currentFuel sim_totalMoves sim_fuelGathered].
    split; [|split; [lia | intros p; apply removePellet_listed]].
    split; [lia|]. split; [now apply removePellet_keyed|].
    split; [now apply removePellet_nonnegative|]. lia.
  - unfold determineNextAction.
    destruct (Z.eqb_spec (sim_currentFuel s) 0) as [E0|Hne]; [exact Hsame|].
    destruct (chooseMove_is_move fm (sim_gameState s) (sim_currentPosition s)
                (sim_currentFuel s)) as (dx & dy & -> & _).
    assert (Hafter :
      TurnKeeps fuel0 s
        (recordMove
           {| sim_gameState := sim_gameState s;
              sim_currentPosition :=
                {| pos_x := pos_x (sim_currentPosition s) + dx;
                   pos_y := pos_y (sim_currentPosition s) + dy |};
              sim_currentFuel := sim_currentFuel s - 1;
              sim_totalMoves := sim_totalMoves s + 1;
              sim_fuelGathered := sim_fuelGathered s;
              sim_visitedPositions :=
                set_add
                  (positionToKey
                     {| pos_x := pos_x (sim_currentPosition s) + dx;
                        pos_y := pos_y (sim_currentPosition s) + dy |})
                  (sim_visitedPositions s);
              sim_moveHistory := sim_moveHistory s |}
           (LabelMove dx dy))).
    { unfold TurnKeeps, SimulationOk, recordMove.
      cbn [sim_gameState sim_currentFuel sim_totalMoves sim_fuelGathered].
      split; [|split; [lia | auto]].
      split; [lia|]. split; [exact Hkey|]. split; [exact Hnn|]. lia. }
    match goal with |- context [if ?b then _ else _] => destruct b end;
      exact Hafter.
Qed.

Lemma simulationLoop_keeps fuel0 fm remaining :
  forall s,
    SimulationOk fuel0 s ->
    SimulationOk fuel0 (simulationLoop fm remaining s) /\
    sim_totalMoves (simulationLoop fm remaining s)
    <= sim_totalMoves s + Z.of_nat remaining /\
    (forall p,
       In p (getAllPellets (sim_gameState (simulationLoop fm remaining s))) ->
       In p (getAllPellets (sim_gameState s))).
Proof.
  induction remaining as [|r IH]; intros s Hok.
  - simpl. split; [exact Hok|]. split; [lia | auto].
  - cbn [simulationLoop]. rewrite Nat2Z.inj_succ.
    pose proof (simulationTurn_keeps fuel0 fm s Hok) as Ht.
    destruct (simulationTurn fm s) as [s'|s'];
      destruct Ht as (Hok' & Hmoves & Hsub).
    + split; [exact Hok'|]. split; [lia | exact Hsub].
    + destruct (IH s' Hok') as (H1 & H2 & H3).
      split; [exact H1|]. split; [lia|]. intros p Hp. auto.
Qed.

(** X19: [simulateNavigation] on a well-keyed snapshot without negative
    pellets: the fuel stays between 0 and the capacity (the negative
    fuel exit is never taken), it equals the initial fuel plus the fuel
    gathered minus the moves made, at most 200 moves are made, and the
    pellets left are pellets of the snapshot it started from. *)
Theorem X19_simulateNavigation (fm : FuelManager) (gs : GameState)
    (spawn : Position) :
  PelletsKeyed gs -> PelletsNonNegative gs ->
  let final := simulateNavigation fm gs spawn in
  0 <= sim_currentFuel final <= maxShipFuel GAME_CONFIG
  /\ sim_currentFuel final
     = initialFuel GAME_CONFIG + sim_fuelGathered final - sim_totalMoves final
  /\ 0 <= sim_fuelGathered final
  /\ 0 <= sim_totalMoves final <= 200
  /\ PelletsKeyed (sim_gameState final)
  /\ (forall p, In p (getAllPellets (sim_gameState final)) ->
                In p (getAllPellets gs)).
Proof.
  intros Hk Hnn. cbv zeta. unfold simulateNavigation.
  match goal with |- context [simulationLoop fm maxSteps ?s] =>
    set (s0 := s) end.
  assert (H0 : SimulationOk (initialFuel GAME_CONFIG) s0).
  { unfold SimulationOk, s0, recordMove.
    cbn [sim_gameState sim_currentFuel sim_totalMoves sim_fuelGathered].
    split; [cbn; lia|]. split; [exact Hk|]. split; [exact Hnn|]. cbn. lia. }
  destruct (simulationLoop_keeps (initialFuel GAME_CONFIG) fm maxSteps s0 H0)
    as ((Hfuel & Hkey & _ & Hcons & Hg & Hm) & Hmoves & Hsub).
  change (sim_totalMoves s0) with 0 in Hmoves.
  change (Z.of_nat maxSteps) with 200 in Hmoves.
  change (sim_gameState s0) with gs in Hsub.
  split; [exact Hfuel|]. split; [exact Hcons|]. split; [exact Hg|].
  split; [|split; [exact Hkey | exact Hsub]].
  split; [exact Hm | lia].
Qed.

Lemma X19_simulateNavigation_witness :
  0 <= sim_currentFuel
         (simulateNavigation newFuelManager twoPellets (mkPosition 10 0))
    <= maxShipFuel GAME_CONFIG.
Proof.
  apply (X19_simulateNavigation newFuelManager twoPellets (mkPosition 10 0)).
  - apply loadPellets_keyed.
  - exact twoPellets_nonnegative.
Defined.

(* ------------------------------------------------------------------ *)
(** *** Candidate generation *)

Lemma In_countUp lo hi step v :
  0 < step ->
  (In v (countUp lo hi step) <-> lo <= v <= hi /\ (v - lo) mod step = 0).
Proof.
  intros Hstep. unfold countUp.
  destruct (Z.ltb_spec hi lo) as [Hlt|Hge].
  - split; [intros [] | lia].
  - rewrite in_map_iff. split.
    + intros (i & <- & Hi). apply in_seq in Hi.
      assert (Hpos : 0 <= (hi - lo) / step) by (apply Z.div_pos; lia).
      assert (Hq : Z.of_nat i <= (hi - lo) / step) by lia.
      assert (Hm : step * ((hi - lo) / step) <= hi - lo)
        by (apply Z.mul_div_le; lia).
      split; [nia|].
      replace (lo + step * Z.of_nat i - lo) with (Z.of_nat i * step) by lia.
      apply Z_mod_mult.
    + intros ([Hlo Hhi] & Hmod).
      exists (Z.to_nat ((v - lo) / step)).
      assert (Hd : 0 <= (v - lo) / step) by (apply Z.div_pos; lia).
      assert (He : v - lo = step * ((v - lo) / step))
        by (apply Z_div_exact_full_2; lia).
      assert (Hle : (v - lo) / step <= (hi - lo) / step)
        by (apply Z.div_le_mono; lia).
      assert (Hpos : 0 <= (hi - lo) / step) by (apply Z.div_pos; lia).
      split; [rewrite Z2Nat.id by lia; lia|].
      apply in_seq. lia.
Qed.

(** X21: the systematic grid holds exactly the positions whose
    coordinates lie between [-maxDist] and [maxDist] on the lattice of
    spacing 5 that starts at [-maxDist], and whose distance to the
    origin lies between [minDist] and [maxDist]. *)
Theorem X21_generateSystematicGrid (minDist maxDist : Z) (p : Position) :
  In p (generateSystematicGrid minDist maxDist) <->
  (- maxDist <= pos_x p <= maxDist /\ (pos_x p + maxDist) mod 5 = 0) /\
  (- maxDist <= pos_y p <= maxDist /\ (pos_y p + maxDist) mod 5 = 0) /\
  minDist <= manhattanDistance p origin <= maxDist.
Proof.
  unfold generateSystematicGrid. rewrite in_flat_map.
  replace (pos_x p + maxDist) with (pos_x p - - maxDist) by lia.
  replace (pos_y p + maxDist) with (pos_y p - - maxDist) by lia.
  rewrite <- !(In_countUp (- maxDist) maxDist 5) by lia.
  split.
  - intros (gx & Hx & H). apply in_flat_map in H as (gy & Hy & H).
    destruct (Z.geb_spec (manhattanDistance (mkPosition gx gy) origin) minDist);
      destruct (Z.leb_spec (manhattanDistance (mkPosition gx gy) origin) maxDist);
      cbn [andb] in H; try (simpl in H; contradiction).
    destruct H as [<-|[]]. cbn [pos_x pos_y]. split; [exact Hx|].
    split; [exact Hy | lia].
  - intros (Hx & Hy & Hd). exists (pos_x p). split; [exact Hx|].
    apply in_flat_map. exists (pos_y p). split; [exact Hy|].
    replace (mkPosition (pos_x p) (pos_y p)) with p by (destruct p; reflexivity).
    destruct (Z.geb_spec (manhattanDistance p origin) minDist); [|lia].
    destruct (Z.leb_spec (manhattanDistance p origin) maxDist); [|lia].
    now left.
Qed.



Lemma set_has_add k k' s :
  set_has k (set_add k' s) = String.eqb k k' || set_has k s.
Proof.
  unfold set_add, set_has.
  destruct (existsb (String.eqb k') s) eqn:E.
  - destruct (String.eqb_spec k k') as [->|]; [|reflexivity].
    now rewrite E.
  - rewrite existsb_app. simpl. rewrite orb_false_r. apply orb_comm.
Qed.

Lemma deduplicateLoop_spec positions :
  forall seen,
    NoDup (deduplicateLoop positions seen)
    /\ (forall p, In p (deduplicateLoop positions seen) <->
                  In p positions /\ set_has (positionToKey p) seen = false)
    /\ Subsequence (deduplicateLoop positions seen) positions.
Proof.
  induction positions as [|a rest IH]; intros seen; cbn [deduplicateLoop].
  - split; [constructor|]. split; [intros p; simpl; tauto | constructor].
  - destruct (set_has (positionToKey a) seen) eqn:E; cbn [negb].
    + destruct (IH seen) as (Hnd & Hin & Hsub).
      split; [exact Hnd|]. split; [|now constructor].
      intros p. rewrite Hin. simpl. split; [tauto|].
      intros [[<-|H] Hp]; [congruence | auto].
    + destruct (IH (set_add (positionToKey a) seen)) as (Hnd & Hin & Hsub).
      split; [|split; [|now constructor]].
      * constructor; [|exact Hnd]. intros H. apply Hin in H as [_ H].
        rewrite set_has_add, String.eqb_refl in H. discriminate.
      * intros p. simpl. rewrite Hin, set_has_add. split.
        -- intros [<-|[H Hp]]; [auto|].
           apply orb_false_iff in Hp as [_ Hp]. auto.
        -- intros [[<-|H] Hp]; [now left|].
           destruct (String.eqb_spec (positionToKey p) (positionToKey a)) as [K|K].
           ++ left. symmetry. now apply positionToKey_inj.
           ++ right. auto.
Qed.

(** X20: [deduplicatePositions] keeps the first occurrence of each
    position: the result has no repetition, the same members as the
    input, and is the input with elements left out; so the spawn
    candidates are never repeated and are exactly the positions the
    three strategies give. *)
Theorem X20_deduplicatePositions (positions : list Position)
    (polar : Z -> Z -> Position) (gs : GameState) :
  NoDup (deduplicatePositions positions)
  /\ (forall p, In p (deduplicatePositions positions) <-> In p positions)
  /\ Subsequence (deduplicatePositions positions) positions
  /\ NoDup (generateSpawnCandidates polar gs)
  /\ (forall p,
        In p (generateSpawnCandidates polar gs) <->
        In p (generatePelletBasedCandidates polar (getAllPellets gs)
                (minAsteriaDistance GAME_CONFIG))
        \/ In p (generateSystematicGrid (minAsteriaDistance GAME_CONFIG)
                   (Z.min 200 (minAsteriaDistance GAME_CONFIG * 3)))
        \/ In p (generateRadialCandidates polar (minAsteriaDistance GAME_CONFIG)
                   (Z.min 200 (minAsteriaDistance GAME_CONFIG * 3)))).
Proof.
  assert (H : forall l,
            NoDup (deduplicatePositions l)
            /\ (forall p, In p (deduplicatePositions l) <-> In p l)
            /\ Subsequence (deduplicatePositions l) l).
  { intros l. unfold deduplicatePositions.
    destruct (deduplicateLoop_spec l []) as (Hnd & Hin & Hsub).
    split; [exact Hnd|]. split; [|exact Hsub].
    intros p. rewrite Hin. simpl. tauto. }
  destruct (H positions) as (H1 & H2 & H3).
  split; [exact H1|]. split; [exact H2|]. split; [exact H3|].
  unfold generateSpawnCandidates.
  match goal with |- context [deduplicatePositions ?l] =>
    destruct (H l) as (G1 & G2 & _) end.
  split; [exact G1|]. intros p. rewrite G2, !in_app_iff. reflexivity.
Qed.



(* ------------------------------------------------------------------ *)
(** *** How far a search can reach *)

Lemma accepted_is_near gs pos goal fuelAtNeighbor :
  fuelAtNeighbor <= maxShipFuel GAME_CONFIG ->
  (fuelAtNeighbor <? manhattanDistance pos goal)
  && negb (hasPelletOnPath gs pos goal fuelAtNeighbor) = false ->
  manhattanDistance pos goal <= 2 * maxShipFuel GAME_CONFIG.
Proof.
  intros Hcap H. change (maxShipFuel GAME_CONFIG) with 5 in *.
  apply andb_false_iff in H as [H|H].
  - apply Z.ltb_ge in H. lia.
  - apply negb_false_iff, hasPelletOnPath_iff in H as (p & _ & Hd & Hg).
    change (maxShipFuel GAME_CONFIG) with 5 in *.
    pose proof (manhattanDistance_facts pos (pellet_position p) goal)
      as (_ & _ & _ & Ht).
    lia.
Qed.

Lemma neighbor_distance a b :
  In b (getNeighbors a) -> manhattanDistance a b <= 2.
Proof.
  intros H. apply neighbor_unit_step in H as (Hx & Hy & _).
  unfold manhattanDistance. rewrite !abs_spec. lia.
Qed.

Lemma findPath_reach gs start goal fuel cp :
  fuel <= maxShipFuel GAME_CONFIG ->
  path_success (findPath gs start goal fuel cp) = true ->
  manhattanDistance start goal <= 2 * maxShipFuel GAME_CONFIG + 2.
Proof.
  intros Hcap Hs.
  destruct (findPath_success_keeps gs goal cp
              (fun n =>
                 (node_parent n = None /\ node_position n = start
                  /\ node_fuel n = fuel)
                 \/ (node_fuel n <= maxShipFuel GAME_CONFIG /\
                     manhattanDistance start goal
                     <= 2 * maxShipFuel GAME_CONFIG + 2)))
    with (start := start) (fuel0 := fuel) as (c & Hc & Hg & _).
  - intros current pos h f Hcur Hfuel Hin fuelAtNeighbor Hacc. right.
    assert (Hn : fuelAtNeighbor <= maxShipFuel GAME_CONFIG).
    { unfold fuelAtNeighbor.
      destruct Hcur as [(_ & _ & Ef)|[Hf _]];
        (destruct cp; [apply refuelAt_capped; lia | lia]). }
    cbn [node_fuel]. split; [exact Hn|].
    destruct Hcur as [(_ & Ep & _)|[_ Hd]]; [|exact Hd].
    rewrite Ep in Hin. apply neighbor_distance in Hin.
    pose proof (accepted_is_near gs pos goal fuelAtNeighbor Hn Hacc).
    pose proof (manhattanDistance_facts start pos goal) as (_ & _ & _ & Ht).
    lia.
  - left. repeat split.
  - exact Hs.
  - destruct Hc as [(_ & Ep & _)|[_ Hd]]; [|exact Hd].
    rewrite Hg in Ep. subst goal.
    pose proof (manhattanDistance_facts start start start) as (_ & Hz & _).
    assert (manhattanDistance start start = 0) by (apply Hz; reflexivity).
    change (maxShipFuel GAME_CONFIG) with 5. lia.
Qed.

(** X23: with a tank within capacity, [findPath] fails whenever the goal
    is more than twice the capacity plus two away from the start (more
    than 12 with the capacity of 5), whatever pellets the snapshot
    holds: the first step is only accepted when the fuel left, or one
    pellet's refill, covers all of the remaining distance. *)
Theorem X23_findPath_range (gs : GameState) (start goal : Position)
    (fuel : Z) (considerPellets : bool) :
  fuel <= maxShipFuel GAME_CONFIG ->
  2 * maxShipFuel GAME_CONFIG + 2 < manhattanDistance start goal ->
  findPath gs start goal fuel considerPellets = failedPath.
Proof.
  intros Hcap Hfar. apply findPath_failure.
  destruct (path_success (findPath gs start goal fuel considerPellets)) eqn:S;
    [|reflexivity].
  apply findPath_reach in S; [lia | exact Hcap].
Qed.

Lemma X23_findPath_range_witness :
  findPath twoPellets (mkPosition 13 0) origin 5 true = failedPath.
Proof.
  apply X23_findPath_range; [vm_compute; discriminate | vm_compute; reflexivity].
Defined.

Lemma twoLegTotal_finite gs start goal fuel pellet total :
  twoLegTotal gs start goal fuel pellet = Finite total ->
  exists fuelAtPellet,
    fuelAtPellet <= maxShipFuel GAME_CONFIG /\
    path_success (findPath gs (pellet_position pellet) goal fuelAtPellet true)
    = true.
Proof.
  unfold twoLegTotal.
  destruct (path_success (findPath gs start (pellet_position pellet) fuel false));
    cbn [negb]; [|discriminate].
  destruct (path_totalCost (findPath gs start (pellet_position pellet) fuel false))
    as [c1|]; [|discriminate].
  match goal with |- context [findPath gs (pellet_position pellet) goal ?f true] =>
    set (fuelAtPellet := f) end.
  destruct (path_success (findPath gs (pellet_position pellet) goal
                            fuelAtPellet true)) eqn:S2;
    cbn [negb]; [|discriminate].
  intros _. exists fuelAtPellet. split; [unfold fuelAtPellet; lia | exact S2].
Qed.

Lemma findPathWithRefueling_reach gs start goal fuel :
  fuel <= maxShipFuel GAME_CONFIG ->
  path_success (findPathWithRefueling gs start goal fuel) = true ->
  manhattanDistance start goal <= 3 * maxShipFuel GAME_CONFIG + 2.
Proof.
  intros Hcap Hs.
  destruct (findPathWithRefueling_CostCountsSteps gs start goal fuel Hs)
    as [_ Hcost].
  rewrite findPathWithRefueling_unfold in Hs, Hcost.
  destruct (path_success (findPath gs start goal fuel true)) eqn:S0.
  - apply findPath_reach in S0; [|exact Hcap].
    change (maxShipFuel GAME_CONFIG) with 5 in *. lia.
  - match type of Hs with context [fold_left _ ?l ?b] =>
      destruct (waypoint_fold gs start goal fuel
                  (findPath gs start goal fuel true) l [] b)
        as [_ H]; [intros p [] | left; split; reflexivity |] end.
    cbv zeta in H. cbn [app] in H.
    destruct H as [[E _]|(_ & Ec & _ & p & Hp & Ep)];
      [rewrite E in Hs; congruence|].
    apply filter_In in Hp as [_ Hd]. apply Z.leb_le in Hd.
    rewrite Ec, Ep in Hcost.
    apply twoLegTotal_finite in Hcost as (f & Hf & S2).
    apply findPath_reach in S2; [|exact Hf].
    pose proof (manhattanDistance_facts start (pellet_position p) goal)
      as (_ & _ & _ & Ht).
    change (maxShipFuel GAME_CONFIG) with 5 in *. lia.
Qed.

(** X24: with a tank within capacity, [findPathWithRefueling] fails
    whenever the goal is more than three times the capacity plus two
    away (more than 17 with the capacity of 5): the waypoint is within
    the fuel of the start and the second leg is an ordinary search. *)
Theorem X24_findPathWithRefueling_range (gs : GameState)
    (start goal : Position) (fuel : Z) :
  fuel <= maxShipFuel GAME_CONFIG ->
  3 * maxShipFuel GAME_CONFIG + 2 < manhattanDistance start goal ->
  findPathWithRefueling gs start goal fuel = failedPath.
Proof.
  intros Hcap Hfar. apply findPathWithRefueling_cases.
  destruct (path_success (findPathWithRefueling gs start goal fuel)) eqn:S;
    [|reflexivity].
  apply findPathWithRefueling_reach in S; [lia | exact Hcap].
Qed.

Lemma X24_findPathWithRefueling_range_witness :
  findPathWithRefueling twoPellets (mkPosition 18 0) origin 5 = failedPath.
Proof.
  apply X24_findPathWithRefueling_range;
    [vm_compute; discriminate | vm_compute; reflexivity].
Defined.

Lemma evaluateSpawnPosition_far gs p :
  3 * maxShipFuel GAME_CONFIG + 2 < manhattanDistance p origin ->
  cand_guaranteedPath (evaluateSpawnPosition gs p) = false.
Proof.
  intros Hfar. unfold evaluateSpawnPosition. cbn [cand_guaranteedPath].
  destruct (path_success
              (findPathWithRefueling gs p origin (initialFuel GAME_CONFIG)))
    eqn:S; [|reflexivity].
  apply findPathWithRefueling_reach in S; [lia|].
  vm_compute. discriminate.
Qed.

Lemma grid_candidates_far minDist maxDist p :
  In p (generateSystematicGrid minDist maxDist) ->
  minDist <= manhattanDistance p origin.
Proof.
  unfold generateSystematicGrid. intros H.
  apply in_flat_map in H as (gx & _ & H).
  apply in_flat_map in H as (gy & _ & H).
  destruct (Z.geb_spec (manhattanDistance (mkPosition gx gy) origin) minDist);
    cbn [andb] in H; [|destruct H].
  destruct (_ <=? _); [|destruct H]. destruct H as [<-|[]]. lia.
Qed.

Lemma pellet_candidates_far polar allPellets minDist p :
  In p (generatePelletBasedCandidates polar allPellets minDist) ->
  minDist <= manhattanDistance p origin.
Proof.
  unfold generatePelletBasedCandidates. intros H.
  apply in_flat_map in H as (pair & _ & H).
  apply in_flat_map in H as (angle & _ & H).
  apply in_flat_map in H as (dist & _ & H).
  destruct (Z.geb_spec (manhattanDistance (polar dist angle) origin) minDist);
    cbn [andb] in H; [|destruct H].
  destruct (_ <=? _); [|destruct H]. destruct H as [<-|[]]. lia.
Qed.

(** X25: with the configuration as it stands (capacity 5, initial fuel
    5, minimum spawn distance 50), no candidate of the pellet-chain or
    of the grid strategy has a feasible path; when the radial samples
    lie more than 17 from the origin as well, [findOptimalSpawnPosition]
    never returns a candidate with a guaranteed path: its result is the
    result of the fallback. *)
Theorem X25_spawn_never_guaranteed (polar : Z -> Z -> Position)
    (gs : GameState) :
  (forall p,
     In p (generateRadialCandidates polar (minAsteriaDistance GAME_CONFIG)
             (Z.min 200 (minAsteriaDistance GAME_CONFIG * 3))) ->
     3 * maxShipFuel GAME_CONFIG + 2 < manhattanDistance p origin) ->
  (forall p, In p (generateSpawnCandidates polar gs) ->
             cand_guaranteedPath (evaluateSpawnPosition gs p) = false)
  /\ findOptimalSpawnPosition polar gs = findFallbackSpawnPosition polar gs
  /\ (forall c, findOptimalSpawnPosition polar gs = Some c ->
                cand_guaranteedPath c = false).
Proof.
  intros Hradial.
  assert (Hall : forall p, In p (generateSpawnCandidates polar gs) ->
                   cand_guaranteedPath (evaluateSpawnPosition gs p) = false).
  { intros p Hp. apply evaluateSpawnPosition_far.
    unfold generateSpawnCandidates, deduplicatePositions in Hp.
    apply (deduplicateLoop_spec _ []) in Hp as [Hp _].
    apply in_app_iff in Hp as [Hp|Hp];
      [|apply in_app_iff in Hp as [Hp|Hp]].
    - apply pellet_candidates_far in Hp. revert Hp.
      change (minAsteriaDistance GAME_CONFIG) with 50.
      change (maxShipFuel GAME_CONFIG) with 5. lia.
    - apply grid_candidates_far in Hp. revert Hp.
      change (minAsteriaDistance GAME_CONFIG) with 50.
      change (maxShipFuel GAME_CONFIG) with 5. lia.
    - now apply Hradial. }
  split; [exact Hall|].
  assert (E : findOptimalSpawnPosition polar gs
              = findFallbackSpawnPosition polar gs).
  { unfold findOptimalSpawnPosition.
    rewrite (evaluateLoop_none_feasible gs _ Hall) by lia. reflexivity. }
  split; [exact E|]. intros c Hc. rewrite E in Hc.
  unfold findFallbackSpawnPosition in Hc.
  destruct (findFallbackSpawnPosition_state polar gs) as (_ & _ & Hbest).
  rewrite Hc in Hbest. tauto.
Qed.

Lemma radial_samples_far :
  forall p,
    In p (generateRadialCandidates polarDecimal (minAsteriaDistance GAME_CONFIG)
            (Z.min 200 (minAsteriaDistance GAME_CONFIG * 3))) ->
    3 * maxShipFuel GAME_CONFIG + 2 < manhattanDistance p origin.
Proof.
  assert (H : forallb
                (fun p => 3 * maxShipFuel GAME_CONFIG + 2
                          <? manhattanDistance p origin)
                (generateRadialCandidates polarDecimal
                   (minAsteriaDistance GAME_CONFIG)
                   (Z.min 200 (minAsteriaDistance GAME_CONFIG * 3))) = true)
    by (vm_compute; reflexivity).
  intros p Hp. rewrite forallb_forall in H. now apply Z.ltb_lt, H.
Qed.

Lemma X25_spawn_never_guaranteed_witness :
  findOptimalSpawnPosition polarDecimal onePelletFar
  = findFallbackSpawnPosition polarDecimal onePelletFar.
Proof.
  apply (X25_spawn_never_guaranteed polarDecimal onePelletFar
           radial_samples_far).
Defined.

(* ------------------------------------------------------------------ *)
(** *** Selection and bookkeeping of the search *)

Lemma lowestF_first_fold (open : JsMap PathNode) :
  forall a e,
    fold_left
      (fun current entry =>
         match current with
         | None => Some entry
         | Some (_, c) =>
             if node_f (snd entry) <? node_f c then Some entry else current
         end) open (Some a) = Some e ->
    (e = a /\ forall x, In x open -> node_f (snd a) <= node_f (snd x))
    \/ (exists l1 l2,
          open = l1 ++ e :: l2 /\
          node_f (snd e) < node_f (snd a) /\
          (forall x, In x l1 -> node_f (snd e) < node_f (snd x)) /\
          (forall x, In x l2 -> node_f (snd e) <= node_f (snd x))).
Proof.
  induction open as [|x r IH]; intros [ka ca] e; cbn [fold_left snd].
  - intros [= <-]. left. split; [reflexivity | intros ? []].
  - destruct (Z.ltb_spec (node_f (snd x)) (node_f ca)) as [Hlt|Hge]; intros H.
    + right. apply IH in H as [[-> Hall]|(l1 & l2 & -> & Hea & H1 & H2)].
      * exists [], r. repeat split; auto. intros ? [].
      * exists (x :: l1), l2. split; [reflexivity|]. split; [lia|].
        split; [|exact H2]. intros y [<-|Hy]; [exact Hea | auto].
    + apply IH in H as [[-> Hall]|(l1 & l2 & -> & Hea & H1 & H2)].
      * left. split; [reflexivity|]. intros y [<-|Hy]; [exact Hge | auto].
      * right. exists (x :: l1), l2. split; [reflexivity|].
        cbn [snd] in Hea. split; [exact Hea|]. split; [|exact H2].
        intros y [<-|Hy]; [lia | auto].
Qed.

(** X26: the scan for the node to expand picks the first entry, in the
    insertion order of the open set, among those of lowest [f]: every
    entry before it has a strictly higher [f], every entry after it an
    [f] at least as high; it finds nothing only in an empty open set. *)
Theorem X26_lowestF_first (open : JsMap PathNode) :
  (lowestF open = None <-> open = [])
  /\ (forall e,
        lowestF open = Some e ->
        exists before after,
          open = before ++ e :: after /\
          (forall x, In x before -> node_f (snd e) < node_f (snd x)) /\
          (forall x, In x after -> node_f (snd e) <= node_f (snd x))).
Proof.
  split.
  - split; [apply lowestF_None | intros ->; reflexivity].
  - intros e. unfold lowestF. destruct open as [|a r]; [discriminate|].
    cbn [fold_left]. intros H.
    apply lowestF_first_fold in H as [[-> Hall]|(l1 & l2 & -> & Hea & H1 & H2)].
    + exists [], r. split; [reflexivity|]. split; [intros ? [] | exact Hall].
    + exists (a :: l1), l2. split; [reflexivity|]. split; [|exact H2].
      intros y [<-|Hy]; [exact Hea | auto].
Qed.

Lemma set_has_In k s : set_has k s = true <-> In k s.
Proof.
  unfold set_has. rewrite existsb_exists. split.
  - intros (x & Hx & E). apply String.eqb_eq in E. now subst.
  - intros H. exists k. split; [exact H | apply String.eqb_refl].
Qed.

Lemma In_set_add k k' s : In k (set_add k' s) <-> k = k' \/ In k s.
Proof.
  unfold set_add. destruct (set_has k' s) eqn:E.
  - apply set_has_In in E. split; [auto | intros [->|H]; auto].
  - rewrite in_app_iff. simpl. split; [intros [H|[<-|[]]]; auto|].
    intros [->|H]; auto.
Qed.

Lemma NoDup_set_add k s : NoDup s -> NoDup (set_add k s).
Proof.
  intros H. unfold set_add. destruct (set_has k s) eqn:E; [exact H|].
  apply NoDup_app; [exact H | repeat constructor; intros [] |].
  intros a Ha [->|[]]. apply set_has_In in Ha. congruence.
Qed.

Lemma In_keys_delete {V} k k' (m : JsMap V) :
  NoDup (map_keys m) ->
  In k' (map_keys (map_delete k m)) -> In k' (map_keys m) /\ k' <> k.
Proof.
  unfold map_keys. induction m as [|[k0 v] m IH]; simpl; [tauto|].
  intros Hnd. inversion Hnd as [|? ? Hnotin Hnd']; subst.
  destruct (String.eqb_spec k k0) as [->|Hne].
  - intros H. split; [now right|]. intros ->. contradiction.
  - simpl. intros [<-|H]; [split; [now left | congruence]|].
    destruct (IH Hnd' H). split; [now right | assumption].
Qed.

Lemma In_keys_set {V} k k' v (m : JsMap V) :
  In k' (map_keys (map_set k v m)) -> k' = k \/ In k' (map_keys m).
Proof.
  rewrite map_set_keys. destruct (existsb _ _); [auto|].
  rewrite in_app_iff. simpl. intros [H|[<-|[]]]; auto.
Qed.

Lemma visitNeighbor_sets gs goal cp closed current open pos :
  NoDup (map_keys open) ->
  Forall (fun e => fst e = positionToKey (node_position (snd e))) open ->
  (forall k, In k closed -> ~ In k (map_keys open)) ->
  let open' := visitNeighbor gs goal cp closed current open pos in
  NoDup (map_keys open')
  /\ Forall (fun e => fst e = positionToKey (node_position (snd e))) open'
  /\ (forall k, In k closed -> ~ In k (map_keys open')).
Proof.
  intros Hnd Hkey Hdis. cbv zeta. unfold visitNeighbor.
  destruct (set_has (positionToKey pos) closed) eqn:Hc; [auto|].
  destruct (node_fuel current - 1 <? 0); [auto|].
  match goal with |- context [if ?b then open else _] => destruct b end;
    [auto|].
  match goal with |- context [map_set _ ?n open] => set (node := n) end.
  assert (Hset :
    NoDup (map_keys (map_set (positionToKey pos) node open))
    /\ Forall (fun e => fst e = positionToKey (node_position (snd e)))
              (map_set (positionToKey pos) node open)
    /\ (forall k, In k closed ->
                  ~ In k (map_keys (map_set (positionToKey pos) node open)))).
  { split; [now apply NoDup_map_set|].
    split; [apply Forall_map_set; [exact Hkey | reflexivity]|].
    intros k Hk Hin. apply In_keys_set in Hin as [->|Hin].
    - apply set_has_In in Hk. congruence.
    - now apply (Hdis k). }
  destruct (map_get (positionToKey pos) open); [|exact Hset].
  destruct (_ >=? _); [auto | exact Hset].
Qed.

Lemma iteration_sets gs goal cp st next :
  SearchSetsOk st ->
  iteration gs goal cp st = Continue next ->
  SearchSetsOk next.
Proof.
  intros (Hnd & Hkey & Hcl & Hdis). unfold iteration.
  destruct (lowestF (openSet st)) as [[k c]|] eqn:E; [|discriminate].
  destruct (Position_eqb (node_position c) goal); [discriminate|].
  intros [= <-]. unfold SearchSetsOk. cbn [openSet closedSet].
  assert (H0 :
    NoDup (map_keys (map_delete k (openSet st)))
    /\ Forall (fun e => fst e = positionToKey (node_position (snd e)))
              (map_delete k (openSet st))
    /\ (forall k', In k' (set_add k (closedSet st)) ->
                   ~ In k' (map_keys (map_delete k (openSet st))))).
  { split; [now apply NoDup_map_delete|].
    split; [now apply Forall_map_delete|].
    intros k' Hk' Hin. apply (In_keys_delete _ _ _ Hnd) in Hin as [Hin Hne].
    apply In_set_add in Hk' as [->|Hk']; [congruence|].
    now apply (Hdis k'). }
  assert (Hfold : forall l open,
    NoDup (map_keys open)
    /\ Forall (fun e => fst e = positionToKey (node_position (snd e))) open
    /\ (forall k', In k' (set_add k (closedSet st)) ->
                   ~ In k' (map_keys open)) ->
    let open' :=
      fold_left (visitNeighbor gs goal cp (set_add k (closedSet st)) c) l open in
    NoDup (map_keys open')
    /\ Forall (fun e => fst e = positionToKey (node_position (snd e))) open'
    /\ (forall k', In k' (set_add k (closedSet st)) ->
                   ~ In k' (map_keys open'))).
  { induction l as [|p l IH]; intros open (H1 & H2 & H3); cbn [fold_left];
      [auto|].
    apply IH. now apply visitNeighbor_sets. }
  destruct (Hfold (getNeighbors (node_position c)) _ H0) as (G1 & G2 & G3).
  split; [exact G1|]. split; [exact G2|].
  split; [now apply NoDup_set_add | exact G3].
Qed.

(** X27: the bookkeeping of [findPath] after any number of turns: the
    open set holds one entry per cell, filed under the key of that cell,
    and no cell is both open and closed, so a cell that was expanded is
    never queued again. *)
Theorem X27_search_sets (gs : GameState) (start goal : Position) (fuel : Z)
    (considerPellets : bool) (n : nat) (st : SearchState) :
  afterIterations gs goal considerPellets n (startState start goal fuel)
  = Some st ->
  SearchSetsOk st.
Proof.
  assert (H : forall n s s',
            SearchSetsOk s ->
            afterIterations gs goal considerPellets n s = Some s' ->
            SearchSetsOk s').
  { induction n0 as [|m IH]; intros s s' Hs; simpl.
    - now intros [= <-].
    - destruct (iteration gs goal considerPellets s) as [| |next] eqn:E;
        try discriminate.
      apply IH. exact (iteration_sets _ _ _ _ _ Hs E). }
  apply H. unfold SearchSetsOk, startState. cbn [openSet closedSet map_set].
  split; [repeat constructor; intros []|].
  split; [repeat constructor|]. split; [constructor | intros k []].
Qed.

Lemma X27_search_sets_witness :
  SearchSetsOk
    {| openSet :=
         fold_left
           (visitNeighbor emptyWorld origin true
              [positionToKey (mkPosition 2 0)]
              (startNode (mkPosition 2 0) origin 5))
           (getNeighbors (mkPosition 2 0)) [];
       closedSet := [positionToKey (mkPosition 2 0)] |}.
Proof.
  apply (X27_search_sets emptyWorld (mkPosition 2 0) origin 5 true 1).
  reflexivity.
Defined.

(* ------------------------------------------------------------------ *)
(** *** The spawn score *)

Lemma Qmin_le_l a b : (Qmin a b <= a)%Q.
Proof.
  unfold Qmin. destruct (Qle_bool a b) eqn:E; [apply Qle_refl|].
  destruct (Qlt_le_dec b a) as [H|H]; [now apply Qlt_le_weak|].
  apply Qle_bool_iff in H. congruence.
Qed.

Lemma Qmax_ge_l a b : (a <= Qmax a b)%Q.
Proof.
  unfold Qmax. destruct (Qle_bool a b) eqn:E; [|apply Qle_refl].
  now apply Qle_bool_iff.
Qed.

(** Divisions by the constants of the score, as multiplications. *)
Ltac score_constants :=
  unfold Qdiv in *;
  change (/ 3)%Q with (1 # 3)%Q in *;
  change (/ 10)%Q with (1 # 10)%Q in *;
  change (/ 200)%Q with (1 # 200)%Q in *;
  change (inject_Z 0) with 0%Q in *;
  change (inject_Z 3) with 3%Q in *.

Lemma competition_falls (n n' : Z) :
  n <= n' ->
  (Qmax 0 (1 - inject_Z n' / 3) <= Qmax 0 (1 - inject_Z n / 3))%Q.
Proof.
  intros H. rewrite Zle_Qle in H. unfold Qmax.
  destruct (Qle_bool 0 (1 - inject_Z n' / 3)) eqn:E';
    destruct (Qle_bool 0 (1 - inject_Z n / 3)) eqn:E.
  - score_constants. lra.
  - apply Qle_bool_iff in E'.
    assert (~ (0 <= 1 - inject_Z n / 3)%Q)
      by (intros G; apply Qle_bool_iff in G; congruence).
    score_constants. lra.
  - now apply Qle_bool_iff.
  - apply Qle_refl.
Qed.

Lemma pathEfficiencyOf_le_1 d c e :
  pathEfficiencyOf d c = Some e -> (e <= 1)%Q.
Proof.
  unfold pathEfficiencyOf. destruct c as [c|]; [|intros [= <-]; lra].
  destruct (c =? 0).
  - destruct (d =? 0); [discriminate | intros [= <-]; lra].
  - intros [= <-]. apply Qmin_le_l.
Qed.

Lemma calculateDistance_nonneg a b : 0 <= calculateDistance a b.
Proof.
  unfold calculateDistance, abs.
  destruct (pos_x a - pos_x b <? 0) eqn:Ex;
    destruct (pos_y a - pos_y b <? 0) eqn:Ey; lia.
Qed.

(** X28: the score [calculateSpawnScore] gives a candidate with a path
    never exceeds 2000, does not depend on the pellet count it is
    handed, and never goes down when more ships are nearby: the
    competition term has weight -100 on a factor that is 1 without
    ships and 0 from three ships on, so a candidate with three or more
    ships around scores exactly 100 above the same candidate with
    none. *)
Theorem X28_calculateSpawnScore (gs : GameState) (position : Position)
    (path : Path) (nearbyPellets nearbyShips : Z) (score : Q) :
  calculateSpawnScore gs position path nearbyPellets nearbyShips
  = ScoreQ score ->
  (score <= 2000)%Q
  /\ (forall otherCount,
        calculateSpawnScore gs position path otherCount nearbyShips
        = ScoreQ score)
  /\ (forall moreShips,
        nearbyShips <= moreShips ->
        exists score',
          calculateSpawnScore gs position path nearbyPellets moreShips
          = ScoreQ score' /\
          (score <= score')%Q /\
          (nearbyShips = 0 -> 3 <= moreShips -> (score' == score + 100)%Q)).
Proof.
  unfold calculateSpawnScore.
  destruct (path_success path); cbn [negb]; [|discriminate].
  destruct (pathEfficiencyOf (calculateDistance position origin)
              (path_totalCost path)) as [e|] eqn:Ee; [|discriminate].
  intros [= <-].
  pose proof (pathEfficiencyOf_le_1 _ _ _ Ee) as He.
  pose proof (calculateDistance_nonneg position origin) as Hd.
  rewrite Zle_Qle in Hd.
  set (safety := Qmin 1 (inject_Z (Z.of_nat (List.length (path_fuelStops path))) / 3)).
  set (access := Qmin 1 (inject_Z (pelletCount gs position 20) / 10)).
  assert (Hs : (safety <= 1)%Q) by apply Qmin_le_l.
  assert (Ha : (access <= 1)%Q) by apply Qmin_le_l.
  split; [|split].
  - pose proof (Qmax_ge_l 0 (1 - inject_Z nearbyShips / 3)) as Hc.
    score_constants. lra.
  - reflexivity.
  - intros moreShips Hmore. eexists. split; [reflexivity|].
    pose proof (competition_falls _ _ Hmore) as Hcomp.
    split; [score_constants; lra|].
    intros -> H3. rewrite Zle_Qle in H3.
    assert (E0 : (Qmax 0 (1 - inject_Z 0 / 3) == 1)%Q) by reflexivity.
    assert (E3 : (Qmax 0 (1 - inject_Z moreShips / 3) == 0)%Q).
    { unfold Qmax.
      destruct (Qle_bool 0 (1 - inject_Z moreShips / 3)) eqn:E; [|reflexivity].
      apply Qle_bool_iff in E. score_constants. lra. }
    rewrite E0, E3. score_constants. lra.
Qed.

Lemma near_origin_score :
  calculateSpawnScore emptyWorld (mkPosition 2 0)
    (findPath emptyWorld (mkPosition 2 0) origin 5 true) 0 0
  = ScoreQ (25191000 # 18000).
Proof. vm_compute. reflexivity. Qed.

Lemma X28_calculateSpawnScore_witness :
  ((25191000 # 18000) <= 2000)%Q
  /\ (forall otherCount,
        calculateSpawnScore emptyWorld (mkPosition 2 0)
          (findPath emptyWorld (mkPosition 2 0) origin 5 true) otherCount 0
        = ScoreQ (25191000 # 18000))
  /\ (forall moreShips,
        0 <= moreShips ->
        exists score',
          calculateSpawnScore emptyWorld (mkPosition 2 0)
            (findPath emptyWorld (mkPosition 2 0) origin 5 true) 0 moreShips
          = ScoreQ score' /\
          ((25191000 # 18000) <= score')%Q /\
          (0 = 0 -> 3 <= moreShips ->
           (score' == (25191000 # 18000) + 100)%Q)).
Proof.
  apply (X28_calculateSpawnScore emptyWorld (mkPosition 2 0)
           (findPath emptyWorld (mkPosition 2 0) origin 5 true) 0 0).
  exact near_origin_score.
Defined.
